(** * TwiCommon: the dialogue collector of [twitter.py]

    A shallow embedding of [QueueListener] (the stream listener that turns
    reply-linked tweets into two-party dialogue chains) and of the
    [twitter] reconnect loop, together with the properties of the
    thread-resolution engine, the normalizer, the dump sink and the
    checkpoint store.

    Python values are modelled as follows.
    - [str] is a list of Unicode code points ([Z]); [int] is [Z].
    - [set] of ids is a [gset Z]; the lookup dictionary [replys_dic] is a
      [gmap] keyed by the decimal id string, holding the mutable four-slot
      lists the source builds; the dictionary is threaded through the loop
      so that the in-place update of slot 2 is seen by later iterations.
    - exceptions are values of [exn] carried by the [result] monad.
    - the collaborators that are not part of the repository (Unicode NFKC,
      the [\w] property table, the MeCab tagger, the bulk lookup service,
      the file system, the stream session) are fields of an environment. *)

From Stdlib Require Import ZArith List Bool Lia Ascii String DecimalZ DecimalPos.
From stdpp Require Import base option list numbers gmap sets.

Set Default Proof Using "Type".

(** ** Python strings *)

Abbreviation str := (list Z).

(** Code points named after the characters of the source. *)
Module Ch.
Definition nl : Z := 10.            (* "\n" *)
Definition cr : Z := 13.            (* "\r" *)
Definition sp : Z := 32.            (* " " *)
Definition bang : Z := 33.          (* "!" *)
Definition hash : Z := 35.          (* "#" *)
Definition percent : Z := 37.       (* "%" *)
Definition amp : Z := 38.           (* "&" *)
Definition lparen : Z := 40.        (* "(" *)
Definition rparen : Z := 41.        (* ")" *)
Definition plus : Z := 43.          (* "+" *)
Definition comma : Z := 44.         (* "," *)
Definition minus : Z := 45.         (* "-" *)
Definition dot : Z := 46.           (* "." *)
Definition slash : Z := 47.         (* "/" *)
Definition d0 : Z := 48.            (* "0" *)
Definition d4 : Z := 52.            (* "4" *)
Definition d5 : Z := 53.            (* "5" *)
Definition d9 : Z := 57.            (* "9" *)
Definition colon : Z := 58.         (* ":" *)
Definition semi : Z := 59.          (* ";" *)
Definition eq : Z := 61.            (* "=" *)
Definition gt : Z := 62.            (* ">" *)
Definition quest : Z := 63.         (* "?" *)
Definition at_ : Z := 64.           (* "@" *)
Definition uA : Z := 65.            (* "A" *)
Definition uZ : Z := 90.            (* "Z" *)
Definition lbrack : Z := 91.        (* "[" *)
Definition rbrack : Z := 93.        (* "]" *)
Definition under : Z := 95.         (* "_" *)
Definition la : Z := 97.            (* "a" *)
Definition lz : Z := 122.           (* "z" *)
Definition touten : Z := 0x3001.    (* ideographic comma *)
Definition kuten : Z := 0x3002.     (* ideographic full stop *)
Definition noma : Z := 0x3005.      (* iteration mark *)
Definition wave : Z := 0x301C.      (* wave dash *)
Definition hira_a : Z := 0x3041.    (* small hiragana a *)
Definition hira_tu : Z := 0x3063.   (* small hiragana tu *)
Definition hira_n : Z := 0x3093.    (* hiragana n *)
Definition dakuten : Z := 0x309B.   (* voiced sound mark *)
Definition handaku : Z := 0x309C.   (* semi-voiced sound mark *)
Definition kata_a : Z := 0x30A1.    (* small katakana a *)
Definition kata_tu : Z := 0x30C3.   (* small katakana tu *)
Definition kata_ke : Z := 0x30F6.   (* small katakana ke *)
Definition choon : Z := 0x30FC.     (* prolonged sound mark *)
Definition kata_iter : Z := 0x30FD. (* katakana iteration mark *)
Definition kata_iterv : Z := 0x30FE. (* katakana voiced iteration mark *)
Definition kanji_lo : Z := 0x4E00.  (* first ideograph of the range *)
Definition kanji_hi : Z := 0x9FA0.  (* last ideograph of the range *)
Definition ase : Z := 0x6C57.       (* sweat *)
Definition naki : Z := 0x6CE3.      (* cry *)
Definition wara : Z := 0x7B11.      (* laugh *)
Definition fbang : Z := 0xFF01.     (* fullwidth exclamation mark *)
Definition fhash : Z := 0xFF03.     (* fullwidth number sign *)
Definition fquest : Z := 0xFF1F.    (* fullwidth question mark *)
Definition fat : Z := 0xFF20.       (* fullwidth commercial at *)
Definition ftilde : Z := 0xFF5E.    (* fullwidth tilde *)
End Ch.

(** [str.isspace] on one code point, which is what [\s] tests in a [str]
    pattern. *)
Definition is_space (c : Z) : bool :=
  ((9 <=? c) && (c <=? 13) || (28 <=? c) && (c <=? 32) || (c =? 0x85)
   || (c =? 0xA0) || (c =? 0x1680) || (0x2000 <=? c) && (c <=? 0x200A)
   || (c =? 0x2028) || (c =? 0x2029) || (c =? 0x202F) || (c =? 0x205F)
   || (c =? 0x3000))%Z.

(** ** The part of Python's [re] the source uses

    A backtracking matcher written as a list of successes: [matches r st]
    lists, in the order in which a backtracking engine tries them, the
    states in which a match of [r] started in [st] can end.  The first
    element is the match [re] reports. *)
Module Re.

Inductive item :=
| C (c : Z)               (* one character *)
| R (lo hi : Z)           (* a range lo-hi *)
| P (f : Z -> bool).      (* a class escape such as \s or \w *)

Definition in_item (x : Z) (i : item) : bool :=
  match i with
  | C c => (x =? c)%Z
  | R lo hi => ((lo <=? x) && (x <=? hi))%Z
  | P f => f x
  end.

Inductive regex :=
| Eps
| Bol                                         (* ^ *)
| Any                                         (* . : not a newline *)
| Set_ (neg : bool) (items : list item)       (* [...] and [^...] *)
| Seq (a b : regex)
| Alt (a b : regex)
| Rep (greedy : bool) (lo : nat) (hi : option nat) (a : regex)
| Group (k : nat) (a : regex)
| Backref (k : nat).

(** A matcher state: the input still to read and the groups captured. *)
Abbreviation mstate := (str * gmap nat str)%type.

Definition one_char (f : Z -> bool) (st : mstate) : list mstate :=
  match st.1 with
  | c :: rest => if f c then [(rest, st.2)] else []
  | [] => []
  end.

Definition in_set (neg : bool) (items : list item) (x : Z) : bool :=
  xorb neg (existsb (in_item x) items).

Fixpoint starts_with (u s : str) : option str :=
  match u, s with
  | [], _ => Some s
  | a :: u', b :: s' => if (a =? b)%Z then starts_with u' s' else None
  | _ :: _, [] => None
  end.

(** Quantifiers.  Every iteration has to consume input (no repeated
    sub-pattern of the source can match the empty string), so a fuel of
    one more than the input left is never exhausted. *)
Fixpoint rep_go (step : mstate -> list mstate) (greedy : bool)
    (lo : nat) (hi : option nat) (fuel : nat) (st : mstate) : list mstate :=
  match fuel with
  | O => []
  | S fuel' =>
    let stop := match lo with O => [st] | S _ => [] end in
    let more :=
      match hi with
      | Some O => []
      | _ => flat_map (fun st' =>
               if (length st'.1 <? length st.1)%nat
               then rep_go step greedy (pred lo) (pred <$> hi) fuel' st'
               else []) (step st)
      end in
    if greedy then more ++ stop else stop ++ more
  end.

(** [total] is the length of the whole subject: [^] holds only there. *)
Fixpoint matches (total : nat) (r : regex) (st : mstate) : list mstate :=
  match r with
  | Eps => [st]
  | Bol => if (length st.1 =? total)%nat then [st] else []
  | Any => one_char (fun x => negb (x =? Ch.nl)%Z) st
  | Set_ neg items => one_char (in_set neg items) st
  | Seq a b => flat_map (matches total b) (matches total a st)
  | Alt a b => matches total a st ++ matches total b st
  | Rep greedy lo hi a =>
      rep_go (matches total a) greedy lo hi (S (length st.1)) st
  | Group k a =>
      map (fun st' : mstate =>
             (st'.1, <[k := take (length st.1 - length st'.1) st.1]> st'.2))
          (matches total a st)
  | Backref k =>
      match st.2 !! k with
      | Some u => match starts_with u st.1 with
                  | Some rest => [(rest, st.2)]
                  | None => []
                  end
      | None => []
      end
  end.

(** The match of [r] that starts exactly at the head of [s]. *)
Definition match_at (total : nat) (r : regex) (s : str) : option mstate :=
  head (matches total r (s, ∅)).

(** [re.search(...)] is not [None]. *)
Fixpoint search_from (total : nat) (r : regex) (s : str) : bool :=
  match match_at total r s with
  | Some _ => true
  | None => match s with
            | [] => false
            | _ :: s' => search_from total r s'
            end
  end.

Definition search (r : regex) (s : str) : bool := search_from (length s) r s.

(** Replacement templates: literal text and group references. *)
Inductive titem :=
| TLit (u : str)
| TGroup (k : nat).

Definition expand (tpl : list titem) (caps : gmap nat str) : str :=
  flat_map (fun t => match t with
                     | TLit u => u
                     | TGroup k => default [] (caps !! k)
                     end) tpl.

(** [re.sub]: leftmost matches, left to right, not overlapping.  After an
    empty match one character is copied. *)
Fixpoint sub_go (fuel total : nat) (r : regex) (tpl : list titem) (s : str)
    : str :=
  match fuel with
  | O => s
  | S fuel' =>
    let copy := match s with
                | [] => []
                | c :: s' => c :: sub_go fuel' total r tpl s'
                end in
    match match_at total r s with
    | Some (rest, caps) =>
        if (length rest <? length s)%nat
        then expand tpl caps ++ sub_go fuel' total r tpl rest
        else expand tpl caps ++ copy
    | None => copy
    end
  end.

Definition sub (r : regex) (tpl : list titem) (s : str) : str :=
  sub_go (S (length s)) (length s) r tpl s.

(** Abbreviations that follow the concrete syntax. *)
Definition chr (c : Z) : regex := Set_ false [C c].
Definition star (a : regex) : regex := Rep true 0 None a.
Definition plus (a : regex) : regex := Rep true 1 None a.
Definition opt (a : regex) : regex := Rep true 0 (Some 1%nat) a.
Definition lazy_star (a : regex) : regex := Rep false 0 None a.
Definition lazy_plus (a : regex) : regex := Rep false 1 None a.
Definition space : regex := Set_ false [P is_space].
Fixpoint lit (u : str) : regex :=
  match u with
  | [] => Eps
  | [c] => chr c
  | c :: u' => Seq (chr c) (lit u')
  end.

End Re.


Import Re.

(** A string literal of the source, as code points. *)
Definition py (s : String.string) : str :=
  map (fun a => Z.of_nat (Ascii.nat_of_ascii a)) (String.list_ascii_of_string s).
Arguments py s%_string.

(** ** The text functions of [QueueListener] *)

Definition one (cs : list Z) : regex := Set_ false (map C cs).
Definition none_of (cs : list Z) : regex := Set_ true (map C cs).
(** A run of two or more [c] with blanks allowed in between: [c] followed
    by one or more of (blanks, [c]), the blanks-and-[c] part being group [k]. *)
Definition run2 (k : nat) (c : regex) : regex :=
  Seq c (plus (Group k (Seq (star space) c))).

Module Pat.
(* line 281: a bracketed annotation without an emotion ideograph *)
Definition bracket : regex :=
  Seq (one [Ch.lparen; Ch.lbrack])
      (Seq (lazy_star (none_of [Ch.wara; Ch.naki; Ch.ase]))
           (one [Ch.rparen; Ch.rbrack])).
(* line 282: any character outside the allowed alphabet *)
Definition disallowed : regex :=
  Set_ true [R Ch.hira_a Ch.hira_n; R Ch.kata_a Ch.kata_ke;
             R Ch.kanji_lo Ch.kanji_hi; C Ch.noma; C Ch.choon; C Ch.ftilde;
             C Ch.wave; C Ch.touten; C Ch.kuten; C Ch.bang; C Ch.quest;
             C Ch.comma; C Ch.dot].
(* line 287: a run of commas or a run of full stops *)
Definition ellipsis : regex :=
  Alt (run2 1 (chr Ch.touten)) (run2 2 (chr Ch.kuten)).
(* line 303 *)
Definition stops : regex := run2 1 (one [Ch.touten; Ch.kuten]).
(* line 305 *)
Definition stops_bang : regex := run2 1 (one [Ch.kuten; Ch.touten; Ch.fbang]).
(* line 306 *)
Definition stops_quest : regex :=
  run2 1 (one [Ch.kuten; Ch.touten; Ch.fquest]).
(* line 307: exclamation and question marks mixed *)
Definition interrobang : regex :=
  Seq (Group 1
         (Alt (Seq (plus (Group 2 (Seq (chr Ch.fbang) (star space))))
                   (chr Ch.fquest))
              (Seq (plus (Group 3 (Seq (chr Ch.fquest) (star space))))
                   (chr Ch.fbang))))
      (star (Group 4 (Seq (star space) (one [Ch.fbang; Ch.fquest])))).
Definition emotion : regex := one [Ch.wara; Ch.naki; Ch.ase].
(* line 309 *)
Definition comma_emotion : regex :=
  Seq (chr Ch.touten)
      (Seq (star space)
           (Seq (Group 1 emotion) (Seq (star space) (chr Ch.kuten)))).
(* line 310 *)
Definition mark_emotion : regex :=
  Seq (Group 1 (Alt (chr Ch.kuten)
               (Alt (chr Ch.fbang)
               (Alt (chr Ch.fquest) (lit [Ch.bang; Ch.quest])))))
      (Seq (star space)
           (Seq (Group 2 emotion) (Seq (star space) (chr Ch.kuten)))).
(* line 315: dots, each followed by blanks *)
Definition dots : regex := plus (Group 1 (Seq (chr Ch.dot) (star space))).
(* line 320 *)
Definition line_head : regex :=
  Seq (chr Ch.nl)
      (plus (Group 1 (Seq (star space) (one [Ch.ftilde; Ch.choon])))).
(* line 322: the leading run of marks *)
Definition leading : regex :=
  Seq Bol
      (plus (Group 1
         (Seq (star (Set_ false [P is_space; C Ch.nl]))
              (plus (one [Ch.kuten; Ch.touten; Ch.fbang; Ch.fquest; Ch.bang;
                          Ch.quest; Ch.choon; Ch.ftilde]))))).
(* line 323: a unit repeated four times or more *)
Definition repeated : regex :=
  Seq (Group 1 (lazy_plus Any)) (Rep true 3 None (Backref 1)).
End Pat.

(** The lines of [normalize] before the full stop is appended (281 to 300). *)
Definition normalize_head (line : str) : str :=
  let line := Re.sub Pat.bracket [TLit [Ch.sp]] line in
  let line := Re.sub Pat.disallowed [TLit [Ch.sp]] line in
  let line := Re.sub (chr Ch.comma) [TLit [Ch.touten]] line in
  let line := Re.sub (chr Ch.dot) [TLit [Ch.kuten]] line in
  let line := Re.sub (chr Ch.wave) [TLit [Ch.ftilde]] line in
  let line := Re.sub Pat.ellipsis [TLit [Ch.dot; Ch.dot; Ch.dot]] line in
  let line := Re.sub (plus (chr Ch.bang)) [TLit [Ch.fbang]] line in
  let line := Re.sub (run2 1 (chr Ch.fbang)) [TLit [Ch.fbang]] line in
  let line := Re.sub (plus (chr Ch.quest)) [TLit [Ch.fquest]] line in
  let line := Re.sub (run2 1 (chr Ch.fquest)) [TLit [Ch.fquest]] line in
  let line := Re.sub (run2 1 (chr Ch.ftilde)) [TLit [Ch.ftilde]] line in
  let line := Re.sub (run2 1 (chr Ch.choon)) [TLit [Ch.choon]] line in
  let line := Re.sub (run2 1 (chr Ch.hira_tu)) [TLit [Ch.hira_tu]] line in
  let line := Re.sub (run2 1 (chr Ch.kata_tu)) [TLit [Ch.kata_tu]] line in
  let line := Re.sub (run2 1 (chr Ch.wara)) [TLit [Ch.wara]] line in
  let line := Re.sub (run2 1 (chr Ch.naki)) [TLit [Ch.naki]] line in
  let line := Re.sub (run2 1 (chr Ch.ase)) [TLit [Ch.ase]] line in
  line.

(** Lines 303 to 318: merging of the marks and the separators. *)
Definition normalize_marks (line : str) : str :=
  let line := Re.sub Pat.stops [TLit [Ch.kuten]] line in
  let line := Re.sub Pat.stops_bang [TLit [Ch.fbang]] line in
  let line := Re.sub Pat.stops_quest [TLit [Ch.fquest]] line in
  let line := Re.sub Pat.interrobang [TLit [Ch.bang; Ch.quest]] line in
  let line := Re.sub Pat.comma_emotion
                [TLit [Ch.sp]; TGroup 1; TLit [Ch.kuten]] line in
  let line := Re.sub Pat.mark_emotion [TLit [Ch.sp]; TGroup 2; TGroup 1] line in
  let line := Re.sub (chr Ch.touten) [TLit [Ch.sp; Ch.touten; Ch.sp]] line in
  let line := Re.sub (chr Ch.kuten) [TLit [Ch.sp; Ch.kuten; Ch.nl]] line in
  let line := Re.sub Pat.dots [TLit [Ch.sp; Ch.dot; Ch.dot; Ch.dot; Ch.sp]] line in
  let line := Re.sub (chr Ch.fbang) [TLit [Ch.sp; Ch.fbang; Ch.nl]] line in
  let line := Re.sub (chr Ch.fquest) [TLit [Ch.sp; Ch.fquest; Ch.nl]] line in
  let line := Re.sub (lit [Ch.bang; Ch.quest])
                [TLit [Ch.sp; Ch.bang; Ch.quest; Ch.nl]] line in
  line.

(** Lines 320 to 323: clean-up of the line heads and of repetitions. *)
Definition normalize_tail (line : str) : str :=
  let line := Re.sub Pat.line_head [TLit [Ch.nl]] line in
  let line := Re.sub Pat.leading [] line in
  let line := Re.sub Pat.repeated [TGroup 1; TGroup 1; TGroup 1] line in
  line.

Definition normalize (line : str) : str :=
  normalize_tail (normalize_marks (normalize_head line ++ [Ch.kuten])).

(** ** Exceptions and the collaborators outside the repository *)

(** Where an index was out of range (Python's [IndexError] has no such
    tag; it only tells the raising expressions apart). *)
Inductive site := InIds | InQueue | InDialog | InFeature.

Inductive exn :=
| IndexError (w : site)
| TypeError
| ValueError
| SystemExit (code : Z)
| KeyboardInterrupt
| AttributeError
| OtherError.                 (* anything else, a failed request for one *)

Inductive result (A : Type) :=
| OK (a : A)
| Raise (e : exn).
Arguments OK {A} a.
Arguments Raise {A} e.

(** A node of the tagger: [node.surface] and [node.feature]. *)
Record node := { surface : str; feature : str }.

Record collaborators := {
  nfkc : str -> str;               (* unicodedata.normalize('NFKC', .) *)
  is_word : Z -> bool;             (* the characters of \w *)
  parseToNode : str -> list node;  (* the tagger's nodes, BOS to EOS *)
  open_read : bool;                (* open(check_point_path, 'r') succeeds *)
  open_write : bool;               (* open(check_point_path, 'w') succeeds *)
  iter_ids : gset Z -> list Z      (* the order in which a set is iterated *)
}.

(** [str.split(sep)] with a one-character separator. *)
Fixpoint split_on (sep : Z) (s : str) : list str :=
  match s with
  | [] => [[]]
  | c :: s' =>
    let r := split_on sep s' in
    if (c =? sep)%Z then [] :: r
    else match r with
         | h :: t => (c :: h) :: t
         | [] => [[c]]
         end
  end.

(** [sep.join(ws)]. *)
Fixpoint join (sep : str) (ws : list str) : str :=
  match ws with
  | [] => []
  | [w] => w
  | w :: ws' => w ++ sep ++ join sep ws'
  end.

Definition str_eqb (a b : str) : bool := bool_decide (a = b).
Definition str_in (a : str) (l : list str) : bool := existsb (str_eqb a) l.

(** The Japanese part-of-speech names compared with in [parse]. *)
Module Pos.
Definition meishi : str := [0x540D; 0x8A5E]%Z.                 (* noun *)
Definition ippan : str := [0x4E00; 0x822C]%Z.                  (* general *)
Definition koyuu : str := [0x56FA; 0x6709; 0x540D; 0x8A5E]%Z.  (* proper noun *)
Definition sahen : str := [0x30B5; 0x5909; 0x63A5; 0x7D9A]%Z.  (* verbal noun *)
Definition keidou : str :=
  [0x5F62; 0x5BB9; 0x52D5; 0x8A5E; 0x8A9E; 0x5E79]%Z.          (* adjectival noun stem *)
Definition daimeishi : str := [0x4EE3; 0x540D; 0x8A5E]%Z.      (* pronoun *)
Definition doushi : str := [0x52D5; 0x8A5E]%Z.                 (* verb *)
Definition jiritsu : str := [0x81EA; 0x7ACB]%Z.                (* independent *)
Definition keiyoushi : str := [0x5F62; 0x5BB9; 0x8A5E]%Z.      (* adjective *)
Definition fukushi : str := [0x526F; 0x8A5E]%Z.                (* adverb *)
Definition joshi : str := [0x52A9; 0x8A5E]%Z.                  (* particle *)
Definition jodoushi : str := [0x52A9; 0x52D5; 0x8A5E]%Z.       (* auxiliary verb *)
Definition setsuzokushi : str := [0x63A5; 0x7D9A; 0x8A5E]%Z.   (* conjunction *)
Definition settoushi : str := [0x63A5; 0x982D; 0x8A5E]%Z.      (* prefix *)
Definition filler : str := [0x30D5; 0x30A3; 0x30E9; 0x30FC]%Z. (* filler *)
Definition kandoushi : str := [0x611F; 0x52D5; 0x8A5E]%Z.      (* interjection *)
Definition rentaishi : str := [0x9023; 0x4F53; 0x8A5E]%Z.      (* adnominal *)
End Pos.

(** The body of the [while node] loop of [parse] for one node: [None] when
    the node is skipped, else the word and its token. *)
Definition parse_node (n : node) : result (option (str * str)) :=
  let feat := split_on Ch.comma (feature n) in
  let f0 := default [] (feat !! 0%nat) in
  let f1 (k : str -> str) : result (option (str * str)) :=
    match feat !! 1%nat with
    | Some x => OK (Some (surface n, k x))
    | None => Raise (IndexError InFeature)
    end in
  let tok (t : str) : result (option (str * str)) :=
    OK (Some (surface n, t)) in
  if str_eqb f0 (py "BOS/EOS")
     || str_in (feature n) [py "."; py ".."; py "!"; py "?"]
  then OK None
  else if str_eqb f0 Pos.meishi then
    f1 (fun x => if str_in x [Pos.ippan; Pos.koyuu; Pos.sahen; Pos.keidou]
                 then py "noun_main"
                 else if str_eqb x Pos.daimeishi then py "pronoun"
                 else py "noun_sub")
  else if str_eqb f0 Pos.doushi then
    f1 (fun x => if str_eqb x Pos.jiritsu then py "verb_main" else py "verb_sub")
  else if str_eqb f0 Pos.keiyoushi then
    f1 (fun x => if str_eqb x Pos.jiritsu then py "adjective_main"
                 else py "adjective_sub")
  else if str_eqb f0 Pos.fukushi then tok (py "adverb")
  else if str_eqb f0 Pos.joshi then tok (py "particle")
  else if str_eqb f0 Pos.jodoushi then tok (py "auxiliary_verb")
  else if str_eqb f0 Pos.setsuzokushi then tok (py "conjunction")
  else if str_eqb f0 Pos.settoushi then tok (py "prefix")
  else if str_eqb f0 Pos.filler then tok (py "filler")
  else if str_eqb f0 Pos.kandoushi then tok (py "impression_verb")
  else if str_eqb f0 Pos.rentaishi then tok (py "pre_noun")
  else if str_eqb (surface n) (py "...") then tok (py "three_dots")
  else if str_in (surface n) [[Ch.kuten]; [Ch.fbang]; [Ch.fquest]; py "!?"]
  then tok (py "phrase_point")
  else if str_eqb (surface n) [Ch.touten] then tok (py "reading_point")
  else tok (py "other").

Fixpoint parse_nodes (ns : list node) : result (list str * list str) :=
  match ns with
  | [] => OK ([], [])
  | n :: ns' =>
    match parse_node n with
    | Raise e => Raise e
    | OK o =>
      match parse_nodes ns' with
      | Raise e => Raise e
      | OK (words, parts) =>
        match o with
        | None => OK (words, parts)
        | Some (w, t) => OK (w :: words, t :: parts)
        end
      end
    end
  end.

(** ** The data of the listener *)

(** Slot 2 of the four-slot tweet list: the text as received, or, once
    [parse] has overwritten it, the word list. *)
Inductive slot2 :=
| Text (t : str)
| Words (ws : list str).

(** The list [[in_reply_to_status_id, user id, text, id]]; slot 0 is [None]
    when the reply id is not an [int]. *)
Record tweet := {
  t_reply_to : option Z;
  t_user : Z;
  t_body : slot2;
  t_id : Z
}.

(** An element [[tweet, parts]] of a dialogue and a dialogue of the queue,
    newest tweet first (a found parent is appended at the end). *)
Abbreviation entry := (tweet * list str)%type.
Abbreviation dialog := (list entry).

(** A status as the stream and the lookup service deliver it. *)
Record status := {
  in_reply_to_status_id : option Z;
  user_id : Z;
  text : str;
  id : Z;
  id_str : str
}.

(** What [__init__] keeps of [config.yml]. *)
Record config := {
  need : gmap str bool;
  needless : gmap str bool;
  dump : gmap str bool;
  length_min : Z;
  length_max : Z;
  output_part : bool
}.

(** The attributes of a listener that never change after [__init__]. *)
Record settings := {
  conf :> config;
  BATCH_SIZE : nat
}.

(** The mutable attributes of the listener and the files it writes.
    [dumped] is a history variable, not program state: the dialogues
    [dump_data] has written, each in chronological order. *)
Record state := {
  tweet_ids : gset Z;
  queue : list dialog;
  dump_count : Z;
  tweet_txt : str;
  reply_txt : str;
  tweet_part_txt : str;
  check_point_txt : option str;
  dumped : list dialog
}.

Definition set_tweet_ids (f : gset Z -> gset Z) (s : state) : state :=
  {| tweet_ids := f (tweet_ids s); queue := queue s;
     dump_count := dump_count s; tweet_txt := tweet_txt s;
     reply_txt := reply_txt s; tweet_part_txt := tweet_part_txt s;
     check_point_txt := check_point_txt s; dumped := dumped s |}.

Definition set_queue (f : list dialog -> list dialog) (s : state) : state :=
  {| tweet_ids := tweet_ids s; queue := f (queue s);
     dump_count := dump_count s; tweet_txt := tweet_txt s;
     reply_txt := reply_txt s; tweet_part_txt := tweet_part_txt s;
     check_point_txt := check_point_txt s; dumped := dumped s |}.

(** ** Statements that change the state or raise *)

Inductive outcome (A : Type) :=
| Val (a : A) (s : state)      (* normal completion *)
| Exc (e : exn) (s : state)    (* an exception leaves the method *)
| Hang (s : state).            (* the lookup service has not answered *)
Arguments Val {A} a s.
Arguments Exc {A} e s.
Arguments Hang {A} s.

Definition M (A : Type) : Type := state -> outcome A.

Definition ret {A} (a : A) : M A := fun s => Val a s.
Definition raise {A} (e : exn) : M A := fun s => Exc e s.
Definition bind {A B} (m : M A) (k : A -> M B) : M B :=
  fun s => match m s with
           | Val a s' => k a s'
           | Exc e s' => Exc e s'
           | Hang s' => Hang s'
           end.
Definition get : M state := fun s => Val s s.
Definition update (f : state -> state) : M unit := fun s => Val tt (f s).
Definition lift {A} (r : result A) : M A :=
  match r with
  | OK a => ret a
  | Raise e => raise e
  end.

Notation "x <- m ;; k" := (bind m (fun x => k))
  (at level 90, m at level 89, right associativity).
Notation "m ;;; k" := (bind m (fun _ => k))
  (at level 90, right associativity).

(** The state an outcome leaves behind. *)
Definition state_of {A} (o : outcome A) : state :=
  match o with
  | Val _ s => s
  | Exc _ s => s
  | Hang s => s
  end.

(** [l[i]] and [l[-1]], [l[-2]]. *)
Definition index {A} (w : site) (l : list A) (i : nat) : M A :=
  match l !! i with
  | Some x => ret x
  | None => raise (IndexError w)
  end.

Definition index_back {A} (w : site) (l : list A) (i : nat) : M A :=
  index w (reverse l) i.

(** ** [str(n)] and [int(s)] for integers *)

Fixpoint digits (d : Decimal.uint) : str :=
  match d with
  | Decimal.Nil => []
  | Decimal.D0 d => 48%Z :: digits d
  | Decimal.D1 d => 49%Z :: digits d
  | Decimal.D2 d => 50%Z :: digits d
  | Decimal.D3 d => 51%Z :: digits d
  | Decimal.D4 d => 52%Z :: digits d
  | Decimal.D5 d => 53%Z :: digits d
  | Decimal.D6 d => 54%Z :: digits d
  | Decimal.D7 d => 55%Z :: digits d
  | Decimal.D8 d => 56%Z :: digits d
  | Decimal.D9 d => 57%Z :: digits d
  end.

Definition str_of_int (z : Z) : str :=
  match Z.to_int z with
  | Decimal.Pos d => digits d
  | Decimal.Neg d => Ch.minus :: digits d
  end.

(** The decimal digits that [int] reads are those of every script.  Each
    script has its ten digits in a row; these are the code points of the
    zeros (Unicode 14.0, the table of CPython 3.11; an older table has
    fewer rows). *)
Definition digit_zeros : list Z :=
  [0x30; 0x660; 0x6F0; 0x7C0; 0x966; 0x9E6; 0xA66; 0xAE6; 0xB66; 0xBE6;
   0xC66; 0xCE6; 0xD66; 0xDE6; 0xE50; 0xED0; 0xF20; 0x1040; 0x1090; 0x17E0;
   0x1810; 0x1946; 0x19D0; 0x1A80; 0x1A90; 0x1B50; 0x1BB0; 0x1C40; 0x1C50;
   0xA620; 0xA8D0; 0xA900; 0xA9D0; 0xA9F0; 0xAA50; 0xABF0; 0xFF10; 0x104A0;
   0x10D30; 0x11066; 0x110F0; 0x11136; 0x111D0; 0x112F0; 0x11450; 0x114D0;
   0x11650; 0x116C0; 0x11730; 0x118E0; 0x11950; 0x11C50; 0x11D50; 0x11DA0;
   0x16A60; 0x16AC0; 0x16B50; 0x1D7CE; 0x1D7D8; 0x1D7E2; 0x1D7EC; 0x1D7F6;
   0x1E140; 0x1E2F0; 0x1E950; 0x1FBF0]%Z.

(** [unicodedata.decimal(c)], for a decimal digit. *)
Definition decimal (c : Z) : option Z :=
  (fun z => c - z)%Z
    <$> List.find (fun z => (z <=? c) && (c <=? z + 9))%Z digit_zeros.

Definition digit_of (c : Z) : option (Decimal.uint -> Decimal.uint) :=
  match decimal c with
  | Some 0 => Some Decimal.D0 | Some 1 => Some Decimal.D1
  | Some 2 => Some Decimal.D2 | Some 3 => Some Decimal.D3
  | Some 4 => Some Decimal.D4 | Some 5 => Some Decimal.D5
  | Some 6 => Some Decimal.D6 | Some 7 => Some Decimal.D7
  | Some 8 => Some Decimal.D8 | Some 9 => Some Decimal.D9
  | _ => None
  end%Z.

(** Digits, single underscores allowed between two of them. *)
Fixpoint uint_of (after_digit : bool) (s : str) : option Decimal.uint :=
  match s with
  | [] => if after_digit then Some Decimal.Nil else None
  | c :: s' =>
    match digit_of c with
    | Some d => d <$> uint_of true s'
    | None =>
      if (c =? Ch.under)%Z && after_digit
      then match s' with
           | c' :: _ => if bool_decide (is_Some (digit_of c')) then uint_of false s' else None
           | [] => None
           end
      else None
    end
  end.

Fixpoint lstrip (s : str) : str :=
  match s with
  | c :: s' => if is_space c then lstrip s' else s
  | [] => []
  end.

(** [s.strip()] *)
Definition strip (s : str) : str := reverse (lstrip (reverse (lstrip s))).

(** The blanks that [int] skips at both ends: the whitespace of [str]
    without the four separators U+001C to U+001F. *)
Definition is_int_space (c : Z) : bool :=
  is_space c && negb ((28 <=? c) && (c <=? 31))%Z.

Fixpoint int_lstrip (s : str) : str :=
  match s with
  | c :: s' => if is_int_space c then int_lstrip s' else s
  | [] => []
  end.

Definition int_strip (s : str) : str :=
  reverse (int_lstrip (reverse (int_lstrip s))).

(** [int(s)] in base ten: blanks around, a sign, then decimal digits of
    any script with single underscores between them.  (The limit that
    later versions of CPython put on the number of digits, which can be
    switched off, is not modelled.) *)
Definition int_of_str (s : str) : result Z :=
  let body (t : str) (mk : Decimal.uint -> Decimal.int) : result Z :=
    match uint_of false t with
    | Some d => OK (Z.of_int (mk d))
    | None => Raise ValueError
    end in
  match int_strip s with
  | c :: t =>
    if (c =? Ch.minus)%Z then body t Decimal.Neg
    else if (c =? Ch.plus)%Z then body t Decimal.Pos
    else body (c :: t) Decimal.Pos
  | [] => Raise ValueError
  end.

(** [s.split()]: the maximal runs of non-blank characters. *)
Fixpoint split_ws_go (cur : str) (s : str) : list str :=
  match s with
  | [] => match cur with [] => [] | _ => [reverse cur] end
  | c :: s' =>
    if is_space c
    then match cur with
         | [] => split_ws_go [] s'
         | _ => reverse cur :: split_ws_go [] s'
         end
    else split_ws_go (c :: cur) s'
  end.

Definition split_ws (s : str) : list str := split_ws_go [] s.

(** [f.readline()] on a file opened in text mode: the text up to the first
    line end and the rest of the file.  A line ends with a newline, with a
    carriage return or with the two in a row; each is read as a newline. *)
Fixpoint readline (s : str) : str * str :=
  match s with
  | [] => ([], [])
  | c :: s' =>
    if (c =? Ch.nl)%Z then ([Ch.nl], s')
    else if (c =? Ch.cr)%Z
    then ([Ch.nl], match s' with
                   | c' :: s'' => if (c' =? Ch.nl)%Z then s'' else s'
                   | [] => []
                   end)
    else let '(l, r) := readline s' in (c :: l, r)
  end.

(** [str(x)] of an element of [ids]: an [int], or [None]. *)
Definition str_of_id (o : option Z) : str :=
  match o with
  | Some z => str_of_int z
  | None => py "None"
  end.

(** ** The methods of [QueueListener] *)

Section QueueListener.

Variable E : collaborators.
Variable cfg : settings.

Definition word : regex := Set_ false [P (is_word E)].

(** [del_username], line 247: the user names, with the blank before. *)
Definition username : regex :=
  Seq (Group 1 (Alt Bol space))
      (Seq (Group 2 (Alt (chr Ch.at_) (chr Ch.fat))) (Group 3 (plus word))).

Definition del_username (t : str) : str := Re.sub username [] t.

(** The pattern of line 256 (a URL), group by group. *)
Definition url_scheme : regex :=
  Group 2 (Alt (lit (py "ftp")) (Alt (lit (py "http")) (lit (py "https")))).
Definition url_user : regex :=
  Group 3 (Seq (plus word)
          (Seq (Rep true 0 (Some 1%nat) (chr Ch.colon))
          (Seq (star word) (chr Ch.at_)))).
Definition url_host : regex := Group 4 (plus (Set_ true [P is_space])).
Definition url_port : regex :=
  Group 5 (Seq (chr Ch.colon) (plus (Set_ false [R Ch.d0 Ch.d9]))).
Definition url_path_char : regex :=
  Set_ false
    [P (is_word E); C Ch.hash; C Ch.bang; C Ch.colon; C Ch.dot; C Ch.quest;
     C Ch.plus; C Ch.eq; C Ch.amp; C Ch.la; C 109%Z; C 112%Z; C Ch.semi;
     C Ch.percent; C Ch.at_; C Ch.bang; C Ch.amp; C Ch.hash; C Ch.d4;
     C Ch.d5; C Ch.semi; C Ch.slash].
Definition url_path : regex :=
  Group 6 (Alt (chr Ch.slash) (Seq (chr Ch.slash) (Group 7 url_path_char))).
Definition url : regex :=
  Group 1
    (Seq url_scheme
    (Seq (lit (py "://"))
    (Seq (opt url_user)
    (Seq url_host
    (Seq (opt url_port) (opt url_path)))))).

(** The pattern of line 259 (a hash tag). *)
Definition tag_letters : list item :=
  [C Ch.choon; C Ch.dakuten; C Ch.handaku; C Ch.noma; C Ch.kata_iterv;
   C Ch.kata_iter; R Ch.hira_a Ch.kata_ke; R Ch.kanji_lo Ch.kanji_hi;
   R Ch.la Ch.lz; R Ch.uA Ch.uZ].

Definition tag_chars : list item :=
  tag_letters ++ [R Ch.d0 Ch.d9; C Ch.under].

Definition hashtag : regex :=
  Seq (Alt Bol
         (plus (Set_ true
            [C Ch.choon; C Ch.choon; C Ch.dakuten; C Ch.handaku; C Ch.noma;
             C Ch.kata_iterv; C Ch.kata_iter; R Ch.hira_a Ch.kata_ke;
             R Ch.kanji_lo Ch.kanji_hi; R Ch.la Ch.lz; R Ch.uA Ch.uZ;
             R Ch.d0 Ch.d9; C Ch.amp; C Ch.under; C Ch.slash; C Ch.gt])))
      (Seq (one [Ch.hash; Ch.fhash])
           (Group 1 (Seq (star (Set_ false tag_chars))
                    (Seq (plus (Set_ false tag_letters))
                         (star (Set_ false tag_chars)))))).

(** The pattern of line 262. *)
Definition alnum : regex :=
  Set_ false [R Ch.la Ch.lz; R Ch.uA Ch.uZ; R Ch.d0 Ch.d9].

Definition check_text (t : str) : bool :=
  if Re.search url t then false
  else if Re.search hashtag t then false
  else if Re.search alnum t then false
  else true.

(** [check] on slot 2: [search] raises [TypeError] on a list. *)
Definition check (b : slot2) : M bool :=
  match b with
  | Text t => ret (check_text t)
  | Words _ => raise TypeError
  end.

Definition parse (line : str) : M (list str * list str) :=
  lift (parse_nodes (parseToNode E line)).

Definition need_check (parts : list str) : bool :=
  forallb (fun kv : str * bool => negb kv.2 || str_in kv.1 parts)
          (map_to_list (need cfg)).

Definition needless_check (parts : list str) : bool :=
  forallb (fun part => negb (default false (needless cfg !! part))) parts.

Fixpoint dump_filter (words parts : list str) : list str * list str :=
  match words, parts with
  | w :: words', p :: parts' =>
    let '(dw, dp) := dump_filter words' parts' in
    if default false (dump cfg !! p) then (w :: dw, p :: dp) else (dw, dp)
  | _, _ => ([], [])
  end.

Definition length_check (words : list str) : bool :=
  ((length_min cfg <=? Z.of_nat (length words))
   && (Z.of_nat (length words) <=? length_max cfg))%Z.

Definition words_of (e : entry) : list str :=
  match t_body e.1 with
  | Words ws => ws
  | Text t => map (fun c => [c]) t
  end.

Definition line_of (ws : list str) : str := join [Ch.sp] ws ++ [Ch.nl].

(** [dump_data(self.queue[idx])].  [dialog.reverse()] reverses the list
    object held by the queue; the prompt of pair [i] is turn [i], its
    response turn [i+1]. *)
Definition dump_data (idx : nat) (dialog0 : dialog) : M bool :=
  let dialog := reverse dialog0 in
  let tweets := map (fun e : entry => (words_of e, e.2)) dialog in
  let n := (length tweets - 1)%nat in
  update (fun s =>
    {| tweet_ids := tweet_ids s;
       queue := <[idx := dialog]> (queue s);
       dump_count := (dump_count s + (Z.of_nat (length tweets) - 1))%Z;
       tweet_txt :=
         tweet_txt s ++ concat (map (fun u => line_of u.1) (take n tweets));
       reply_txt :=
         reply_txt s
         ++ concat (map (fun u => line_of u.1) (take n (drop 1 tweets)));
       tweet_part_txt :=
         (if output_part cfg
          then tweet_part_txt s
               ++ concat (map (fun u => line_of u.2) (take n tweets))
          else tweet_part_txt s);
       check_point_txt := check_point_txt s;
       dumped := dumped s ++ [dialog] |}) ;;;
  ret true.

(** [talker_check]: [self.queue[idx][-1]] first, then the length test and
    [self.queue[idx][-2]]. *)
Definition talker_check (talker : Z) (idx : nat) : M bool :=
  s <- get ;;
  d <- index InQueue (queue s) idx ;;
  last1 <- index_back InDialog d 0 ;;
  if bool_decide (talker = t_user last1.1) then ret false
  else if (length d =? 1)%nat then ret true
  else last2 <- index_back InDialog d 1 ;;
       ret (bool_decide (talker = t_user last2.1)).

Definition set_body (b : slot2) (t : tweet) : tweet :=
  {| t_reply_to := t_reply_to t; t_user := t_user t; t_body := b;
     t_id := t_id t |}.

(** The four-slot list built from a status (lines 154 and 181). *)
Definition tweet_of (r : status) : tweet :=
  {| t_reply_to := in_reply_to_status_id r;
     t_user := user_id r;
     t_body := Text (del_username (nfkc E (text r)));
     t_id := id r |}.

(** [normalize(tweet[2])]: [re.sub] raises [TypeError] on a list. *)
Definition text_of (b : slot2) : M str :=
  match b with
  | Text t => ret t
  | Words _ => raise TypeError
  end.

(** [replys_dic]: a later status with the same [id_str] replaces an
    earlier one. *)
Definition build_dic (replys : list status) : gmap str tweet :=
  foldl (fun m r => <[id_str r := tweet_of r]> m) ∅ replys.

(** [dellist] *)
Definition dellist {A} (items : list A) (indices : list nat) : list A :=
  map snd (filter (fun p : nat * A => p.1 ∉ indices) (imap pair items)).

(** Lines 176 to 178. *)
Fixpoint collect_ids (q : list dialog) : M (list (option Z)) :=
  match q with
  | [] => ret []
  | dialogs :: q' =>
    e <- index_back InDialog dialogs 0 ;;
    ids <- collect_ids q' ;;
    ret (t_reply_to e.1 :: ids)
  end.

(** Lines 187 to 202 for the chain [idx]: the dictionary after the
    in-place updates of the looked-up list, and [interrupte]. *)
Definition extend (idx : nat) (key : str) (dic : gmap str tweet)
    : M (gmap str tweet * bool) :=
  match dic !! key with
  | None => ret (dic, true)
  | Some tweet =>
    c <- check (t_body tweet) ;;
    ok <- (if c then talker_check (t_user tweet) idx else ret false) ;;
    if ok then
      line <- text_of (t_body tweet) ;;
      wp <- parse (normalize line) ;;
      let tweet1 := set_body (Words wp.1) tweet in
      let dic1 := <[key := tweet1]> dic in
      if need_check wp.2 && needless_check wp.2 then
        let dwp := dump_filter wp.1 wp.2 in
        let tweet2 := set_body (Words dwp.1) tweet1 in
        let dic2 := <[key := tweet2]> dic1 in
        if length_check dwp.1 then
          s <- get ;;
          d <- index InQueue (queue s) idx ;;
          update (set_queue (fun q => <[idx := d ++ [(tweet2, dwp.2)]]> q)) ;;;
          let interrupte :=
            negb (bool_decide (is_Some (t_reply_to tweet2))
                  && bool_decide (t_id tweet2 ∉ tweet_ids s)) in
          update (set_tweet_ids (fun ids => {[t_id tweet2]} ∪ ids)) ;;;
          ret (dic2, interrupte)
        else ret (dic2, true)
      else ret (dic1, true)
    else ret (dic, true)
  end.

(** The [for idx in range(self.BATCH_SIZE)] loop and line 211. *)
Fixpoint lookup_loop (idxs : list nat) (ids : list (option Z))
    (dic : gmap str tweet) (dump_idxs : list nat) : M bool :=
  match idxs with
  | [] => update (set_queue (fun q => dellist q dump_idxs)) ;;; ret true
  | idx :: idxs' =>
    i <- index InIds ids idx ;;
    r <- extend idx (str_of_id i) dic ;;
    if r.2 : bool then
      s <- get ;;
      d <- index InQueue (queue s) idx ;;
      if (2 <=? length d)%nat then
        b <- dump_data idx d ;;
        if b : bool then lookup_loop idxs' ids r.1 (dump_idxs ++ [idx])
        else ret false
      else lookup_loop idxs' ids r.1 (dump_idxs ++ [idx])
    else lookup_loop idxs' ids r.1 dump_idxs
  end.

(** [self.api.statuses_lookup(ids)]: the statuses it returns, or [None]
    when the call fails. *)
Definition statuses_lookup (answer : option (list status)) : M (list status) :=
  match answer with
  | Some replys => ret replys
  | None => raise OtherError
  end.

(** [lookup], given what the lookup service answers. *)
Definition lookup (answer : option (list status)) : M bool :=
  s <- get ;;
  ids <- collect_ids (queue s) ;;
  replys <- statuses_lookup answer ;;
  lookup_loop (seq 0 (BATCH_SIZE cfg)) ids (build_dic replys) [].

(** The [while] of line 165; [answers] are the answers of the lookup
    service to the successive calls. *)
Fixpoint resolve (answers : list (option (list status))) : M bool :=
  fun s =>
    if (length (queue s) =? BATCH_SIZE cfg)%nat then
      match answers with
      | [] => Hang s
      | answer :: answers' =>
        (b <- lookup answer ;;
         if b : bool then resolve answers' else ret false) s
      end
    else Val true s.

(** Lines 154 to 160: the filters on an incoming status. *)
Definition accept (raw : status) : M (option entry) :=
  match in_reply_to_status_id raw with
  | Some _ =>
    let tweet := tweet_of raw in
    c <- check (t_body tweet) ;;
    if c : bool then
      line <- text_of (t_body tweet) ;;
      wp <- parse (normalize line) ;;
      if need_check wp.2 && needless_check wp.2 then
        let dwp := dump_filter wp.1 wp.2 in
        if length_check dwp.1
        then ret (Some (set_body (Words dwp.1) tweet, dwp.2))
        else ret None
      else ret None
    else ret None
  | None => ret None
  end.

(** Lines 162 and 163. *)
Definition enqueue (e : entry) : M unit :=
  update (set_queue (fun q => q ++ [[e]])) ;;;
  update (set_tweet_ids (fun ids => {[t_id e.1]} ∪ ids)).

Definition on_status (answers : list (option (list status))) (raw : status)
    : M bool :=
  o <- accept raw ;;
  match o with
  | Some e => enqueue e ;;; resolve answers
  | None => ret true
  end.


(** [save_check_point]: nothing is written when the file cannot be
    opened. *)
Definition check_point_of (s : state) : str :=
  str_of_int (dump_count s) ++ [Ch.nl]
  ++ join [Ch.sp] (map str_of_int (iter_ids E (tweet_ids s))).

Definition set_check_point (c : option str) (s : state) : state :=
  {| tweet_ids := tweet_ids s; queue := queue s;
     dump_count := dump_count s; tweet_txt := tweet_txt s;
     reply_txt := reply_txt s; tweet_part_txt := tweet_part_txt s;
     check_point_txt := c; dumped := dumped s |}.

Definition save_check_point : M unit :=
  if open_write E
  then update (fun s => set_check_point (Some (check_point_of s)) s)
  else ret tt.

Definition set_dump_count (n : Z) (s : state) : state :=
  {| tweet_ids := tweet_ids s; queue := queue s;
     dump_count := n; tweet_txt := tweet_txt s;
     reply_txt := reply_txt s; tweet_part_txt := tweet_part_txt s;
     check_point_txt := check_point_txt s; dumped := dumped s |}.

(** [set(map(int, tokens))]: the tokens are converted one by one. *)
Fixpoint ints_of (tokens : list str) : result (list Z) :=
  match tokens with
  | [] => OK []
  | t :: tokens' =>
    match int_of_str t with
    | Raise e => Raise e
    | OK z => match ints_of tokens' with
              | Raise e => Raise e
              | OK zs => OK (z :: zs)
              end
    end
  end.

(** [load_check_point]: only the [open] is inside the [try]. *)
Definition load_check_point : M unit :=
  update (set_tweet_ids (fun _ => ∅)) ;;;
  update (set_dump_count 0) ;;;
  s <- get ;;
  match check_point_txt s with
  | Some content =>
    if open_read E then
      let '(line1, rest) := readline content in
      n <- lift (int_of_str (strip line1)) ;;
      update (set_dump_count n) ;;;
      let '(line2, _) := readline rest in
      zs <- lift (ints_of (split_ws (strip line2))) ;;
      update (set_tweet_ids (fun _ => list_to_set zs))
    else ret tt
  | None => ret tt
  end.

End QueueListener.

(** ** The handlers of the stream events

    Lines 80 to 134.  Each handler prints its message, which is not
    modelled beyond the attribute that [on_disconnect] and [on_warning]
    read for it; all but [on_connect] then save a checkpoint.  The value
    is what the method returns: [Some true] for [return True], [None] for
    a bare [return]. *)

(** A notice, as far as the handlers look at it: what its attributes
    [code] and [message] hold, [None] for an object without the attribute
    (a [str], which is what the docstrings announce, has neither). *)
Record notice := {
  notice_code : option Z;
  notice_message : option str;
}.

(** [obj.name]: the attribute, or [AttributeError]. *)
Definition getattr {A} (attribute : option A) : M A :=
  match attribute with
  | Some a => ret a
  | None => raise AttributeError
  end.

Section Handlers.

Variable E : collaborators.

Definition on_error (status : str) : M (option bool) :=
  save_check_point E ;;; ret (Some true).

Definition on_limit (track : str) : M (option bool) :=
  save_check_point E ;;; ret None.

Definition on_exception (exception : str) : M (option bool) :=
  save_check_point E ;;; ret None.

Definition on_connect : M (option bool) := ret None.

(** [notice.code] is evaluated for the [print], before the save. *)
Definition on_disconnect (n : notice) : M (option bool) :=
  getattr (notice_code n) ;;; save_check_point E ;;; ret None.

Definition on_timeout : M (option bool) :=
  save_check_point E ;;; ret (Some true).

(** [notice.message] is evaluated for the [print], before the save. *)
Definition on_warning (n : notice) : M (option bool) :=
  getattr (notice_message n) ;;; save_check_point E ;;; ret None.

End Handlers.

(** ** Start-up and the reconnect loop *)

(** What the machine offers to [__init__] and to [twitter]: the state of
    [config.yml] ([None]: not a file; [Raise]: it cannot be loaded),
    whether the API objects can be built, and what the [k]-th stream
    session does with the listener ([Val]: [filter] returns; [Exc]: it
    raises). *)
Record host := {
  config_yml : option (result config);
  auth_ok : bool;
  stream_filter : nat -> settings -> M unit
}.

Section Twitter.

Variable E : collaborators.
Variable H : host.

(** [sys.exit(1)] *)
Definition sys_exit {A} (code : Z) : M A := raise (SystemExit code).

(** [QueueListener.__init__]: the settings of the new listener. *)
Definition init : M settings :=
  match config_yml H with
  | None => sys_exit 1
  | Some (Raise _) => sys_exit 1
  | Some (OK c) =>
    if auth_ok H then
      update (set_tweet_ids (fun _ => ∅)) ;;;
      update (set_queue (fun _ => [])) ;;;
      update (set_dump_count 0) ;;;
      load_check_point E ;;;
      ret {| conf := c; BATCH_SIZE := 100 |}
    else sys_exit 1
  end.

Inductive process :=
| Exited (code : Z) (s : state)     (* [twitter] has returned *)
| Looping (delay : Z) (s : state).  (* still in the [while True] *)

(** [twitter]: [fuel] bounds the number of passes through the loop that
    are followed, [k] counts the sessions, [tcpip_delay] is in quarters
    of a second (the source starts at 0.25, adds 0.25, stops at 16). *)
Fixpoint twitter (fuel k : nat) (tcpip_delay : Z) (s : state) : process :=
  match fuel with
  | O => Looping tcpip_delay s
  | S fuel' =>
    match (listener <- init ;; stream_filter H k listener) s with
    | Val _ s' => twitter fuel' (S k) tcpip_delay s'
    | Exc KeyboardInterrupt s' =>
        Exited 0 (state_of (save_check_point E s'))
    | Exc _ s' => twitter fuel' (S k) (Z.min (tcpip_delay + 1) 64) s'
    | Hang s' => Looping tcpip_delay s'
    end
  end.

End Twitter.

(** * The vocabulary of the properties *)

(** ** Runs

    The stream hands the statuses to [on_status] one at a time, each call
    running to completion before the next; a status comes with the answers
    the lookup service gives while it is processed.  The run stops when
    [on_status] returns [False], raises, or waits for the service. *)
Fixpoint run (E : collaborators) (cfg : settings)
    (inputs : list (status * list (option (list status)))) : M unit :=
  match inputs with
  | [] => ret tt
  | (raw, answers) :: inputs' =>
    b <- on_status E cfg answers raw ;;
    if b : bool then run E cfg inputs' else ret tt
  end.

(** ** Postconditions

    [wp m Q X s]: started in [s], [m] ends normally in a state and with a
    value satisfying [Q], or leaves by an exception, or waiting for the
    lookup service ([None]), in a state satisfying [X]. *)
Definition wp {A} (m : M A) (Q : A -> state -> Prop)
    (X : option exn -> state -> Prop) (s : state) : Prop :=
  match m s with
  | Val a s' => Q a s'
  | Exc e s' => X (Some e) s'
  | Hang s' => X None s'
  end.

(** The exception with which an outcome leaves, if any. *)
Definition raised {A} (o : outcome A) : option exn :=
  match o with
  | Exc e _ => Some e
  | _ => None
  end.

(** ** Two-party alternation *)

Definition authors (d : dialog) : list Z := map (fun e : entry => t_user e.1) d.

(** Adjacent authors differ, and an author is the author two places back. *)
Definition alternating (us : list Z) : Prop :=
  (forall i a b, us !! i = Some a -> us !! S i = Some b -> a <> b)
  /\ (forall i a c, us !! i = Some a -> us !! S (S i) = Some c -> a = c).

(** The invariant of the queue and of the history of dumps. *)
Definition chains_alternate (s : state) : Prop :=
  Forall (fun d => alternating (authors d)) (queue s)
  /\ Forall (fun d => alternating (authors d)) (dumped s).

(** ** Deduplication *)

(** [e] is a reply whose id is not in [T]. *)
Definition fresh_reply (T : gset Z) (e : entry) : Prop :=
  is_Some (t_reply_to e.1) /\ t_id e.1 ∉ T.

(** ** The updates of the state

    The vocabulary in which the steps of [lookup] are described. *)

(** The chain [d] may be extended by a tweet of [talker]. *)
Definition may_follow (d : dialog) (talker : Z) : Prop :=
  d <> []
  /\ (forall e, last d = Some e -> talker <> t_user e.1)
  /\ (forall i e, (S (S i) = length d)%nat -> d !! i = Some e -> talker = t_user e.1).

(** What lines 187 to 202 do to the state: nothing, or the parent [e] is
    appended to chain [idx] and its id recorded; the chain stays open
    ([interrupte] false) only when the parent is itself a reply whose id
    was not in [tweet_ids]. *)
Definition extended_by (idx : nat) (d : dialog) (e : entry) (s : state) : state :=
  set_tweet_ids (fun ids => {[t_id e.1]} ∪ ids)
    (set_queue (fun q => <[idx := d ++ [e]]> q) s).

(** The state after [dump_data]. *)
Definition dump_state (cfg : settings) (idx : nat) (d : dialog) (s : state)
    : state :=
  state_of (dump_data cfg idx d s).

(** [I] is kept by the four updates of the state that [on_status] and
    [lookup] make: a chain is extended by a parent that may follow it, a
    chain is dumped, the dumped chains are deleted, a chain is enqueued. *)
Definition kept_by_updates (cfg : settings) (I : state -> Prop) : Prop :=
  (forall s idx d e, I s -> queue s !! idx = Some d ->
     may_follow d (t_user e.1) -> I (extended_by idx d e s))
  /\ (forall s idx d, I s -> queue s !! idx = Some d -> I (dump_state cfg idx d s))
  /\ (forall s idxs, I s -> I (set_queue (fun q => dellist q idxs) s))
  /\ (forall s e, I s -> I (state_of (enqueue e s))).

(** [s'] differs from [s] at most in chain [k] and in more recorded ids. *)
Definition touches (k : nat) (s s' : state) : Prop :=
  length (queue s') = length (queue s)
  /\ (forall i, i <> k -> queue s' !! i = queue s !! i)
  /\ tweet_ids s ⊆ tweet_ids s'.

(** The invariant of the [for] loop of [lookup] before index [k]: the
    chains from [k] on are those of the start [q0], and a chain before [k]
    that is not marked for the dump is a chain of [q0] with one new entry,
    a reply whose id was not in [T0]. *)
Definition loop_inv (q0 : list dialog) (T0 : gset Z) (k : nat)
    (dump_idxs : list nat) (s : state) : Prop :=
  length (queue s) = length q0
  /\ (forall i, (k <= i)%nat -> queue s !! i = q0 !! i)
  /\ (forall i d', (i < k)%nat -> i ∉ dump_idxs -> queue s !! i = Some d' ->
        exists d e, q0 !! i = Some d /\ d' = d ++ [e] /\ fresh_reply T0 e)
  /\ T0 ⊆ tweet_ids s.

(** ** The text of the checkpoint *)

(** Characters that [strip] and [split] keep. *)
Definition solid (s : str) : Prop := Forall (fun c => is_space c = false) s.

(** The second line: tokens joined by one blank. *)
Definition tokens_ok (ts : list str) : Prop :=
  Forall (fun t => solid t /\ t <> []) ts.


(** ** What a match can be

    [Matches total r st st']: a match of [r] started in [st] can end in
    [st'].  The relation forgets the order in which the engine tries the
    alternatives; every element of [matches total r st] satisfies it. *)
Inductive Matches (total : nat) : regex -> mstate -> mstate -> Prop :=
| M_eps st : Matches total Eps st st
| M_bol st : length st.1 = total -> Matches total Bol st st
| M_any c rest caps :
    c <> Ch.nl -> Matches total Any (c :: rest, caps) (rest, caps)
| M_set neg items c rest caps :
    in_set neg items c = true ->
    Matches total (Set_ neg items) (c :: rest, caps) (rest, caps)
| M_seq a b st st1 st2 :
    Matches total a st st1 -> Matches total b st1 st2 ->
    Matches total (Seq a b) st st2
| M_alt_l a b st st' : Matches total a st st' -> Matches total (Alt a b) st st'
| M_alt_r a b st st' : Matches total b st st' -> Matches total (Alt a b) st st'
| M_rep_stop greedy hi a st : Matches total (Rep greedy 0 hi a) st st
| M_rep_more greedy lo hi a st st1 st2 :
    hi <> Some 0%nat ->
    Matches total a st st1 ->
    (length st1.1 < length st.1)%nat ->
    Matches total (Rep greedy (pred lo) (pred <$> hi) a) st1 st2 ->
    Matches total (Rep greedy lo hi a) st st2
| M_group k a st st' :
    Matches total a st st' ->
    Matches total (Group k a) st
      (st'.1, <[k := take (length st.1 - length st'.1) st.1]> st'.2)
| M_backref k u rest caps :
    caps !! k = Some u ->
    Matches total (Backref k) (u ++ rest, caps) (rest, caps).

(** Every character that [r] reads by itself satisfies [Q]. *)
Fixpoint leaves_in (Q : Z -> Prop) (r : regex) : Prop :=
  match r with
  | Eps | Bol | Backref _ => True
  | Any => forall c, c <> Ch.nl -> Q c
  | Set_ neg items => forall c, in_set neg items c = true -> Q c
  | Seq a b | Alt a b => leaves_in Q a /\ leaves_in Q b
  | Rep _ _ _ a | Group _ a => leaves_in Q a
  end.

(** Every captured text is made of characters that satisfy [Q]. *)
Definition caps_in (Q : Z -> Prop) (caps : gmap nat str) : Prop :=
  forall k u, caps !! k = Some u -> Forall Q u.

(** [r] cannot match the empty string. *)
Fixpoint nonnull (r : regex) : bool :=
  match r with
  | Eps | Bol | Backref _ => false
  | Any | Set_ _ _ => true
  | Seq a b => nonnull a || nonnull b
  | Alt a b => nonnull a && nonnull b
  | Rep _ lo _ a => negb (lo =? 0)%nat && nonnull a
  | Group _ a => nonnull a
  end.

(** The last character that a non-empty match of [r] reads satisfies
    [Q]. *)
Fixpoint last_in (Q : Z -> Prop) (r : regex) : Prop :=
  match r with
  | Eps | Bol => True
  | Backref _ => False
  | Any => forall c, c <> Ch.nl -> Q c
  | Set_ neg items => forall c, in_set neg items c = true -> Q c
  | Seq a b => last_in Q b /\ nonnull b = true
  | Alt a b => last_in Q a /\ last_in Q b
  | Rep _ _ _ a | Group _ a => last_in Q a
  end.

(** [r] has no group [k]. *)
Fixpoint no_group (k : nat) (r : regex) : Prop :=
  match r with
  | Eps | Bol | Any | Set_ _ _ | Backref _ => True
  | Seq a b | Alt a b => no_group k a /\ no_group k b
  | Rep _ _ _ a => no_group k a
  | Group j a => j <> k /\ no_group k a
  end.

(** [r] has no [^]. *)
Fixpoint no_bol (r : regex) : Prop :=
  match r with
  | Bol => False
  | Eps | Any | Set_ _ _ | Backref _ => True
  | Seq a b | Alt a b => no_bol a /\ no_bol b
  | Rep _ _ _ a | Group _ a => no_bol a
  end.

(** ** How a normalized string ends *)

(** [s] ends with one of the strings of [M]. *)
Definition ends (M : list str) (s : str) : Prop :=
  exists pre m, m ∈ M /\ s = pre ++ m.

(** The suffixes of [s], [s] itself first and the empty string last. *)
Fixpoint tails (s : str) : list str :=
  s :: match s with
       | [] => []
       | _ :: s' => tails s'
       end.

(** The sentence-boundary marks: the full stop, the fullwidth exclamation
    and question marks, and the ASCII pair that line 307 makes of a mixed
    run. *)
Definition marks : list str :=
  [[Ch.kuten]; [Ch.fbang]; [Ch.fquest]; [Ch.bang; Ch.quest]].

(** A mark followed by the newline that lines 313 to 318 put after it. *)
Definition marked_lines : list str := map (fun m => m ++ [Ch.nl]) marks.

(** The last character of a mark. *)
Definition boundary_chars : list Z :=
  [Ch.kuten; Ch.fbang; Ch.fquest; Ch.quest].

(** [n] copies of [u] in a row. *)
Fixpoint copies (n : nat) (u : str) : str :=
  match n with
  | O => []
  | S n' => u ++ copies n' u
  end.

(** ** The tagger's output *)

(** The part-of-speech tokens that [parse] gives. *)
Definition token_names : list str :=
  [py "noun_main"; py "pronoun"; py "noun_sub"; py "verb_main"; py "verb_sub";
   py "adjective_main"; py "adjective_sub"; py "adverb"; py "particle";
   py "auxiliary_verb"; py "conjunction"; py "prefix"; py "filler";
   py "impression_verb"; py "pre_noun"; py "three_dots"; py "phrase_point";
   py "reading_point"; py "other"].

(** The features for which [parse] reads a second field: noun, verb and
    adjective.  A feature that is one of these words and nothing more has
    no second field. *)
Definition bare_features : list str := [Pos.meishi; Pos.doushi; Pos.keiyoushi].

(** ** The characters of a text *)

(** The ASCII letters and digits, the class of line 262. *)
Definition ascii_alnum (c : Z) : bool :=
  in_set false [R Ch.la Ch.lz; R Ch.uA Ch.uZ; R Ch.d0 Ch.d9] c.

(** The characters of a normalized text: the kana and ideographs that line
    282 keeps, the iteration and prolonged sound marks, the fullwidth
    tilde, the ideographic comma and full stop, the exclamation and
    question marks in both widths, the dot, the blank and the newline. *)
Definition normalized_char (c : Z) : bool :=
  in_set false
    [R Ch.hira_a Ch.hira_n; R Ch.kata_a Ch.kata_ke; R Ch.kanji_lo Ch.kanji_hi;
     C Ch.noma; C Ch.choon; C Ch.ftilde; C Ch.touten; C Ch.kuten;
     C Ch.fbang; C Ch.fquest; C Ch.bang; C Ch.quest; C Ch.dot;
     C Ch.sp; C Ch.nl] c.

(** ** What the filters leave, and where a parent comes from *)

(** An entry as the filters leave it: slot 2 holds the words, one part
    for each word, every part switched on in the [dump] filter, and the
    number of words within the [length] filter. *)
Definition entry_ok (cfg : settings) (e : entry) : Prop :=
  exists ws, t_body e.1 = Words ws
    /\ length ws = length e.2
    /\ length_check cfg ws = true
    /\ Forall (fun p => dump cfg !! p = Some true) e.2
    /\ Forall (fun p => p ∈ token_names) e.2.

(** Slots 0, 1 and 3 of [tw] are those of the status [r]. *)
Definition same_meta (tw : tweet) (r : status) : Prop :=
  t_reply_to tw = in_reply_to_status_id r
  /\ t_user tw = user_id r
  /\ t_id tw = id r.

Definition built_from (cfg : settings) (r : status) (e : entry) : Prop :=
  same_meta e.1 r /\ entry_ok cfg e.

(** The statuses of the dictionary all satisfy [G] and are filed under
    their [id_str]. *)
Definition dic_ok (G : status -> Prop) (dic : gmap str tweet) : Prop :=
  forall key tw, dic !! key = Some tw ->
    exists r, G r /\ id_str r = key /\ same_meta tw r.

(** [e] is the parent that [lookup] appends to the chain [d]: it may
    follow [d], and it was built from a status of the answer that is
    filed under the id to which the last tweet of [d] replies. *)
Definition parent_of (cfg : settings) (G : status -> Prop)
    (d : dialog) (e : entry) : Prop :=
  may_follow d (t_user e.1)
  /\ exists l r, last d = Some l /\ G r
       /\ id_str r = str_of_id (t_reply_to l.1) /\ built_from cfg r e.

(** [d'] is a chain of [q], as it is or with its parent appended. *)
Definition grown_from (cfg : settings) (G : status -> Prop)
    (q : list dialog) (d' : dialog) : Prop :=
  d' ∈ q \/ exists d e, d ∈ q /\ d' = d ++ [e] /\ parent_of cfg G d e.

(** Every status of an answer of the lookup service satisfies [G]. *)
Definition answer_in (G : status -> Prop) (a : option (list status)) : Prop :=
  match a with
  | Some replys => Forall G replys
  | None => True
  end.

(** ** What a dump appends

    For a dialogue [c] in chronological order: the number of pairs and the
    text that the three files get.  A turn is written as the words of its
    slot 2 (of a [str] in slot 2, the characters) with one blank between
    two and a newline at the end, its parts in the same way; the prompts
    are all turns but the last, the responses all turns but the first. *)
Definition pairs (c : dialog) : nat := (length c - 1)%nat.

Definition spoken (e : entry) : list str :=
  match t_body e.1 with
  | Words ws => ws
  | Text t => map (fun c => [c]) t
  end.

Definition prompt_lines (c : dialog) : str :=
  concat (map (fun e : entry => join [Ch.sp] (spoken e) ++ [Ch.nl])
              (take (length c - 1) c)).

Definition response_lines (c : dialog) : str :=
  concat (map (fun e : entry => join [Ch.sp] (spoken e) ++ [Ch.nl])
              (drop 1 c)).

Definition part_lines (c : dialog) : str :=
  concat (map (fun e : entry => join [Ch.sp] e.2 ++ [Ch.nl])
              (take (length c - 1) c)).

(** From [s] to [s'] the dialogues [new] were dumped, in this order, and
    nothing else was written. *)
Definition dumps_of (cfg : settings) (s s' : state) (new : list dialog) : Prop :=
  dumped s' = dumped s ++ new
  /\ dump_count s' = (dump_count s + Z.of_nat (sum_list (map pairs new)))%Z
  /\ tweet_txt s' = tweet_txt s ++ concat (map prompt_lines new)
  /\ reply_txt s' = reply_txt s ++ concat (map response_lines new)
  /\ tweet_part_txt s'
     = (if output_part cfg
        then tweet_part_txt s ++ concat (map part_lines new)
        else tweet_part_txt s)
  /\ check_point_txt s' = check_point_txt s.

(** The ids that [lookup] collects are those to which the last tweets of
    the chains reply. *)
Definition ids_of (q : list dialog) (ids : list (option Z)) : Prop :=
  forall i d, q !! i = Some d ->
    exists l, last d = Some l /\ ids !! i = Some (t_reply_to l.1).

(** The dialogues dumped by a batch: each has two turns at least and is
    the reversal of a chain of the queue, as it was or with its parent. *)
Definition dumped_grown (cfg : settings) (G : status -> Prop)
    (q : list dialog) (new : list dialog) : Prop :=
  Forall (fun c => (2 <= length c)%nat
                   /\ exists d', c = reverse d' /\ grown_from cfg G q d') new.

(** The invariant of the [for] loop of [lookup] before index [k], for a
    batch started in [s0]: the chains from [k] on are untouched, a chain
    that is not marked for the dump is a chain of the start, as it was or
    with its parent, and what was dumped are reversals of such chains. *)
Definition batch_inv (cfg : settings) (G : status -> Prop) (s0 : state)
    (k : nat) (dump_idxs : list nat) (s : state) : Prop :=
  length (queue s) = length (queue s0)
  /\ (forall i, (k <= i)%nat -> queue s !! i = queue s0 !! i)
  /\ (forall i d', i ∉ dump_idxs -> queue s !! i = Some d' ->
        grown_from cfg G (queue s0) d')
  /\ Forall (fun i => (i < k)%nat) dump_idxs
  /\ tweet_ids s0 ⊆ tweet_ids s
  /\ exists new, dumps_of cfg s0 s new /\ dumped_grown cfg G (queue s0) new.

(** What holds after [lookup], however it ends. *)
Definition lookup_post (cfg : settings) (G : status -> Prop) (s0 : state)
    (o : outcome bool) : Prop :=
  (exists new, dumps_of cfg s0 (state_of o) new
               /\ dumped_grown cfg G (queue s0) new)
  /\ tweet_ids s0 ⊆ tweet_ids (state_of o)
  /\ match o with
     | Val b s' => b = true /\ Forall (grown_from cfg G (queue s0)) (queue s')
     | Exc _ _ => True
     | Hang _ => False
     end.

(** ** Runs, dialogue by dialogue *)

(** Every status of every answer of a run satisfies [G]. *)
Definition answers_in (G : status -> Prop)
    (inputs : list (status * list (option (list status)))) : Prop :=
  Forall (fun p => Forall (answer_in G) p.2) inputs.

(** What holds after a run, for a property [P] of chains that holds for a
    chain of one accepted reply and is kept when a parent is appended:
    the dialogues dumped are reversals of chains with [P], and when the
    run ends normally the chains of the queue have [P]. *)
Definition run_post (cfg : settings) (P : dialog -> Prop) (s0 : state)
    {A} (o : outcome A) : Prop :=
  (exists new, dumps_of cfg s0 (state_of o) new
               /\ Forall (fun c => (2 <= length c)%nat /\ P (reverse c)) new)
  /\ tweet_ids s0 ⊆ tweet_ids (state_of o)
  /\ match o with
     | Val _ s' => Forall P (queue s')
     | _ => True
     end.

(** A status whose [id_str] is the decimal string of its [id], as the
    lookup service files it. *)
Definition id_str_ok (r : status) : Prop := id_str r = str_of_int (id r).

(** A dialogue in chronological order in which every turn replies to the
    turn before. *)
Definition reply_chain (c : dialog) : Prop :=
  forall i a b, c !! i = Some a -> c !! S i = Some b ->
    t_reply_to b.1 = Some (t_id a.1).

(** The ids of all tweets of the queue and of the dumped dialogues are
    recorded in [tweet_ids]. *)
Definition ids_recorded (s : state) : Prop :=
  Forall (Forall (fun e : entry => t_id e.1 ∈ tweet_ids s)) (queue s)
  /\ Forall (Forall (fun e : entry => t_id e.1 ∈ tweet_ids s)) (dumped s).

(** ** Events and restarts *)

(** The six handlers that save a checkpoint, called with a message [msg]
    or a notice [n]. *)
Definition saving_handlers (E : collaborators) (msg : str) (n : notice)
    : list (M (option bool)) :=
  [on_error E msg; on_limit E msg; on_exception E msg; on_disconnect E n;
   on_timeout E; on_warning E n].

(** The set is iterated faithfully: its elements and nothing else. *)
Definition faithful_iteration (E : collaborators) : Prop :=
  forall (X : gset Z) (x : Z), x ∈ iter_ids E X <-> x ∈ X.

(** [s'] differs from [s] in the checkpoint file at most. *)
Definition same_listener (s s' : state) : Prop :=
  tweet_ids s' = tweet_ids s /\ queue s' = queue s
  /\ dump_count s' = dump_count s /\ tweet_txt s' = tweet_txt s
  /\ reply_txt s' = reply_txt s /\ tweet_part_txt s' = tweet_part_txt s
  /\ dumped s' = dumped s.

(** Every listener resumes from [s] on the disk of [s]: whatever it
    holds in memory itself (a new listener holds nothing), a listener
    that finds the checkpoint file of [s] ends its load with the seen set
    and the counter of [s]. *)
Definition resumable (E : collaborators) (s : state) : Prop :=
  forall s0 : state, check_point_txt s0 = check_point_txt s ->
    exists s1, load_check_point E s0 = Val tt s1
      /\ tweet_ids s1 = tweet_ids s /\ dump_count s1 = dump_count s.

(** ** The lines of a normalized text *)

(** Every newline of [s] stands after a character of [B]; for a newline
    at the head of [s], what stands before [s] decides: [p]. *)
Fixpoint lines (B : list Z) (p : Prop) (s : str) : Prop :=
  match s with
  | [] => True
  | c :: s' => (c = Ch.nl -> p) /\ lines B (c ∈ B) s'
  end.

(** A newline may follow [s]: [s] ends with a character of [B], or is
    empty after a text that a newline may follow. *)
Definition follows (B : list Z) (p : Prop) (s : str) : Prop :=
  match last s with
  | Some c => c ∈ B
  | None => p
  end.

(** What a substitution needs to keep the lines of a text: the text put
    for a match has its newlines after characters of [B'], and a newline
    may follow it whenever one may follow the match. *)
Definition keeps_lines (r : regex) (tpl : list titem) (B B' : list Z) : Prop :=
  forall total m rest caps (p p' : Prop),
    match_at total r (m ++ rest) = Some (rest, caps) ->
    lines B p (m ++ rest) -> (p -> p') ->
    lines B' p' (expand tpl caps)
    /\ (follows B p m -> follows B' p' (expand tpl caps)).

(** ** A batch that goes through *)

(** The keys under which [lookup] looks the parents up: for each chain,
    the string of the id to which its last tweet replies. *)
Definition requested (q : list dialog) : list str :=
  map (fun d : dialog =>
         match last d with
         | Some l => str_of_id (t_reply_to l.1)
         | None => []
         end) q.

(** The tagger never yields a bare noun, verb or adjective feature. *)
Definition no_bare (E : collaborators) : Prop :=
  forall line,
    Forall (fun n => feature n ∉ bare_features) (parseToNode E line).

(** Slot 2 of every tweet filed under one of [keys] is still the text. *)
Definition texts_at (keys : list str) (dic : gmap str tweet) : Prop :=
  forall key tw, key ∈ keys -> dic !! key = Some tw ->
    exists t, t_body tw = Text t.

(** ** Sample data

    A listener whose stream carries the one-word tweet "hai" (yes, two
    hiragana).  NFKC leaves that text as it is; [normalize] turns it into
    the word, a blank, the full stop and a newline, for which the tagger
    yields an interjection and a full stop between its two boundary
    nodes. *)
Module Sample.

Definition hai : str := [0x306F; 0x3044]%Z.

Definition kigou : str := [0x8A18; 0x53F7]%Z.     (* symbol *)
Definition kuten : str := [0x53E5; 0x70B9]%Z.     (* full stop *)

Definition tagger (line : str) : list node :=
  if str_eqb line (hai ++ [Ch.sp; Ch.kuten; Ch.nl])
  then [ {| surface := []; feature := py "BOS/EOS,*,*,*,*,*,*,*,*" |};
         {| surface := hai;
            feature := Pos.kandoushi ++ py ",*,*,*,*,*," ++ hai |};
         {| surface := [Ch.kuten];
            feature := kigou ++ py "," ++ kuten ++ py ",*,*,*,*," |};
         {| surface := []; feature := py "BOS/EOS,*,*,*,*,*,*,*,*" |} ]
  else [ {| surface := []; feature := py "BOS/EOS,*,*,*,*,*,*,*,*" |};
         {| surface := []; feature := py "BOS/EOS,*,*,*,*,*,*,*,*" |} ].

(** The letters, digits and underscore of ASCII, the hiragana and
    katakana letters, the prolonged sound mark and the ideographs: what
    [\w] holds of the characters that occur here. *)
Definition word_char (c : Z) : bool :=
  ((48 <=? c) && (c <=? 57) || (65 <=? c) && (c <=? 90) || (c =? 95)
   || (97 <=? c) && (c <=? 122) || (0x3041 <=? c) && (c <=? 0x3096)
   || (0x30A1 <=? c) && (c <=? 0x30FA) || (c =? 0x30FC)
   || (0x4E00 <=? c) && (c <=? 0x9FA0))%Z.

Definition toy : collaborators :=
  {| nfkc := fun t => t;
     is_word := word_char;
     parseToNode := tagger;
     open_read := true;
     open_write := true;
     iter_ids := elements |}.

(** A configuration that dumps interjections and sentence ends and keeps
    utterances of 1 to 30 words; [BATCH_SIZE] is the 100 of [__init__]. *)
Definition conf0 : config :=
  {| need := ∅;
     needless := ∅;
     dump := list_to_map [(py "impression_verb", true);
                          (py "phrase_point", true)];
     length_min := 1;
     length_max := 30;
     output_part := true |}.

Definition cfg : settings := {| conf := conf0; BATCH_SIZE := 100 |}.

(** The same with a batch of two, for short runs. *)
Definition cfg2 : settings := {| conf := conf0; BATCH_SIZE := 2 |}.

Definition new_state : state :=
  {| tweet_ids := ∅; queue := []; dump_count := 0; tweet_txt := [];
     reply_txt := []; tweet_part_txt := []; check_point_txt := None;
     dumped := [] |}.

(** The tweet [i] of user [u] in reply to [p], saying "hai". *)
Definition says (i u : Z) (p : option Z) : status :=
  {| in_reply_to_status_id := p; user_id := u; text := hai; id := i;
     id_str := str_of_int i |}.

(** The entry that [on_status] and [lookup] build from such a tweet. *)
Definition said (i u : Z) (p : option Z) : entry :=
  ({| t_reply_to := p; t_user := u; t_body := Words [hai; [Ch.kuten]];
      t_id := i |},
   [py "impression_verb"; py "phrase_point"]).

(** A full queue of 100 one-tweet chains of user 1: chain [i] holds the
    tweet [1000 + i], a reply to [parent i]. *)
Definition full_queue (parent : nat -> Z) : list dialog :=
  map (fun i => [said (1000 + Z.of_nat i) 1 (Some (parent i))]) (seq 0 100).

Definition full_state (parent : nat -> Z) (seen : list Z) : state :=
  {| tweet_ids := list_to_set (seen ++ map (fun i => 1000 + Z.of_nat i)%Z (seq 0 100));
     queue := full_queue parent; dump_count := 0; tweet_txt := [];
     reply_txt := []; tweet_part_txt := []; check_point_txt := None;
     dumped := [] |}.

(** Chains 0 and 1 both reply to tweet 5; chain [i >= 2] replies to
    [2000 + i]. *)
Definition shared (i : nat) : Z :=
  match i with
  | O => 5
  | S O => 5
  | _ => 2000 + Z.of_nat i
  end%Z.

(** Only chain [k] replies to tweet 5. *)
Definition only (k i : nat) : Z :=
  if (i =? k)%nat then 5%Z else (2000 + Z.of_nat i)%Z.

(** A listener that has already recorded the id 10. *)
Definition seen_10 : state :=
  {| tweet_ids := {[10%Z]}; queue := []; dump_count := 0; tweet_txt := [];
     reply_txt := []; tweet_part_txt := []; check_point_txt := None;
     dumped := [] |}.

(** The answer of the lookup service that holds tweet 5, of user 2, a
    reply to tweet 3. *)
Definition answer_5 : option (list status) := Some [says 5 2 (Some 3%Z)].

(** A short run with a batch of two: tweet 10 replies to tweet 5, tweet 11
    to tweet 6; the lookup that the second status triggers finds tweet 5,
    a reply to tweet 3, and tweet 6, which replies to nothing. *)
Definition short_run : list (status * list (option (list status))) :=
  [(says 10 1 (Some 5%Z), []);
   (says 11 1 (Some 6%Z), [Some [says 5 2 (Some 3%Z); says 6 2 None]])].

(** The same collaborators on a machine where the checkpoint file cannot
    be opened. *)
Definition locked : collaborators :=
  {| nfkc := nfkc toy; is_word := is_word toy; parseToNode := parseToNode toy;
     open_read := false; open_write := false; iter_ids := iter_ids toy |}.

(** A listener with 5 dumped pairs that has recorded the ids 1, 2, 3. *)
Definition count_5 : state :=
  {| tweet_ids := {[1%Z; 2%Z; 3%Z]}; queue := []; dump_count := 5;
     tweet_txt := []; reply_txt := []; tweet_part_txt := [];
     check_point_txt := None; dumped := [] |}.

(** The same collaborators on a machine where the checkpoint file can be
    read but not written. *)
Definition read_only : collaborators :=
  {| nfkc := nfkc toy; is_word := is_word toy; parseToNode := parseToNode toy;
     open_read := true; open_write := false; iter_ids := iter_ids toy |}.

(** A new listener, with nothing in memory, on a disk whose checkpoint
    file holds [content]. *)
Definition forgotten (content : str) : state :=
  {| tweet_ids := ∅; queue := []; dump_count := 0; tweet_txt := [];
     reply_txt := []; tweet_part_txt := []; check_point_txt := Some content;
     dumped := [] |}.

(** A chain of three turns as the queue holds it, the newest first: user
    1 says "hai" and a full stop, user 2 answers "a", and user 1 answers
    "un" and an exclamation mark. *)
Definition three_turns : dialog :=
  [({| t_reply_to := Some 2%Z; t_user := 1;
       t_body := Words [[0x3046; 0x3093]%Z; [Ch.fbang]]; t_id := 3 |},
    [py "impression_verb"; py "phrase_point"]);
   ({| t_reply_to := Some 1%Z; t_user := 2;
       t_body := Words [[0x3042]%Z]; t_id := 2 |},
    [py "filler"]);
   ({| t_reply_to := None; t_user := 1;
       t_body := Words [hai; [Ch.kuten]]; t_id := 1 |},
    [py "impression_verb"; py "phrase_point"])].

(** The listener of [short_run] when its lookup starts: two chains of one
    tweet each, and the answer that the lookup gets. *)
Definition two_chains : state :=
  {| tweet_ids := {[10%Z; 11%Z]};
     queue := [[said 10 1 (Some 5%Z)]; [said 11 1 (Some 6%Z)]];
     dump_count := 0; tweet_txt := []; reply_txt := []; tweet_part_txt := [];
     check_point_txt := None; dumped := [] |}.

Definition answer_5_6 : option (list status) :=
  Some [says 5 2 (Some 3%Z); says 6 2 None].

(** The disk holds an empty checkpoint file, as [open(.., 'w')] leaves it
    when nothing is written after it. *)
Definition empty_check_point : state :=
  {| tweet_ids := ∅; queue := []; dump_count := 0; tweet_txt := [];
     reply_txt := []; tweet_part_txt := []; check_point_txt := Some [];
     dumped := [] |}.

(** A machine with a good configuration on which every stream session,
    once started, is interrupted by the operator at once. *)
Definition interrupted : host :=
  {| config_yml := Some (OK conf0);
     auth_ok := true;
     stream_filter := fun _ _ => raise KeyboardInterrupt |}.

(** A machine with a good configuration whose sessions deliver the two
    statuses of [short_run] before the operator interrupts them. *)
Definition two_statuses : host :=
  {| config_yml := Some (OK conf0);
     auth_ok := true;
     stream_filter := fun _ listener =>
       run toy listener short_run ;;; raise KeyboardInterrupt |}.

(** A machine without [config.yml], whatever its sessions would do. *)
Definition no_config (sessions : nat -> settings -> M unit) : host :=
  {| config_yml := None; auth_ok := true; stream_filter := sessions |}.

(** A machine on which the API objects cannot be built. *)
Definition no_auth (sessions : nat -> settings -> M unit) : host :=
  {| config_yml := Some (OK conf0); auth_ok := false;
     stream_filter := sessions |}.

End Sample.

(** * Properties *)

(** ** Reasoning about statements *)

Lemma wp_ret {A} (a : A) Q X s : Q a s -> wp (ret a) Q X s.
Proof. done. Qed.

Lemma wp_raise {A} e (Q : A -> state -> Prop) X s :
  X (Some e) s -> wp (raise e) Q X s.
Proof. done. Qed.

Lemma wp_bind {A B} (m : M A) (k : A -> M B) Q X s :
  wp m (fun a s' => wp (k a) Q X s') X s -> wp (bind m k) Q X s.
Proof. unfold wp, bind. by destruct (m s). Qed.

Lemma wp_get Q X s : Q s s -> wp get Q X s.
Proof. done. Qed.

Lemma wp_update f Q X s : Q tt (f s) -> wp (update f) Q X s.
Proof. done. Qed.

Lemma wp_lift {A} (r : result A) Q X s :
  (forall a, r = OK a -> Q a s) -> (forall e, r = Raise e -> X (Some e) s) ->
  wp (lift r) Q X s.
Proof. destruct r; simpl; intros HQ HX; [by apply HQ | by apply HX]. Qed.

Lemma wp_mono {A} (m : M A) (Q Q' : A -> state -> Prop) (X X' : option exn -> state -> Prop) s :
  wp m Q X s ->
  (forall a s', Q a s' -> Q' a s') -> (forall e s', X e s' -> X' e s') ->
  wp m Q' X' s.
Proof. unfold wp. destruct (m s); auto. Qed.

Lemma wp_index {A} w (l : list A) i Q X s :
  (forall x, l !! i = Some x -> Q x s) ->
  (l !! i = None -> X (Some (IndexError w)) s) ->
  wp (index w l i) Q X s.
Proof.
  unfold index. intros HQ HX. destruct (l !! i); simpl; [by apply HQ | by apply HX].
Qed.

Lemma wp_val {A} (m : M A) Q X s a s' : wp m Q X s -> m s = Val a s' -> Q a s'.
Proof. unfold wp. intros H Hm. by rewrite Hm in H. Qed.

Lemma wp_state_of {A} (m : M A) (I : state -> Prop) s :
  wp m (fun _ => I) (fun _ => I) s -> I (state_of (m s)).
Proof. unfold wp. by destruct (m s). Qed.

(** ** The dump sink *)

Section DumpProps.

Variable cfg : settings.

(** C5: for a chain of [n >= 2] entries, [dump_data] reverses it to
    chronological order and appends exactly [n - 1] lines to the prompt
    sink and to the response sink: line [i] of the prompts is turn [i],
    line [i] of the responses is turn [i + 1], each the words of slot 2
    (of a [str] in slot 2, its characters) with one blank between two and
    a newline at the end; the part sink gets the [n - 1] lines of the
    parts of the prompts, written in the same way, when the part output is
    configured (and nothing otherwise), so the sinks grow by the same
    number of lines, and [dump_count] grows by [n - 1]. *)
Theorem dump_data_pairs (idx : nat) (d : dialog) (s : state) :
  (2 <= length d)%nat ->
  let spoken (e : entry) : list str :=
    match t_body e.1 with
    | Words ws => ws
    | Text t => map (fun c => [c]) t
    end in
  exists (prompts responses parts : list str) (s' : state),
    dump_data cfg idx d s = Val true s'
    /\ tweet_txt s' = tweet_txt s ++ concat prompts
    /\ reply_txt s' = reply_txt s ++ concat responses
    /\ tweet_part_txt s'
       = (if output_part cfg then tweet_part_txt s ++ concat parts
          else tweet_part_txt s)
    /\ length prompts = (length d - 1)%nat
    /\ length responses = (length d - 1)%nat
    /\ length parts = (length d - 1)%nat
    /\ (forall i, (i < length d - 1)%nat ->
        exists u v : entry,
          reverse d !! i = Some u /\ reverse d !! S i = Some v
          /\ prompts !! i = Some (join [Ch.sp] (spoken u) ++ [Ch.nl])
          /\ responses !! i = Some (join [Ch.sp] (spoken v) ++ [Ch.nl])
          /\ parts !! i = Some (join [Ch.sp] u.2 ++ [Ch.nl]))
    /\ dump_count s' = (dump_count s + (Z.of_nat (length d) - 1))%Z.
Proof.
  intros Hlen spoken.
  set (tweets := map (fun e : entry => (words_of e, e.2)) (reverse d)).
  assert (Hn : length tweets = length d)
    by (unfold tweets; by rewrite length_map, length_reverse).
  exists (map (fun u : list str * list str => line_of u.1)
            (take (length tweets - 1) tweets)),
         (map (fun u : list str * list str => line_of u.1)
            (take (length tweets - 1) (drop 1 tweets))),
         (map (fun u : list str * list str => line_of u.2)
            (take (length tweets - 1) tweets)).
  eexists. split; [reflexivity |]. simpl.
  fold tweets. rewrite !length_map, !length_take, length_drop, Hn.
  repeat split; try lia.
  intros i Hi.
  destruct (lookup_lt_is_Some_2 (reverse d) i) as [u Hu];
    [rewrite length_reverse; lia |].
  destruct (lookup_lt_is_Some_2 (reverse d) (S i)) as [v Hv];
    [rewrite length_reverse; lia |].
  exists u, v. split; [done |]. split; [done |].
  assert (Ht : forall j e, reverse d !! j = Some e ->
                 tweets !! j = Some (words_of e, e.2)).
  { intros j e He. unfold tweets. change (map ?f ?l) with (f <$> l).
    by rewrite list_lookup_fmap, He. }
  change (map ?f ?l) with (f <$> l).
  rewrite !list_lookup_fmap, !lookup_take_lt, lookup_drop by lia.
  change (1 + i)%nat with (S i).
  by rewrite (Ht _ _ Hu), (Ht _ _ Hv).
Qed.

End DumpProps.

(** ** The batch resolution *)

Section LookupProps.

Variable E : collaborators.
Variable cfg : settings.


Lemma reverse_lookup_0 {A} (l : list A) : reverse l !! 0%nat = last l.
Proof.
  destruct l as [|x l] using rev_ind; [done |].
  by rewrite reverse_snoc, last_snoc.
Qed.

Lemma reverse_lookup_1 {A} (l : list A) i :
  (S (S i) = length l)%nat -> reverse l !! 1%nat = l !! i.
Proof.
  intros Hl. rewrite reverse_lookup by lia. f_equal. lia.
Qed.

Lemma talker_check_spec talker idx s :
  match talker_check talker idx s with
  | Val b s' =>
      s' = s /\ exists d, queue s !! idx = Some d
                          /\ (b = true -> may_follow d talker)
  | Exc e s' =>
      s' = s /\ (e = IndexError InQueue /\ queue s !! idx = None
                 \/ e = IndexError InDialog /\ queue s !! idx = Some [])
  | Hang _ => False
  end.
Proof.
  unfold talker_check, bind, get, index_back, index, ret, raise.
  destruct (queue s !! idx) as [d|] eqn:Hd; simpl; [| by auto].
  rewrite reverse_lookup_0.
  destruct (last d) as [e1|] eqn:Hl1; simpl.
  2:{ apply last_None in Hl1. subst. auto. }
  assert (Hne : d <> []) by (intros ->; done).
  case_bool_decide as Hu; simpl.
  { split; [done |]. exists d. split; [done | discriminate]. }
  destruct (length d =? 1)%nat eqn:Hlen; simpl.
  { apply Nat.eqb_eq in Hlen. split; [done |]. exists d. split; [done |].
    intros _. split; [done |]. split.
    - intros e He. congruence.
    - intros i e Hi. lia. }
  apply Nat.eqb_neq in Hlen.
  assert (Hlen2 : (2 <= length d)%nat).
  { destruct d as [|x [|y d']]; simpl in *; [done | lia | lia]. }
  assert (Hi : (S (S (length d - 2)) = length d)%nat) by lia.
  rewrite (reverse_lookup_1 _ _ Hi).
  destruct (d !! (length d - 2)%nat) as [e2|] eqn:H2; simpl.
  2:{ apply lookup_ge_None in H2. lia. }
  split; [done |]. eexists. split; [done |].
  intros Hb. apply bool_decide_eq_true in Hb.
  split; [done |]. split.
  - intros e He. congruence.
  - intros i e Hi' He.
    assert (i = (length d - 2)%nat) by lia. subst i. congruence.
Qed.


Lemma alternating_nil : alternating [].
Proof. split; intros i ? ? Hi; by rewrite lookup_nil in Hi. Qed.

Lemma alternating_singleton u : alternating [u].
Proof.
  split; intros i a b Ha Hb; destruct i; simpl in *; by rewrite ?lookup_nil in *.
Qed.

Lemma alternating_reverse us : alternating us -> alternating (reverse us).
Proof.
  intros [H1 H2]. split.
  - intros i a b Ha Hb.
    apply reverse_lookup_Some in Ha as [Ha Hi], Hb as [Hb Hi'].
    intros ->. eapply (H1 (length us - S (S i))%nat); [exact Hb | | done].
    rewrite <- Ha. f_equal. lia.
  - intros i a c Ha Hc.
    apply reverse_lookup_Some in Ha as [Ha Hi], Hc as [Hc Hi'].
    symmetry. eapply (H2 (length us - S (S (S i)))%nat); [exact Hc |].
    rewrite <- Ha. f_equal. lia.
Qed.

Lemma authors_lookup (d : dialog) i :
  authors d !! i = (fun e : entry => t_user e.1) <$> d !! i.
Proof. unfold authors. apply list_lookup_fmap. Qed.

Lemma alternating_snoc (d : dialog) (e : entry) :
  alternating (authors d) -> may_follow d (t_user e.1) ->
  alternating (authors (d ++ [e])).
Proof.
  intros [H1 H2] (Hne & Hlast & Hprev).
  assert (Hlen : length (authors d) = length d) by apply length_map.
  unfold authors in *. rewrite map_app. simpl.
  split.
  - intros i a b Ha Hb.
    destruct (decide (S i < length d)%nat) as [Hlt|Hge].
    + rewrite lookup_app_l in Ha, Hb by lia. eauto.
    + destruct (decide (S i = length d)) as [Heq|Hne'].
      * rewrite lookup_app_l in Ha by lia.
        rewrite lookup_app_r in Hb by lia.
        replace (S i - length (map (fun e0 : entry => t_user e0.1) d))%nat
          with 0%nat in Hb by lia.
        simpl in Hb. injection Hb as <-.
        change (map ?f ?l) with (f <$> l) in Ha.
        rewrite list_lookup_fmap in Ha.
        destruct (d !! i) as [x|] eqn:Hx; [| done]. injection Ha as <-.
        intros Heq'. eapply Hlast; [| by symmetry].
        rewrite last_lookup. rewrite <- Hx. f_equal. lia.
      * apply lookup_lt_Some in Hb. rewrite length_app in Hb. simpl in Hb. lia.
  - intros i a c Ha Hc.
    destruct (decide (S (S i) < length d)%nat) as [Hlt|Hge].
    + rewrite lookup_app_l in Ha, Hc by lia. eauto.
    + destruct (decide (S (S i) = length d)) as [Heq|Hne'].
      * rewrite lookup_app_l in Ha by lia.
        rewrite lookup_app_r in Hc by lia.
        replace (S (S i) - length (map (fun e0 : entry => t_user e0.1) d))%nat
          with 0%nat in Hc by lia.
        simpl in Hc. injection Hc as <-.
        change (map ?f ?l) with (f <$> l) in Ha.
        rewrite list_lookup_fmap in Ha.
        destruct (d !! i) as [x|] eqn:Hx; [| done]. injection Ha as <-.
        symmetry. by eapply Hprev.
      * apply lookup_lt_Some in Hc. rewrite length_app in Hc. simpl in Hc. lia.
Qed.


Lemma parse_node_raise n e : parse_node n = Raise e -> e = IndexError InFeature.
Proof.
  unfold parse_node.
  repeat (case_match; try discriminate); congruence.
Qed.

Lemma parse_nodes_raise ns e :
  parse_nodes ns = Raise e -> e = IndexError InFeature.
Proof.
  induction ns as [|n ns IH]; simpl; [discriminate |].
  destruct (parse_node n) eqn:Hn.
  - destruct (parse_nodes ns) as [[ws ps]|e'].
    + destruct a as [[? ?]|]; discriminate.
    + intros [= <-]. by apply IH.
  - intros [= <-]. by eapply parse_node_raise.
Qed.


Lemma extend_spec idx key dic s :
  match extend E cfg idx key dic s with
  | Val r s' =>
      (s' = s /\ r.2 = true)
      \/ (exists d e, queue s !! idx = Some d /\ may_follow d (t_user e.1)
            /\ s' = extended_by idx d e s
            /\ (r.2 = false ->
                is_Some (t_reply_to e.1) /\ t_id e.1 ∉ tweet_ids s))
  | Exc e s' =>
      s' = s /\ e <> IndexError InIds
      /\ (e = IndexError InQueue -> queue s !! idx = None)
  | Hang _ => False
  end.
Proof.
  unfold extend.
  destruct (dic !! key) as [tweet|]; [| by left].
  unfold bind at 1. unfold check.
  destruct (t_body tweet) as [t|ws] eqn:Hbody; simpl; [| done].
  unfold bind at 1.
  destruct (check_text E t).
  2:{ simpl. by left. }
  pose proof (talker_check_spec (t_user tweet) idx s) as Htc.
  destruct (talker_check (t_user tweet) idx s) as [b s1|e s1|s1];
    [| | done].
  2:{ destruct Htc as [-> [[-> Hq]|[-> Hq]]]; by repeat split. }
  destruct Htc as [-> (d & Hd & Hfollow)].
  destruct b; [| by left].
  specialize (Hfollow eq_refl).
  unfold bind at 1. simpl.
  unfold bind at 1. unfold parse, lift.
  destruct (parse_nodes _) as [[words parts]|e] eqn:Hp; simpl.
  2:{ apply parse_nodes_raise in Hp as ->. by repeat split. }
  destruct (need_check cfg parts && needless_check cfg parts); [| by left].
  destruct (length_check cfg _); [| by left].
  unfold bind, get, index, update, ret. rewrite Hd. simpl.
  right. eexists d, _. split; [done |].
  refine (conj _ (conj eq_refl _)); [exact Hfollow |]. simpl.
  intros Hi. apply negb_false_iff, andb_true_iff in Hi as [H1 H2].
  apply bool_decide_eq_true in H1, H2. done.
Qed.



Lemma dump_data_val idx d s : dump_data cfg idx d s = Val true (dump_state cfg idx d s).
Proof. done. Qed.

(** One pass through the body of the [for] loop. *)
Lemma lookup_loop_cons idx idxs ids dic dump_idxs s :
  lookup_loop E cfg (idx :: idxs) ids dic dump_idxs s =
  match ids !! idx with
  | None => Exc (IndexError InIds) s
  | Some i =>
    match extend E cfg idx (str_of_id i) dic s with
    | Val r s1 =>
      if r.2 then
        match queue s1 !! idx with
        | None => Exc (IndexError InQueue) s1
        | Some d =>
          if (2 <=? length d)%nat
          then lookup_loop E cfg idxs ids r.1 (dump_idxs ++ [idx])
                 (dump_state cfg idx d s1)
          else lookup_loop E cfg idxs ids r.1 (dump_idxs ++ [idx]) s1
        end
      else lookup_loop E cfg idxs ids r.1 dump_idxs s1
    | Exc e s1 => Exc e s1
    | Hang s1 => Hang s1
    end
  end.
Proof.
  simpl. unfold bind at 1. unfold index.
  destruct (ids !! idx) as [i|]; simpl; [| done].
  unfold bind at 1.
  destruct (extend E cfg idx (str_of_id i) dic s) as [r s1|e s1|s1]; try done.
  destruct r.2; [| done].
  unfold bind at 1. simpl. unfold bind at 1.
  destruct (queue s1 !! idx) as [d|]; simpl; [| done].
  by repeat case_match.
Qed.

Lemma lookup_loop_nil ids dic dump_idxs s :
  lookup_loop E cfg [] ids dic dump_idxs s
  = Val true (set_queue (fun q => dellist q dump_idxs) s).
Proof. done. Qed.

(** An invariant of the state that the three updates of the loop keep is
    kept by the loop, however it ends. *)
Lemma lookup_loop_invariant (I : state -> Prop) :
  (forall s idx d e, I s -> queue s !! idx = Some d ->
     may_follow d (t_user e.1) -> I (extended_by idx d e s)) ->
  (forall s idx d, I s -> queue s !! idx = Some d -> I (dump_state cfg idx d s)) ->
  (forall s idxs, I s -> I (set_queue (fun q => dellist q idxs) s)) ->
  forall idxs ids dic dump_idxs s,
    I s -> I (state_of (lookup_loop E cfg idxs ids dic dump_idxs s)).
Proof.
  intros Hext Hdump Hdel idxs.
  induction idxs as [|idx idxs IH]; intros ids dic dump_idxs s HI.
  { rewrite lookup_loop_nil. simpl. by apply Hdel. }
  rewrite lookup_loop_cons.
  destruct (ids !! idx) as [i|]; [| done].
  pose proof (extend_spec idx (str_of_id i) dic s) as Hs.
  destruct (extend E cfg idx (str_of_id i) dic s) as [r s1|e s1|s1];
    [| by destruct Hs as [-> _] | done].
  assert (HI1 : I s1).
  { destruct Hs as [[-> _]|(d & e & Hd & Hf & -> & _)]; [done |].
    by apply Hext. }
  destruct r.2; [| by apply IH].
  destruct (queue s1 !! idx) as [d|] eqn:Hd; [| done].
  destruct (2 <=? length d)%nat; apply IH; [by apply Hdump | done].
Qed.

(** [lookup] never returns [False]: [dump_data] always returns [True]. *)
Lemma lookup_loop_true idxs ids dic dump_idxs s b s' :
  lookup_loop E cfg idxs ids dic dump_idxs s = Val b s' -> b = true.
Proof.
  revert ids dic dump_idxs s.
  induction idxs as [|idx idxs IH]; intros ids dic dump_idxs s.
  { rewrite lookup_loop_nil. by intros [= <- _]. }
  rewrite lookup_loop_cons.
  repeat case_match; try discriminate; eauto.
Qed.


Lemma queue_extended_by idx d e s :
  queue (extended_by idx d e s) = <[idx := d ++ [e]]> (queue s).
Proof. done. Qed.

Lemma queue_dump_state idx d s :
  queue (dump_state cfg idx d s) = <[idx := reverse d]> (queue s).
Proof. done. Qed.

Lemma tweet_ids_dump_state idx d s : tweet_ids (dump_state cfg idx d s) = tweet_ids s.
Proof. done. Qed.

Lemma dumped_dump_state idx d s :
  dumped (dump_state cfg idx d s) = dumped s ++ [reverse d].
Proof. done. Qed.

Lemma elem_of_dellist {A} (l : list A) (idxs : list nat) x :
  x ∈ dellist l idxs <-> exists i, (i ∉ idxs) /\ l !! i = Some x.
Proof.
  unfold dellist. change (map ?f ?l) with (f <$> l).
  rewrite list_elem_of_fmap. split.
  - intros ([i y] & -> & Hin). apply list_elem_of_filter in Hin as [Hni Hin].
    apply elem_of_lookup_imap in Hin as (j & z & [= -> ->] & Hz). eauto.
  - intros (i & Hni & Hx). exists (i, x). split; [done |].
    apply list_elem_of_filter. split; [done |].
    apply elem_of_lookup_imap. eauto.
Qed.

Lemma length_dellist {A} (l : list A) (idxs : list nat) :
  (length (dellist l idxs) <= length l)%nat.
Proof.
  unfold dellist. rewrite length_map.
  etrans; [apply length_filter |]. by rewrite length_imap.
Qed.

Lemma collect_ids_spec (q : list dialog) s :
  match collect_ids q s with
  | Val ids s' => s' = s /\ length ids = length q
  | Exc e s' => s' = s /\ e = IndexError InDialog
  | Hang _ => False
  end.
Proof.
  induction q as [|d q IH]; simpl; [done |].
  unfold bind at 1. unfold index_back, index.
  destruct (reverse d !! 0%nat); simpl; [| done].
  unfold bind at 1.
  destruct (collect_ids q s) as [ids s'|e s'|s']; [| done | done].
  destruct IH as [-> Hl]. simpl. by rewrite Hl.
Qed.

(** The indexed loop raises no [IndexError] on [ids] or on the queue when
    every index it visits is below both lengths. *)
Lemma lookup_loop_in_bounds idxs ids dic dump_idxs s :
  Forall (fun i => (i < length ids)%nat /\ (i < length (queue s))%nat) idxs ->
  raised (lookup_loop E cfg idxs ids dic dump_idxs s) <> Some (IndexError InIds)
  /\ raised (lookup_loop E cfg idxs ids dic dump_idxs s)
     <> Some (IndexError InQueue).
Proof.
  revert dic dump_idxs s.
  induction idxs as [|idx idxs IH]; intros dic dump_idxs s Hb.
  { by rewrite lookup_loop_nil. }
  apply Forall_cons in Hb as [[Hi Hq] Hb].
  rewrite lookup_loop_cons.
  destruct (ids !! idx) as [i|] eqn:Hidx.
  2:{ apply lookup_ge_None in Hidx. lia. }
  pose proof (extend_spec idx (str_of_id i) dic s) as Hs.
  destruct (extend E cfg idx (str_of_id i) dic s) as [r s1|e s1|s1];
    [| | done].
  2:{ destruct Hs as (-> & Hn & Hq'). simpl. split; [congruence |].
      intros [= ->]. specialize (Hq' eq_refl).
      apply lookup_ge_None in Hq'. lia. }
  assert (Hlen : length (queue s1) = length (queue s)).
  { destruct Hs as [[-> _]|(d & e & _ & _ & -> & _)]; [done |].
    by rewrite queue_extended_by, length_insert. }
  assert (Hb1 : forall s2, length (queue s2) = length (queue s1) ->
            Forall (fun i => (i < length ids)%nat /\ (i < length (queue s2))%nat) idxs).
  { intros s2 H2. rewrite H2, Hlen. done. }
  destruct r.2; [| by apply IH, Hb1].
  destruct (queue s1 !! idx) as [d|] eqn:Hd.
  2:{ apply lookup_ge_None in Hd. lia. }
  destruct (2 <=? length d)%nat; apply IH, Hb1; [| done].
  by rewrite queue_dump_state, length_insert.
Qed.

(** C10: when the queue holds exactly [BATCH_SIZE] chains, [lookup] reads
    neither the queue nor the list of collected ids out of range, whatever
    the lookup service answers: the list has one id per chain and every
    index of the loop is below [BATCH_SIZE]. *)
Theorem lookup_in_bounds (answer : option (list status)) (s : state) :
  length (queue s) = BATCH_SIZE cfg ->
  raised (lookup E cfg answer s) <> Some (IndexError InIds)
  /\ raised (lookup E cfg answer s) <> Some (IndexError InQueue).
Proof.
  intros HB. unfold lookup, bind, get.
  pose proof (collect_ids_spec (queue s) s) as Hc.
  destruct (collect_ids (queue s) s) as [ids s'|e s'|s']; [| | done].
  2:{ destruct Hc as [_ ->]. done. }
  destruct Hc as [-> Hl].
  destruct answer as [replys|]; simpl; [| done].
  apply lookup_loop_in_bounds.
  apply Forall_forall. intros i Hi. apply elem_of_seq in Hi. lia.
Qed.


(** ** Invariants of a run *)


Lemma lookup_invariant (I : state -> Prop) answer s :
  kept_by_updates cfg I -> I s -> I (state_of (lookup E cfg answer s)).
Proof.
  intros (Hext & Hdump & Hdel & _) HI. unfold lookup, bind, get.
  pose proof (collect_ids_spec (queue s) s) as Hc.
  destruct (collect_ids (queue s) s) as [ids s'|e s'|s']; [| | done].
  2:{ by destruct Hc as [-> _]. }
  destruct Hc as [-> _].
  destruct answer as [replys|]; simpl; [| done].
  by apply lookup_loop_invariant.
Qed.

Lemma lookup_true answer s b s' : lookup E cfg answer s = Val b s' -> b = true.
Proof.
  unfold lookup, bind, get.
  destruct (collect_ids (queue s) s) as [ids s1|e s1|s1]; [| done | done].
  destruct answer as [replys|]; simpl; [| done].
  apply lookup_loop_true.
Qed.

Lemma resolve_unfold answers s :
  resolve E cfg answers s =
  if (length (queue s) =? BATCH_SIZE cfg)%nat then
    match answers with
    | [] => Hang s
    | answer :: answers' =>
      (b <- lookup E cfg answer ;;
       if b : bool then resolve E cfg answers' else ret false) s
    end
  else Val true s.
Proof. by destruct answers. Qed.

Lemma resolve_invariant (I : state -> Prop) answers s :
  kept_by_updates cfg I -> I s -> I (state_of (resolve E cfg answers s)).
Proof.
  intros HI. revert s.
  induction answers as [|answer answers IH]; intros s Hs;
    rewrite resolve_unfold; destruct (_ =? _)%nat; try done.
  unfold bind.
  pose proof (lookup_invariant I answer s HI Hs) as H1.
  destruct (lookup E cfg answer s) as [b s1|e s1|s1] eqn:Hl; try done.
  apply lookup_true in Hl as ->. by apply IH.
Qed.

Lemma accept_spec raw s :
  match accept E cfg raw s with
  | Val _ s' => s' = s
  | Exc _ s' => s' = s
  | Hang _ => False
  end.
Proof.
  unfold accept. destruct (in_reply_to_status_id raw); [| done].
  unfold bind, check, tweet_of, text_of, parse, lift, ret, raise. simpl.
  repeat case_match; simplify_eq; done.
Qed.

(** The filters do not read the state. *)
Lemma accept_any_state raw s1 s2 :
  match accept E cfg raw s1 with
  | Val o _ => accept E cfg raw s2 = Val o s2
  | Exc e _ => accept E cfg raw s2 = Exc e s2
  | Hang _ => False
  end.
Proof.
  unfold accept. destruct (in_reply_to_status_id raw); [| done].
  unfold bind, check, tweet_of, text_of, parse, lift, ret, raise. simpl.
  destruct (check_text E _); [| done].
  destruct (parse_nodes _) as [[ws ps]|e]; [| done]. simpl.
  destruct (need_check cfg ps && needless_check cfg ps); [| done].
  by destruct (length_check cfg _).
Qed.

Lemma on_status_invariant (I : state -> Prop) answers raw s :
  kept_by_updates cfg I -> I s -> I (state_of (on_status E cfg answers raw s)).
Proof.
  intros HI Hs. unfold on_status. unfold bind at 1.
  pose proof (accept_spec raw s) as Ha.
  destruct (accept E cfg raw s) as [[e|] s1|e s1|s1]; subst; try done.
  unfold bind. destruct (enqueue e s) as [[] s1|x s1|s1] eqn:He; try done.
  apply resolve_invariant; [done |].
  destruct HI as (_ & _ & _ & Henq).
  specialize (Henq s e Hs). by rewrite He in Henq.
Qed.

Lemma run_invariant (I : state -> Prop) inputs s :
  kept_by_updates cfg I -> I s -> I (state_of (run E cfg inputs s)).
Proof.
  intros HI. revert s.
  induction inputs as [|[raw answers] inputs IH]; intros s Hs; [done |].
  simpl. unfold bind.
  pose proof (on_status_invariant I answers raw s HI Hs) as H1.
  destruct (on_status E cfg answers raw s) as [[] s1|e s1|s1]; try done.
  by apply IH.
Qed.

Lemma chains_alternate_kept : kept_by_updates cfg chains_alternate.
Proof.
  unfold kept_by_updates, chains_alternate. repeat split.
  - destruct H as [Hq _]. rewrite queue_extended_by.
    apply Forall_insert; [done |].
    apply alternating_snoc; [| done].
    by eapply (proj1 (Forall_lookup _ _) Hq).
  - by destruct H.
  - destruct H as [Hq _]. rewrite queue_dump_state.
    apply Forall_insert; [done |].
    unfold authors. change (map ?f ?l) with (f <$> l).
    rewrite fmap_reverse. apply alternating_reverse.
    by eapply (proj1 (Forall_lookup _ _) Hq).
  - destruct H as [Hq Hd]. rewrite dumped_dump_state.
    apply Forall_app. split; [done |]. apply Forall_singleton.
    unfold authors. change (map ?f ?l) with (f <$> l).
    rewrite fmap_reverse. apply alternating_reverse.
    by eapply (proj1 (Forall_lookup _ _) Hq).
  - destruct H as [Hq _]. simpl. apply Forall_forall. intros d Hd.
    apply elem_of_dellist in Hd as (i & _ & Hi).
    by eapply (proj1 (Forall_lookup _ _) Hq).
  - by destruct H.
  - destruct H as [Hq _]. simpl. apply Forall_app. split; [done |].
    apply Forall_singleton. apply alternating_singleton.
  - by destruct H.
Qed.

(** C3: every chain that is dumped in a run is a strict two-party
    alternation: adjacent authors differ and every author is the author
    two places back.  The run starts from any state whose chains (none,
    for a new listener) alternate; the chains written before a run ends by
    an exception are included. *)
Theorem dumped_chains_alternate
    (inputs : list (status * list (option (list status)))) (s : state) :
  chains_alternate s ->
  Forall (fun d => alternating (authors d))
         (dumped (state_of (run E cfg inputs s))).
Proof.
  intros Hs.
  by destruct (run_invariant chains_alternate inputs s chains_alternate_kept Hs).
Qed.


(** ** The capacity of the queue *)

Lemma lookup_shrinks answer s :
  (length (queue (state_of (lookup E cfg answer s))) <= length (queue s))%nat.
Proof.
  unfold lookup, bind, get.
  pose proof (collect_ids_spec (queue s) s) as Hc.
  destruct (collect_ids (queue s) s) as [ids s'|e s'|s']; [| | done].
  2:{ by destruct Hc as [-> _]. }
  destruct Hc as [-> _].
  destruct answer as [replys|]; simpl; [| done].
  apply (lookup_loop_invariant
           (fun s' => (length (queue s') <= length (queue s))%nat)); [| | | done].
  - intros s1 idx d e H1 _ _. by rewrite queue_extended_by, length_insert.
  - intros s1 idx d H1 _. by rewrite queue_dump_state, length_insert.
  - intros s1 idxs H1. simpl. etrans; [apply length_dellist | done].
Qed.

Lemma resolve_bound answers s :
  (length (queue s) <= BATCH_SIZE cfg)%nat ->
  match resolve E cfg answers s with
  | Val b s' => b = true /\ (length (queue s') < BATCH_SIZE cfg)%nat
  | Exc _ s' => (length (queue s') <= BATCH_SIZE cfg)%nat
  | Hang s' => (length (queue s') <= BATCH_SIZE cfg)%nat
  end.
Proof.
  revert s. induction answers as [|answer answers IH]; intros s Hs;
    rewrite resolve_unfold;
    destruct (_ =? _)%nat eqn:HB; try apply Nat.eqb_neq in HB;
    try (split; [done | lia]); [done |].
  unfold bind.
  pose proof (lookup_shrinks answer s) as H1.
  destruct (lookup E cfg answer s) as [b s1|e s1|s1] eqn:Hl; simpl in H1;
    [| lia | lia].
  apply lookup_true in Hl as ->. apply IH. lia.
Qed.

Lemma queue_enqueue e s : queue (state_of (enqueue e s)) = queue s ++ [[e]].
Proof. done. Qed.

Lemma on_status_bound answers raw s :
  (length (queue s) < BATCH_SIZE cfg)%nat ->
  match on_status E cfg answers raw s with
  | Val b s' => b = true /\ (length (queue s') < BATCH_SIZE cfg)%nat
  | Exc _ s' => (length (queue s') <= BATCH_SIZE cfg)%nat
  | Hang s' => (length (queue s') <= BATCH_SIZE cfg)%nat
  end.
Proof.
  intros Hs. unfold on_status. unfold bind at 1.
  pose proof (accept_spec raw s) as Ha.
  destruct (accept E cfg raw s) as [[e|] s1|e s1|s1]; subst; try done;
    [| simpl; lia].
  unfold bind. destruct (enqueue e s) as [[] s1|x s1|s1] eqn:He; try done.
  apply resolve_bound.
  pose proof (queue_enqueue e s) as Hq. rewrite He in Hq. simpl in Hq.
  rewrite Hq, length_app. simpl. lia.
Qed.

Lemma run_bound inputs s :
  (length (queue s) < BATCH_SIZE cfg)%nat ->
  match run E cfg inputs s with
  | Val _ s' => (length (queue s') < BATCH_SIZE cfg)%nat
  | Exc _ s' => (length (queue s') <= BATCH_SIZE cfg)%nat
  | Hang s' => (length (queue s') <= BATCH_SIZE cfg)%nat
  end.
Proof.
  revert s. induction inputs as [|[raw answers] inputs IH]; intros s Hs;
    [done |].
  simpl. unfold bind.
  pose proof (on_status_bound answers raw s Hs) as H1.
  destruct (on_status E cfg answers raw s) as [b s1|e s1|s1]; try done.
  destruct H1 as [-> H1]. by apply IH.
Qed.



(** ** Chains that stay in the queue *)


Lemma touches_refl k s : touches k s s.
Proof. by repeat split. Qed.

Lemma touches_trans k s1 s2 s3 : touches k s1 s2 -> touches k s2 s3 -> touches k s1 s3.
Proof.
  intros (H1 & H2 & H3) (H4 & H5 & H6). repeat split.
  - congruence.
  - intros i Hi. rewrite H5, H2; done.
  - set_solver.
Qed.

Lemma touches_extended_by k d e s : touches k s (extended_by k d e s).
Proof.
  repeat split.
  - by rewrite queue_extended_by, length_insert.
  - intros i Hi. rewrite queue_extended_by. by rewrite list_lookup_insert_ne.
  - simpl. set_solver.
Qed.

Lemma touches_dump_state k d s : touches k s (dump_state cfg k d s).
Proof.
  repeat split.
  - by rewrite queue_dump_state, length_insert.
  - intros i Hi. rewrite queue_dump_state. by rewrite list_lookup_insert_ne.
  - by rewrite tweet_ids_dump_state.
Qed.


Lemma loop_inv_dumped q0 T0 k dump_idxs s s' :
  loop_inv q0 T0 k dump_idxs s -> touches k s s' ->
  loop_inv q0 T0 (S k) (dump_idxs ++ [k]) s'.
Proof.
  intros (H1 & H2 & H3 & H4) (H5 & H6 & H7). repeat split.
  - congruence.
  - intros i Hi. rewrite H6 by lia. apply H2. lia.
  - intros i d' Hi Hni Hd'. rewrite not_elem_of_app, list_elem_of_singleton in Hni.
    destruct Hni as [Hni Hne]. rewrite H6 in Hd' by done.
    apply (H3 i d'); [lia | done | done].
  - set_solver.
Qed.

Lemma loop_inv_kept q0 T0 k dump_idxs s d e :
  loop_inv q0 T0 k dump_idxs s -> queue s !! k = Some d ->
  fresh_reply (tweet_ids s) e ->
  loop_inv q0 T0 (S k) dump_idxs (extended_by k d e s).
Proof.
  intros (H1 & H2 & H3 & H4) Hd [Hr Hf].
  destruct (touches_extended_by k d e s) as (H5 & H6 & H7). repeat split.
  - congruence.
  - intros i Hi. rewrite H6 by lia. apply H2. lia.
  - intros i d' Hi Hni Hd'. destruct (decide (i = k)) as [->|Hne].
    + rewrite queue_extended_by, list_lookup_insert_eq in Hd'
        by (by eapply lookup_lt_Some).
      injection Hd' as <-. exists d, e. rewrite <- H2 by lia.
      repeat split; [done | done |]. set_solver.
    + rewrite H6 in Hd' by done. apply (H3 i d'); [lia | done | done].
  - set_solver.
Qed.

Lemma lookup_loop_survivors q0 T0 n : forall k ids dic dump_idxs s b s',
  loop_inv q0 T0 k dump_idxs s -> (k + n = length q0)%nat ->
  lookup_loop E cfg (seq k n) ids dic dump_idxs s = Val b s' ->
  forall d', d' ∈ queue s' ->
    exists d e, d ∈ q0 /\ d' = d ++ [e] /\ fresh_reply T0 e.
Proof.
  induction n as [|n IH]; intros k ids dic dump_idxs s b s' Hinv Hk.
  { simpl seq. rewrite lookup_loop_nil. intros [= _ <-] d' Hd'. simpl in Hd'.
    apply elem_of_dellist in Hd' as (i & Hni & Hi).
    destruct Hinv as (H1 & _ & H3 & _).
    destruct (H3 i d') as (d & e & Hd & -> & Hf); [| done | done |].
    - apply lookup_lt_Some in Hi. lia.
    - exists d, e. split; [| done]. by eapply list_elem_of_lookup_2. }
  simpl seq. rewrite lookup_loop_cons.
  destruct (ids !! k) as [i|]; [| done].
  pose proof (extend_spec k (str_of_id i) dic s) as Hs.
  destruct (extend E cfg k (str_of_id i) dic s) as [r s1|e s1|s1];
    [| done | done].
  assert (Ht : touches k s s1).
  { destruct Hs as [[-> _]|(d & e & _ & _ & -> & _)];
      [apply touches_refl | apply touches_extended_by]. }
  destruct r.2 eqn:Hr.
  - destruct (queue s1 !! k) as [d|]; [| done].
    destruct (2 <=? length d)%nat; apply IH; try lia;
      eapply loop_inv_dumped; try done.
    eapply touches_trans; [done | apply touches_dump_state].
  - destruct Hs as [[_ ?]|(d & e & Hd & _ & -> & Hf)]; [congruence |].
    apply IH; [| lia]. apply loop_inv_kept; [done | done |].
    by apply Hf.
Qed.

(** After a batch on a full queue, a chain is still in the queue only if
    the batch extended it by a reply whose id was not yet recorded. *)
Lemma lookup_survivors answer s b s' :
  length (queue s) = BATCH_SIZE cfg ->
  lookup E cfg answer s = Val b s' ->
  forall d', d' ∈ queue s' ->
    exists d e, d ∈ queue s /\ d' = d ++ [e] /\ fresh_reply (tweet_ids s) e.
Proof.
  intros HB. unfold lookup, bind, get.
  pose proof (collect_ids_spec (queue s) s) as Hc.
  destruct (collect_ids (queue s) s) as [ids s1|e s1|s1]; [| done | done].
  destruct Hc as [-> _].
  destruct answer as [replys|]; simpl; [| done].
  apply (lookup_loop_survivors (queue s) (tweet_ids s)); [| lia].
  split; [done |]. split; [done |]. split; [| done].
  intros i d' Hi. lia.
Qed.

End LookupProps.

(** ** The samples, evaluated *)

Example sample_hai_normalized :
  normalize Sample.hai = Sample.hai ++ [Ch.sp; Ch.kuten; Ch.nl].
Proof. by vm_compute. Qed.

Example sample_hai_accepted :
  accept Sample.toy Sample.cfg (Sample.says 10 1 (Some 5%Z)) Sample.new_state
  = Val (Some (Sample.said 10 1 (Some 5%Z))) Sample.new_state.
Proof. by vm_compute. Qed.

(** ** Deduplication *)

(** C1 does not hold as stated.  [on_status] never looks at [tweet_ids]:
    the status 10, whose id the listener has recorded, starts a chain
    again.  And [lookup] appends the looked-up parent 5, whose id is
    recorded, to the chain of its reply 1000 before it closes the chain:
    the dumped dialogue begins with tweet 5. *)
Lemma seen_id_admitted_again :
  (10%Z ∈ tweet_ids Sample.seen_10
   /\ queue (state_of (on_status Sample.toy Sample.cfg []
                         (Sample.says 10 1 (Some 5%Z)) Sample.seen_10))
      = [[Sample.said 10 1 (Some 5%Z)]])
  /\ (5%Z ∈ tweet_ids (Sample.full_state (Sample.only 0) [5%Z])
      /\ dumped (state_of (lookup Sample.toy Sample.cfg Sample.answer_5
                             (Sample.full_state (Sample.only 0) [5%Z])))
         = [[Sample.said 5 2 (Some 3%Z); Sample.said 1000 1 (Some 5%Z)]]).
Proof.
  split; split.
  - set_solver.
  - by vm_compute.
  - apply elem_of_list_to_set, elem_of_app. left. constructor.
  - by vm_compute.
Qed.

Section Dedup.

Variable E : collaborators.
Variable cfg : settings.

(** C1, amended, in two halves that stand on their own.  [on_status]
    does not consult [tweet_ids]: a status that passes the filters is
    enqueued as a chain of one tweet, and its id recorded, whatever ids
    are recorded, its own among them, and whatever the queue holds.  And
    an id that is already recorded never keeps a chain open: after a
    batch on a full queue, every chain still in the queue is a chain of
    before extended by one parent, a reply whose id was not recorded when
    the batch began. *)
Theorem seen_id_closes_chain
    (raw : status) (e : entry) (answers : list (option (list status)))
    (answer : option (list status)) (b : bool) (s s1 s1' : state) :
  (accept E cfg raw s = Val (Some e) s ->
   forall T : gset Z,
     let sT := set_tweet_ids (fun _ => T) s in
     on_status E cfg answers raw sT = (enqueue e ;;; resolve E cfg answers) sT
     /\ queue (state_of (enqueue e sT)) = queue s ++ [[e]]
     /\ tweet_ids (state_of (enqueue e sT)) = {[t_id e.1]} ∪ T)
  /\ (length (queue s1) = BATCH_SIZE cfg ->
      lookup E cfg answer s1 = Val b s1' ->
      forall d', d' ∈ queue s1' ->
        exists d p, d ∈ queue s1 /\ d' = d ++ [p]
                    /\ fresh_reply (tweet_ids s1) p).
Proof.
  split.
  - intros Ha T sT. split; [| done].
    unfold on_status. unfold bind at 1.
    pose proof (accept_any_state E cfg raw s sT) as HaT.
    rewrite Ha in HaT. by rewrite HaT.
  - intros HB Hl. by eapply lookup_survivors.
Qed.

End Dedup.

(** On the samples: the listener that has recorded the id 10 and holds no
    chain takes the status 10 again, as the only chain of its queue; and
    after the batch on the full queue of 100 chains in which chain 0 finds
    its parent, whatever chain is left has got a parent that was not
    recorded. *)
Lemma seen_id_closes_chain_witness :
  (10%Z ∈ tweet_ids Sample.seen_10
   /\ on_status Sample.toy Sample.cfg [] (Sample.says 10 1 (Some 5%Z))
        Sample.seen_10
      = Val true
          {| tweet_ids := {[10%Z]};
             queue := [[Sample.said 10 1 (Some 5%Z)]];
             dump_count := 0; tweet_txt := []; reply_txt := [];
             tweet_part_txt := []; check_point_txt := None; dumped := [] |})
  /\ (length (queue (Sample.full_state (Sample.only 0) [])) = 100%nat
      /\ forall d',
           d' ∈ queue (state_of (lookup Sample.toy Sample.cfg Sample.answer_5
                                   (Sample.full_state (Sample.only 0) []))) ->
           exists d p, d ∈ queue (Sample.full_state (Sample.only 0) [])
                       /\ d' = d ++ [p]
                       /\ fresh_reply
                            (tweet_ids (Sample.full_state (Sample.only 0) []))
                            p).
Proof.
  pose proof (seen_id_closes_chain Sample.toy Sample.cfg
                (Sample.says 10 1 (Some 5%Z)) (Sample.said 10 1 (Some 5%Z))
                [] Sample.answer_5 true Sample.seen_10
                (Sample.full_state (Sample.only 0) [])
                (state_of (lookup Sample.toy Sample.cfg Sample.answer_5
                             (Sample.full_state (Sample.only 0) []))))
    as [Hin Hbatch].
  split.
  - split; [change (10%Z ∈ ({[10%Z]} : gset Z)); by apply elem_of_singleton_2 |].
    destruct (Hin ltac:(vm_compute; reflexivity) {[10%Z]}) as (Hon & _ & _).
    etrans; [exact Hon |]. vm_compute. reflexivity.
  - split; [reflexivity |].
    apply Hbatch; vm_compute; reflexivity.
Defined.

(** ** Chains that ask for the same parent *)

(** C2 fails on the code.  Chains 0 and 1 of a full queue both reply to
    tweet 5, which the lookup service returns.  Alone, each of the two is
    extended by tweet 5 and stays in the queue; together, the batch ends
    by [TypeError]: the first chain has overwritten slot 2 of the one list
    that [replys_dic] holds for tweet 5 with the word list, and [check]
    searches it for the second chain. *)
Theorem shared_parent_raises :
  raised (lookup Sample.toy Sample.cfg Sample.answer_5
            (Sample.full_state Sample.shared []))
  = Some TypeError
  /\ (exists s0,
        lookup Sample.toy Sample.cfg Sample.answer_5
          (Sample.full_state (Sample.only 0) []) = Val true s0
        /\ queue s0 = [[Sample.said 1000 1 (Some 5%Z);
                        Sample.said 5 2 (Some 3%Z)]])
  /\ (exists s1,
        lookup Sample.toy Sample.cfg Sample.answer_5
          (Sample.full_state (Sample.only 1) []) = Val true s1
        /\ queue s1 = [[Sample.said 1001 1 (Some 5%Z);
                        Sample.said 5 2 (Some 3%Z)]]).
Proof.
  split; [by vm_compute |].
  split; eexists; (split; [by vm_compute | by vm_compute]).
Qed.

(** ** Witnesses on the samples *)

Lemma dumped_chains_alternate_witness :
  Forall (fun d => alternating (authors d))
         (dumped (state_of (run Sample.toy Sample.cfg2 Sample.short_run
                              Sample.new_state))).
Proof.
  apply dumped_chains_alternate. split; apply Forall_nil_2.
Defined.

Example short_run_dumps :
  dumped (state_of (run Sample.toy Sample.cfg2 Sample.short_run
                      Sample.new_state))
  = [[Sample.said 6 2 None; Sample.said 11 1 (Some 6%Z)]].
Proof. by vm_compute. Qed.


Lemma lookup_in_bounds_witness :
  raised (lookup Sample.toy Sample.cfg Sample.answer_5
            (Sample.full_state Sample.shared []))
  <> Some (IndexError InIds)
  /\ raised (lookup Sample.toy Sample.cfg Sample.answer_5
               (Sample.full_state Sample.shared []))
     <> Some (IndexError InQueue).
Proof.
  apply (lookup_in_bounds Sample.toy Sample.cfg Sample.answer_5
           (Sample.full_state Sample.shared [])).
  vm_compute. reflexivity.
Defined.

(** With fewer chains than [BATCH_SIZE] the loop does run off the list of
    ids: the precondition of C10 is needed. *)
Example lookup_short_queue_raises :
  raised (lookup Sample.toy Sample.cfg Sample.answer_5 Sample.new_state)
  = Some (IndexError InIds).
Proof. by vm_compute. Qed.

(** A list of two lines, from its length and its two entries. *)
Lemma two_lines (l : list str) (a b : str) :
  length l = 2%nat -> l !! 0%nat = Some a -> l !! 1%nat = Some b ->
  concat l = a ++ b.
Proof.
  destruct l as [|x [|y [|z l]]]; try discriminate.
  intros _ [= ->] [= ->]. simpl. by rewrite app_nil_r.
Defined.

(** On the sample of three turns, "hai .", "a" and "un !": the prompt
    file gets the lines of turns 1 and 2, the response file those of
    turns 2 and 3, the part file the parts of turns 1 and 2. *)
Lemma dump_data_pairs_witness :
  exists s' : state,
    dump_data Sample.cfg 0 Sample.three_turns Sample.new_state = Val true s'
    /\ tweet_txt s' = [0x306F; 0x3044; 32; 0x3002; 10; 0x3042; 10]%Z
    /\ reply_txt s' = [0x3042; 10; 0x3046; 0x3093; 32; 0xFF01; 10]%Z
    /\ tweet_part_txt s'
       = py "impression_verb phrase_point" ++ [10%Z] ++ py "filler" ++ [10%Z]
    /\ dump_count s' = 2%Z.
Proof.
  destruct (dump_data_pairs Sample.cfg 0 Sample.three_turns Sample.new_state)
    as (prompts & responses & parts & s' & Hrun & Ht & Hr & Hp
        & Hlt & Hlr & Hlp & Hi & Hc).
  { simpl. lia. }
  destruct (Hi 0%nat) as (u0 & v0 & Hu0 & Hv0 & Hp0 & Hr0 & Hq0);
    [simpl; lia |].
  destruct (Hi 1%nat) as (u1 & v1 & Hu1 & Hv1 & Hp1 & Hr1 & Hq1);
    [simpl; lia |].
  vm_compute in Hu0, Hv0, Hu1, Hv1.
  injection Hu0 as <-. injection Hv0 as <-.
  injection Hu1 as <-. injection Hv1 as <-.
  exists s'. split; [exact Hrun |].
  rewrite (two_lines prompts _ _ Hlt Hp0 Hp1) in Ht.
  rewrite (two_lines responses _ _ Hlr Hr0 Hr1) in Hr.
  rewrite (two_lines parts _ _ Hlp Hq0 Hq1) in Hp.
  exact (conj Ht (conj Hr (conj Hp Hc))).
Defined.

(** ** The checkpoint file *)


Lemma digits_solid d : solid (digits d).
Proof. induction d; simpl; constructor; done. Qed.

Lemma str_of_int_solid z : solid (str_of_int z).
Proof.
  unfold str_of_int. destruct (Z.to_int z); [apply digits_solid |].
  constructor; [done | apply digits_solid].
Qed.

Lemma digits_nonempty d : d <> Decimal.Nil -> digits d <> [].
Proof. by destruct d. Qed.

Lemma to_int_nonnil z :
  match Z.to_int z with
  | Decimal.Pos d => d <> Decimal.Nil
  | Decimal.Neg d => d <> Decimal.Nil
  end.
Proof. destruct z; simpl; [done | |]; apply Unsigned.to_uint_nonnil. Qed.

Lemma str_of_int_nonempty z : str_of_int z <> [].
Proof.
  unfold str_of_int. pose proof (to_int_nonnil z) as H.
  destruct (Z.to_int z); [by apply digits_nonempty | done].
Qed.

Lemma uint_of_digits d b :
  d <> Decimal.Nil \/ b = true -> uint_of b (digits d) = Some d.
Proof.
  revert b. induction d; intros b Hb; cbn [digits uint_of];
    try (match goal with
         | |- context [digit_of ?c] =>
           let v := eval vm_compute in (digit_of c) in
           change (digit_of c) with v
         end;
         rewrite IHd by (by right); done).
  destruct Hb as [Hb | ->]; done.
Qed.

Lemma digits_head d c s :
  digits d = c :: s -> c <> Ch.minus /\ c <> Ch.plus.
Proof. destruct d; simpl; intros [= <- _]; done. Qed.

Lemma lstrip_solid c s : is_space c = false -> lstrip (c :: s) = c :: s.
Proof. simpl. by intros ->. Qed.

Lemma strip_solid s : solid s -> strip s = s.
Proof.
  intros Hs. unfold strip.
  destruct s as [|c s]; [done |].
  apply Forall_cons in Hs as Hcs. destruct Hcs as [Hc _].
  rewrite lstrip_solid by done.
  destruct (reverse (c :: s)) as [|c' s'] eqn:Hr.
  { apply (f_equal length) in Hr. rewrite length_reverse in Hr. done. }
  assert (Hc' : is_space c' = false).
  { apply (proj1 (Forall_forall _ _) Hs).
    apply elem_of_reverse. rewrite Hr. constructor. }
  rewrite lstrip_solid by done. rewrite <- Hr. apply reverse_involutive.
Qed.

(** A line that ends with a newline loses just that. *)
Lemma strip_line s : solid s -> s <> [] -> strip (s ++ [Ch.nl]) = s.
Proof.
  intros Hs Hne. unfold strip.
  destruct s as [|c s]; [done |].
  apply Forall_cons in Hs as Hcs. destruct Hcs as [Hc _].
  change ((c :: s) ++ [Ch.nl]) with (c :: (s ++ [Ch.nl])).
  rewrite lstrip_solid by done.
  change (c :: (s ++ [Ch.nl])) with ((c :: s) ++ [Ch.nl]).
  rewrite reverse_snoc.
  destruct (reverse (c :: s)) as [|c' s'] eqn:Hr.
  { apply (f_equal length) in Hr. rewrite length_reverse in Hr. done. }
  assert (Hc' : is_space c' = false).
  { apply (proj1 (Forall_forall _ _) Hs).
    apply elem_of_reverse. rewrite Hr. constructor. }
  change (lstrip (Ch.nl :: c' :: s')) with (lstrip (c' :: s')).
  rewrite lstrip_solid by done. rewrite <- Hr. apply reverse_involutive.
Qed.

Lemma int_lstrip_solid c s :
  is_space c = false -> int_lstrip (c :: s) = c :: s.
Proof. simpl. unfold is_int_space. by intros ->. Qed.

Lemma int_strip_solid s : solid s -> int_strip s = s.
Proof.
  intros Hs. unfold int_strip.
  destruct s as [|c s]; [done |].
  apply Forall_cons in Hs as Hcs. destruct Hcs as [Hc _].
  rewrite int_lstrip_solid by done.
  destruct (reverse (c :: s)) as [|c' s'] eqn:Hr.
  { apply (f_equal length) in Hr. rewrite length_reverse in Hr. done. }
  assert (Hc' : is_space c' = false).
  { apply (proj1 (Forall_forall _ _) Hs).
    apply elem_of_reverse. rewrite Hr. constructor. }
  rewrite int_lstrip_solid by done. rewrite <- Hr. apply reverse_involutive.
Qed.

Lemma int_of_str_of_int z : int_of_str (str_of_int z) = OK z.
Proof.
  unfold int_of_str. rewrite int_strip_solid by apply str_of_int_solid.
  unfold str_of_int. pose proof (to_int_nonnil z) as Hn.
  pose proof (DecimalZ.of_to z) as Hz.
  destruct (Z.to_int z) as [d|d].
  - destruct (digits d) as [|c t] eqn:Hd; [by apply digits_nonempty in Hd |].
    destruct (digits_head _ _ _ Hd) as [Hm Hp].
    apply Z.eqb_neq in Hm, Hp. rewrite Hm, Hp.
    rewrite <- Hd, uint_of_digits by (by left). by rewrite Hz.
  - rewrite Z.eqb_refl.
    rewrite uint_of_digits by (by left). by rewrite Hz.
Qed.

Lemma ints_of_strs zs : ints_of (map str_of_int zs) = OK zs.
Proof.
  induction zs as [|z zs IH]; simpl; [done |].
  by rewrite int_of_str_of_int, IH.
Qed.

(** A text without a line end. *)
Lemma readline_no_newline s :
  Forall (fun c => c <> Ch.nl /\ c <> Ch.cr) s -> readline s = (s, []).
Proof.
  induction 1 as [|c s [Hn Hc] Hs IH]; simpl; [done |].
  apply Z.eqb_neq in Hn, Hc. by rewrite Hn, Hc, IH.
Qed.

Lemma readline_line s rest :
  Forall (fun c => c <> Ch.nl /\ c <> Ch.cr) s ->
  readline (s ++ [Ch.nl] ++ rest) = (s ++ [Ch.nl], rest).
Proof.
  induction 1 as [|c s [Hn Hc] Hs IH]; [done |].
  change ((c :: s) ++ [Ch.nl] ++ rest) with (c :: (s ++ [Ch.nl] ++ rest)).
  cbn [readline]. apply Z.eqb_neq in Hn, Hc. by rewrite Hn, Hc, IH.
Qed.

Lemma solid_no_newline s :
  solid s -> Forall (fun c => c <> Ch.nl /\ c <> Ch.cr) s.
Proof.
  intros H. eapply Forall_impl; [exact H |]. intros c Hc. by split; intros ->.
Qed.

Lemma readline_solid s : solid s -> readline s = (s, []).
Proof. intros Hs. by apply readline_no_newline, solid_no_newline. Qed.


Lemma split_ws_go_token cur t s :
  solid t ->
  split_ws_go cur (t ++ s) = split_ws_go (reverse t ++ cur) s.
Proof.
  intros Ht. revert cur. induction Ht as [|c t Hc Ht IH]; intros cur; [done |].
  simpl. rewrite Hc, IH. by rewrite reverse_cons, <- app_assoc.
Qed.

Lemma split_ws_join ts : tokens_ok ts -> split_ws (join [Ch.sp] ts) = ts.
Proof.
  unfold split_ws. induction 1 as [|t ts [Ht Hne] Hts IH]; [done |].
  destruct ts as [|t' ts].
  - simpl. rewrite <- (app_nil_r t) at 1.
    rewrite split_ws_go_token by done. simpl. rewrite app_nil_r.
    destruct (reverse t) eqn:Hr.
    + apply (f_equal length) in Hr. rewrite length_reverse in Hr.
      by destruct t.
    + by rewrite <- Hr, reverse_involutive.
  - change (join [Ch.sp] (t :: t' :: ts))
      with (t ++ [Ch.sp] ++ join [Ch.sp] (t' :: ts)).
    rewrite split_ws_go_token by done. rewrite app_nil_r.
    change (([Ch.sp] ++ ?x)) with (Ch.sp :: x).
    cbn [split_ws_go]. change (is_space Ch.sp) with true. cbv iota.
    destruct (reverse t) eqn:Hr.
    + apply (f_equal length) in Hr. rewrite length_reverse in Hr.
      by destruct t.
    + rewrite <- Hr, reverse_involutive. by rewrite IH.
Qed.

Lemma join_solid_ends ts :
  tokens_ok ts ->
  match join [Ch.sp] ts with
  | [] => True
  | c :: _ => is_space c = false
  end
  /\ match reverse (join [Ch.sp] ts) with
     | [] => True
     | c :: _ => is_space c = false
     end.
Proof.
  induction 1 as [|t ts [Ht Hne] Hts IH]; [done |].
  destruct ts as [|t' ts].
  - simpl. split.
    + destruct t; [done |]. by apply Forall_cons in Ht as [? _].
    + destruct (reverse t) as [|c r] eqn:Hr; [done |].
      apply (proj1 (Forall_forall _ _) Ht), elem_of_reverse.
      rewrite Hr. constructor.
  - change (join [Ch.sp] (t :: t' :: ts))
      with (t ++ [Ch.sp] ++ join [Ch.sp] (t' :: ts)).
    split.
    + destruct t; [done |]. by apply Forall_cons in Ht as [? _].
    + rewrite !reverse_app. destruct IH as [_ IH].
      destruct (reverse (join [Ch.sp] (t' :: ts))) as [|c r] eqn:Hr; [| done].
      apply (f_equal length) in Hr. rewrite length_reverse in Hr.
      apply Forall_cons in Hts as [[_ Hne'] _].
      destruct t'; [done |]. destruct ts; done.
Qed.

Lemma strip_join ts : tokens_ok ts -> strip (join [Ch.sp] ts) = join [Ch.sp] ts.
Proof.
  intros Hts. destruct (join_solid_ends ts Hts) as [H1 H2]. unfold strip.
  destruct (join [Ch.sp] ts) as [|c s]; [done |].
  rewrite lstrip_solid by done.
  destruct (reverse (c :: s)) as [|c' s'] eqn:Hr.
  { apply (f_equal length) in Hr. rewrite length_reverse in Hr. done. }
  rewrite lstrip_solid by done. rewrite <- Hr. apply reverse_involutive.
Qed.

Lemma join_no_newline ts :
  tokens_ok ts ->
  Forall (fun c => c <> Ch.nl /\ c <> Ch.cr) (join [Ch.sp] ts).
Proof.
  induction 1 as [|t ts [Ht Hne] Hts IH]; [constructor |].
  destruct ts as [|t' ts]; [by apply solid_no_newline |].
  change (join [Ch.sp] (t :: t' :: ts))
    with (t ++ [Ch.sp] ++ join [Ch.sp] (t' :: ts)).
  apply Forall_app. split; [by apply solid_no_newline |].
  apply Forall_app. split; [| done]. by constructor.
Qed.

Lemma tokens_of_ints zs : tokens_ok (map str_of_int zs).
Proof.
  apply Forall_forall. intros t Ht.
  apply list_elem_of_fmap in Ht as (z & -> & _).
  split; [apply str_of_int_solid | apply str_of_int_nonempty].
Qed.

Section CheckPointProps.

Variable E : collaborators.

(** What a load makes of the file that [save_check_point] writes for a
    counter [n] and a seen set [T], in whatever state the listener that
    loads is. *)
Lemma load_written (n : Z) (T : gset Z) (s0 : state) :
  open_read E = true ->
  (forall (X : gset Z) (x : Z), x ∈ iter_ids E X <-> x ∈ X) ->
  check_point_txt s0
  = Some (str_of_int n ++ [Ch.nl]
          ++ join [Ch.sp] (map str_of_int (iter_ids E T))) ->
  exists s', load_check_point E s0 = Val tt s'
    /\ dump_count s' = n /\ tweet_ids s' = T
    /\ queue s' = queue s0 /\ check_point_txt s' = check_point_txt s0.
Proof.
  intros Hr Hiter Hc.
  unfold load_check_point, bind, update, get. simpl. rewrite Hc, Hr.
  rewrite readline_line by apply solid_no_newline, str_of_int_solid.
  rewrite strip_line by (apply str_of_int_solid || apply str_of_int_nonempty).
  rewrite int_of_str_of_int. simpl.
  rewrite readline_no_newline by apply join_no_newline, tokens_of_ints.
  rewrite strip_join, split_ws_join by apply tokens_of_ints.
  rewrite ints_of_strs. simpl.
  eexists. split; [reflexivity |]. simpl. repeat split; try done.
  apply set_eq. intros x. rewrite elem_of_list_to_set. apply Hiter.
Qed.

(** C8: a checkpoint that is saved and then loaded gives back
    [dump_count] and the set of ids, for every integer count and every
    finite set, in whatever order the set is iterated.  The file holds
    the count in decimal on line 1 and the ids, separated by one blank,
    on line 2; and every listener that finds this file, whatever it holds
    in memory itself (a new listener holds nothing), ends its load with
    the count and the set of the listener that saved.  Both [open] calls
    are taken to succeed. *)
Theorem check_point_round_trip (s : state) :
  open_write E = true ->
  open_read E = true ->
  (forall (X : gset Z) (x : Z), x ∈ iter_ids E X <-> x ∈ X) ->
  check_point_txt (state_of (save_check_point E s))
  = Some (str_of_int (dump_count s) ++ [Ch.nl]
          ++ join [Ch.sp] (map str_of_int (iter_ids E (tweet_ids s))))
  /\ forall s0 : state,
       check_point_txt s0
       = check_point_txt (state_of (save_check_point E s)) ->
       exists s', load_check_point E s0 = Val tt s'
         /\ dump_count s' = dump_count s
         /\ tweet_ids s' = tweet_ids s.
Proof.
  intros Hw Hr Hiter. unfold save_check_point. rewrite Hw. simpl.
  split; [done |]. intros s0 Hs0.
  destruct (load_written (dump_count s) (tweet_ids s) s0 Hr Hiter Hs0)
    as (s' & Hl & Hn & HT & _).
  by exists s'.
Qed.

(** C7, amended: failing to open the checkpoint is never fatal, on
    either side.  When the file is missing or cannot be opened for
    reading, [load_check_point] returns with no id recorded and a count
    of zero, whether or not the file can be written; when the file cannot
    be opened for writing, [save_check_point] returns and changes
    nothing, whether or not it can be read. *)
Theorem check_point_open_failure (s : state) :
  (check_point_txt s = None \/ open_read E = false ->
   load_check_point E s
   = Val tt (set_dump_count 0 (set_tweet_ids (fun _ => ∅) s)))
  /\ (open_write E = false -> save_check_point E s = Val tt s).
Proof.
  split.
  - intros Hread. unfold load_check_point, bind, update, get. simpl.
    destruct Hread as [-> | ->]; [done |]. by destruct (check_point_txt s).
  - intros Hwrite. unfold save_check_point. by rewrite Hwrite.
Qed.

End CheckPointProps.

(** ** Checkpoint failures *)

(** On the sample: the listener with 5 dumped pairs and the ids 1, 2, 3
    writes these seven characters (its set happens to be iterated as 3,
    2, 1), and a new listener that finds them loads the count 5 and the
    three ids. *)
Lemma check_point_round_trip_witness :
  check_point_txt (state_of (save_check_point Sample.toy Sample.count_5))
  = Some [53; 10; 51; 32; 50; 32; 49]%Z
  /\ exists s',
       load_check_point Sample.toy
         (Sample.forgotten [53; 10; 51; 32; 50; 32; 49]%Z) = Val tt s'
       /\ dump_count s' = 5%Z
       /\ tweet_ids s' = {[1%Z; 2%Z; 3%Z]}.
Proof.
  destruct (check_point_round_trip Sample.toy Sample.count_5 eq_refl eq_refl
              (fun X x => elem_of_elements X x)) as [Hfile Hload].
  assert (Htxt : check_point_txt (state_of (save_check_point Sample.toy
                                              Sample.count_5))
                 = Some [53; 10; 51; 32; 50; 32; 49]%Z).
  { etrans; [exact Hfile |]. vm_compute. reflexivity. }
  split; [exact Htxt |].
  apply Hload. symmetry. exact Htxt.
Defined.

(** A checkpoint file need not come from [save_check_point]: a carriage
    return ends the first line as well, and the digits of another script
    are read too (here the fullwidth five). *)
Example check_point_of_another_hand :
  load_check_point Sample.toy
    (Sample.forgotten (0xFF15%Z :: Ch.cr :: py "1 2 3"))
  = Val tt (set_tweet_ids (fun _ => list_to_set [1%Z; 2%Z; 3%Z])
              (set_dump_count 5
                 (Sample.forgotten (0xFF15%Z :: Ch.cr :: py "1 2 3")))).
Proof. by vm_compute. Qed.

(** On the samples: a start without a checkpoint file, on a disk that
    can be written, begins with nothing, whatever the listener held; so
    does a start on a disk that holds a checkpoint which cannot be
    opened; and a save returns with nothing changed when the file cannot
    be opened for writing, whether or not it can be read. *)
Lemma check_point_open_failure_witness :
  (check_point_txt Sample.seen_10 = None
   /\ open_write Sample.toy = true
   /\ load_check_point Sample.toy Sample.seen_10
      = Val tt Sample.new_state)
  /\ load_check_point Sample.locked
       (set_check_point (Some [53; 10; 51; 32; 50; 32; 49]%Z) Sample.count_5)
     = Val tt (Sample.forgotten [53; 10; 51; 32; 50; 32; 49]%Z)
  /\ save_check_point Sample.locked Sample.count_5 = Val tt Sample.count_5
  /\ save_check_point Sample.read_only
       (Sample.forgotten [53; 10; 51; 32; 50; 32; 49]%Z)
     = Val tt (Sample.forgotten [53; 10; 51; 32; 50; 32; 49]%Z).
Proof.
  split; [split; [reflexivity | split; [reflexivity |]] |].
  - exact (proj1 (check_point_open_failure Sample.toy Sample.seen_10)
             (or_introl eq_refl)).
  - split; [| split].
    + exact (proj1 (check_point_open_failure Sample.locked
                      (set_check_point (Some [53; 10; 51; 32; 50; 32; 49]%Z)
                         Sample.count_5))
               (or_intror eq_refl)).
    + exact (proj2 (check_point_open_failure Sample.locked Sample.count_5)
               eq_refl).
    + exact (proj2 (check_point_open_failure Sample.read_only
                      (Sample.forgotten [53; 10; 51; 32; 50; 32; 49]%Z))
               eq_refl).
Defined.

(** A pass whose start-up or session always raises the same exception,
    other than an interrupt, and leaves the state as it was, is repeated
    for ever. *)
Lemma twitter_stuck E H s e :
  (forall k, (listener <- init E H ;; stream_filter H k listener) s = Exc e s) ->
  e <> KeyboardInterrupt ->
  forall fuel k delay,
    exists delay', twitter E H fuel k delay s = Looping delay' s.
Proof.
  intros Hpass He fuel.
  induction fuel as [|fuel IH]; intros k delay.
  { eexists. reflexivity. }
  cbn [twitter]. rewrite Hpass.
  destruct e; try apply IH. done.
Qed.

(** C7 does not hold as stated: only the [open] is guarded.  With an
    empty checkpoint file, [int] fails on the first line and
    [load_check_point] leaves by [ValueError]; [__init__] never
    completes, so that no session is ever started: on a machine whose
    sessions would all end at once by an interrupt, and so by exit code
    0, [twitter] keeps looping. *)
Lemma damaged_check_point_is_fatal :
  load_check_point Sample.toy Sample.empty_check_point
  = Exc ValueError Sample.empty_check_point
  /\ (exists s', twitter Sample.toy Sample.interrupted 1 0 1 Sample.new_state
                 = Exited 0 s')
  /\ (forall fuel, exists delay',
        twitter Sample.toy Sample.interrupted fuel 0 1 Sample.empty_check_point
        = Looping delay' Sample.empty_check_point).
Proof.
  split; [by vm_compute |]. split; [eexists; reflexivity |].
  intros fuel. apply (twitter_stuck _ _ _ ValueError); [| done].
  intros k. by vm_compute.
Qed.

(** ** Start-up failures *)

Section TwitterProps.

Variable E : collaborators.
Variable sessions : nat -> settings -> M unit.

(** C6 fails on the code.  Without [config.yml], or when the API objects
    cannot be built, [__init__] does call [sys.exit(1)]; but it is called
    inside the [try] of [twitter], whose bare [except] catches
    [SystemExit] like any other exception: the loop sleeps and starts
    over, and the process never exits, however long it is followed. *)
Theorem start_up_failure_never_exits (fuel k : nat) (delay : Z) (s : state) :
  init E (Sample.no_config sessions) s = Exc (SystemExit 1) s
  /\ init E (Sample.no_auth sessions) s = Exc (SystemExit 1) s
  /\ (exists delay', twitter E (Sample.no_config sessions) fuel k delay s
                     = Looping delay' s)
  /\ (exists delay', twitter E (Sample.no_auth sessions) fuel k delay s
                     = Looping delay' s).
Proof.
  split; [done |]. split; [done |].
  split; by apply (twitter_stuck _ _ _ (SystemExit 1)).
Qed.

(** The rest of C6 holds: an interrupt during a session ends [twitter]
    (exit code 0) after the checkpoint is saved, and any other exception
    of a session leads to the next pass, with a longer delay. *)
Lemma twitter_interrupt_exits (H : host) fuel k delay s cfg s' :
  init E H s = Val cfg s' ->
  stream_filter H k cfg s' = Exc KeyboardInterrupt s' ->
  twitter E H (S fuel) k delay s
  = Exited 0 (state_of (save_check_point E s')).
Proof.
  intros Hi Hs. simpl. unfold bind. by rewrite Hi, Hs.
Qed.

Lemma twitter_failure_reconnects (H : host) fuel k delay s cfg s1 s2 e :
  init E H s = Val cfg s1 ->
  stream_filter H k cfg s1 = Exc e s2 ->
  e <> KeyboardInterrupt ->
  twitter E H (S fuel) k delay s
  = twitter E H fuel (S k) (Z.min (delay + 1) 64) s2.
Proof.
  intros Hi Hs He. simpl. unfold bind. rewrite Hi, Hs. by destruct e.
Qed.

End TwitterProps.

(** ** The matcher *)

Lemma starts_with_Some u s rest : starts_with u s = Some rest -> s = u ++ rest.
Proof.
  revert s. induction u as [|a u IH]; intros [|b s]; simpl; try done.
  - by intros [= ->].
  - by intros [= ->].
  - destruct (a =? b)%Z eqn:Hab; [| done].
    apply Z.eqb_eq in Hab as ->. intros H. by rewrite (IH _ H).
Qed.

Lemma one_char_sound total f r st st' :
  (forall c rest caps, f c = true -> Matches total r (c :: rest, caps) (rest, caps)) ->
  In st' (one_char f st) -> Matches total r st st'.
Proof.
  intros Hr. unfold one_char. destruct st as [[|c rest] caps]; simpl; [done |].
  destruct (f c) eqn:Hf; [| done]. intros [<- | []]. by apply Hr.
Qed.

Lemma rep_go_sound total a greedy fuel :
  (forall st st', In st' (matches total a st) -> Matches total a st st') ->
  forall lo hi st st',
    In st' (rep_go (matches total a) greedy lo hi fuel st) ->
    Matches total (Rep greedy lo hi a) st st'.
Proof.
  intros Ha. induction fuel as [|fuel IH]; intros lo hi st st'; simpl; [done |].
  assert (Hstop : In st' (match lo with O => [st] | S _ => [] end) ->
                  Matches total (Rep greedy lo hi a) st st').
  { destruct lo; [| done]. intros [<- | []]. constructor. }
  assert (Hmore :
    In st' (match hi with
            | Some O => []
            | _ => flat_map (fun st1 : mstate =>
                     if (length st1.1 <? length st.1)%nat
                     then rep_go (matches total a) greedy (pred lo)
                            (pred <$> hi) fuel st1
                     else []) (matches total a st)
            end) ->
    Matches total (Rep greedy lo hi a) st st').
  { intros Hin.
    assert (Hhi : hi <> Some 0%nat) by (by intros ->).
    assert (Hin' : In st' (flat_map (fun st1 : mstate =>
                     if (length st1.1 <? length st.1)%nat
                     then rep_go (matches total a) greedy (pred lo)
                            (pred <$> hi) fuel st1
                     else []) (matches total a st))).
    { destruct hi as [[|n]|]; done. }
    apply in_flat_map in Hin' as (st1 & H1 & H2).
    destruct (length st1.1 <? length st.1)%nat eqn:Hlt; [| done].
    apply Nat.ltb_lt in Hlt.
    eapply M_rep_more; eauto. }
  destruct greedy; intros Hin; apply in_app_or in Hin as [Hin|Hin]; auto.
Qed.

(** Every match that the engine finds is a match. *)
Lemma matches_sound total r : forall st st',
  In st' (matches total r st) -> Matches total r st st'.
Proof.
  induction r as [| | |neg items|a IHa b IHb|a IHa b IHb|g lo hi a IHa|k a IHa|k];
    intros st st'; cbn [matches].
  - intros [<- | []]. constructor.
  - destruct (length st.1 =? total)%nat eqn:Hl; [| done].
    apply Nat.eqb_eq in Hl. intros [<- | []]. by constructor.
  - apply one_char_sound. intros c rest caps Hc. constructor.
    intros ->. done.
  - apply one_char_sound. intros c rest caps Hc. by constructor.
  - intros Hin. apply in_flat_map in Hin as (st1 & H1 & H2).
    eapply M_seq; eauto.
  - intros Hin. apply in_app_or in Hin as [Hin|Hin];
      [apply M_alt_l | apply M_alt_r]; auto.
  - by apply rep_go_sound.
  - intros Hin. apply in_map_iff in Hin as (st1 & <- & H1).
    apply M_group. auto.
  - destruct st as [s caps]. simpl.
    destruct (caps !! k) as [u|] eqn:Hk; [| done].
    destruct (starts_with u s) as [rest|] eqn:Hs; [| done].
    intros [<- | []]. apply starts_with_Some in Hs as ->. by constructor.
Qed.

Lemma match_at_sound total r s st' :
  match_at total r s = Some st' -> Matches total r (s, ∅) st'.
Proof.
  unfold match_at. intros Hh. apply matches_sound.
  destruct (matches total r (s, ∅)) as [|x l]; [done |].
  injection Hh as ->. by left.
Qed.

(** The text that a match has read. *)
Lemma take_consumed (m rest : str) :
  take (length (m ++ rest) - length rest) (m ++ rest) = m.
Proof.
  rewrite length_app. replace (length m + length rest - length rest)%nat
    with (length m) by lia.
  by rewrite take_app_length.
Qed.

(** A match reads a prefix of its input, made of characters that its
    character sets allow; so are the texts it captures. *)
Lemma Matches_alphabet (Q : Z -> Prop) total r st st' :
  Matches total r st st' -> leaves_in Q r -> caps_in Q st.2 ->
  exists m, st.1 = m ++ st'.1 /\ Forall Q m /\ caps_in Q st'.2.
Proof.
  induction 1 as [st|st Hl|c rest caps Hc|neg items c rest caps Hc
                  |a b st st1 st2 H1 IH1 H2 IH2|a b st st' H1 IH1
                  |a b st st' H1 IH1|g hi a st
                  |g lo hi a st st1 st2 Hhi H1 IH1 Hlt H2 IH2
                  |k a st st' H1 IH1|k u rest caps Hk];
    simpl; intros Hleaf Hcaps.
  - exists []. by repeat split.
  - exists []. by repeat split.
  - exists [c]. repeat split; [| done]. constructor; [by apply Hleaf | done].
  - exists [c]. repeat split; [| done]. constructor; [by apply Hleaf | done].
  - destruct Hleaf as [La Lb].
    destruct (IH1 La Hcaps) as (m1 & E1 & F1 & C1).
    destruct (IH2 Lb C1) as (m2 & E2 & F2 & C2).
    exists (m1 ++ m2). rewrite E1, E2, app_assoc. repeat split; [| done].
    by apply Forall_app.
  - destruct Hleaf as [La Lb]. auto.
  - destruct Hleaf as [La Lb]. auto.
  - exists []. by repeat split.
  - destruct (IH1 Hleaf Hcaps) as (m1 & E1 & F1 & C1).
    destruct (IH2 Hleaf C1) as (m2 & E2 & F2 & C2).
    exists (m1 ++ m2). rewrite E1, E2, app_assoc. repeat split; [| done].
    by apply Forall_app.
  - destruct (IH1 Hleaf Hcaps) as (m & E & F & C).
    exists m. repeat split; [done | done |].
    intros j u. rewrite E, take_consumed.
    destruct (decide (k = j)) as [->|Hne].
    + rewrite lookup_insert_eq. by intros [= <-].
    + rewrite lookup_insert_ne by done. apply C.
  - exists u. repeat split; [| done]. by eapply Hcaps.
Qed.

Lemma caps_in_empty Q : caps_in Q ∅.
Proof. intros k u Hk. by rewrite lookup_empty in Hk. Qed.

Lemma Matches_suffix total r st st' :
  Matches total r st st' -> exists m, st.1 = m ++ st'.1.
Proof.
  induction 1 as [st|st Hl|c rest caps Hc|neg items c rest caps Hc
                  |a b st st1 st2 H1 IH1 H2 IH2|a b st st' H1 IH1
                  |a b st st' H1 IH1|g hi a st
                  |g lo hi a st st1 st2 Hhi H1 IH1 Hlt H2 IH2
                  |k a st st' H1 IH1|k u rest caps Hk]; simpl.
  - by exists [].
  - by exists [].
  - by exists [c].
  - by exists [c].
  - destruct IH1 as [m1 E1], IH2 as [m2 E2].
    exists (m1 ++ m2). by rewrite E1, E2, app_assoc.
  - done.
  - done.
  - by exists [].
  - destruct IH1 as [m1 E1], IH2 as [m2 E2].
    exists (m1 ++ m2). by rewrite E1, E2, app_assoc.
  - done.
  - by exists u.
Qed.

Lemma Matches_nonnull total r st st' :
  Matches total r st st' -> nonnull r = true ->
  (length st'.1 < length st.1)%nat.
Proof.
  induction 1 as [st|st Hl|c rest caps Hc|neg items c rest caps Hc
                  |a b st st1 st2 H1 IH1 H2 IH2|a b st st' H1 IH1
                  |a b st st' H1 IH1|g hi a st
                  |g lo hi a st st1 st2 Hhi H1 IH1 Hlt H2 IH2
                  |k a st st' H1 IH1|k u rest caps Hk];
    simpl; intros Hnn; try done; try lia.
  - destruct (Matches_suffix _ _ _ _ H1) as [m1 E1].
    destruct (Matches_suffix _ _ _ _ H2) as [m2 E2].
    apply (f_equal length) in E1, E2. rewrite length_app in E1, E2.
    apply orb_true_iff in Hnn as [Hn|Hn]; [specialize (IH1 Hn) | specialize (IH2 Hn)]; lia.
  - apply andb_true_iff in Hnn as [Hn _]. auto.
  - apply andb_true_iff in Hnn as [_ Hn]. auto.
  - destruct (Matches_suffix _ _ _ _ H2) as [m2 E2].
    apply (f_equal length) in E2. rewrite length_app in E2. lia.
  - auto.
Qed.

(** The last character read by a match satisfies [Q], unless nothing was
    read. *)
Lemma Matches_last (Q : Z -> Prop) total r st st' :
  Matches total r st st' -> last_in Q r ->
  st'.1 = st.1 \/ exists m c, st.1 = m ++ c :: st'.1 /\ Q c.
Proof.
  induction 1 as [st|st Hl|c rest caps Hc|neg items c rest caps Hc
                  |a b st st1 st2 H1 IH1 H2 IH2|a b st st' H1 IH1
                  |a b st st' H1 IH1|g hi a st
                  |g lo hi a st st1 st2 Hhi H1 IH1 Hlt H2 IH2
                  |k a st st' H1 IH1|k u rest caps Hk];
    simpl; intros Hlast; try (by left).
  - right. exists [], c. split; [done |]. by apply Hlast.
  - right. exists [], c. split; [done |]. by apply Hlast.
  - destruct Hlast as [Lb Nb]. right.
    destruct (IH2 Lb) as [E2|(m2 & c & E2 & Hc)].
    + pose proof (Matches_nonnull _ _ _ _ H2 Nb) as Hlt. rewrite E2 in Hlt. lia.
    + destruct (Matches_suffix _ _ _ _ H1) as [m1 E1].
      exists (m1 ++ m2), c. split; [| done].
      by rewrite E1, E2, <- app_assoc.
  - destruct Hlast as [La Lb]. auto.
  - destruct Hlast as [La Lb]. auto.
  - right. destruct (IH2 Hlast) as [E2|(m2 & c & E2 & Hc)].
    + destruct (IH1 Hlast) as [E1|(m1 & c & E1 & Hc)].
      * rewrite E1 in Hlt. lia.
      * exists m1, c. by rewrite E2.
    + destruct (Matches_suffix _ _ _ _ H1) as [m1 E1].
      exists (m1 ++ m2), c. split; [| done].
      by rewrite E1, E2, <- app_assoc.
  - auto.
Qed.

(** A sub-pattern without group [k] leaves capture [k] as it is. *)
Lemma Matches_keeps_cap k total r st st' :
  Matches total r st st' -> no_group k r -> st'.2 !! k = st.2 !! k.
Proof.
  induction 1 as [st|st Hl|c rest caps Hc|neg items c rest caps Hc
                  |a b st st1 st2 H1 IH1 H2 IH2|a b st st' H1 IH1
                  |a b st st' H1 IH1|g hi a st
                  |g lo hi a st st1 st2 Hhi H1 IH1 Hlt H2 IH2
                  |j a st st' H1 IH1|j u rest caps Hk];
    simpl; intros Hng; try done.
  - destruct Hng as [Na Nb]. rewrite IH2, IH1; done.
  - destruct Hng as [Na Nb]. auto.
  - destruct Hng as [Na Nb]. auto.
  - rewrite IH2, IH1; done.
  - destruct Hng as [Hne Na]. rewrite lookup_insert_ne by done. auto.
Qed.

(** Without [^] the length of the subject does not matter. *)
Lemma matches_no_bol total total' r : no_bol r ->
  forall st, matches total r st = matches total' r st.
Proof.
  induction r as [| | |neg items|a IHa b IHb|a IHa b IHb|g lo hi a IHa|k a IHa|k];
    cbn [matches no_bol]; intros Hnb st; try done.
  - destruct Hnb as [Na Nb]. rewrite (IHa Na).
    induction (matches total' a st) as [|x l IHl]; simpl; [done |].
    by rewrite (IHb Nb), IHl.
  - destruct Hnb as [Na Nb]. by rewrite (IHa Na), (IHb Nb).
  - specialize (IHa Hnb).
    assert (Hgo : forall fuel lo hi st,
              rep_go (matches total a) g lo hi fuel st
              = rep_go (matches total' a) g lo hi fuel st).
    { induction fuel as [|fuel IHf]; intros lo' hi' st0; simpl; [done |].
      rewrite IHa.
      assert (Hfm : forall l : list mstate,
                flat_map (fun st1 : mstate =>
                  if (length st1.1 <? length st0.1)%nat
                  then rep_go (matches total a) g (pred lo') (pred <$> hi') fuel st1
                  else []) l
                = flat_map (fun st1 : mstate =>
                  if (length st1.1 <? length st0.1)%nat
                  then rep_go (matches total' a) g (pred lo') (pred <$> hi') fuel st1
                  else []) l).
      { induction l as [|x l IHl]; simpl; [done |]. by rewrite IHf, IHl. }
      by rewrite Hfm. }
    apply Hgo.
  - by rewrite (IHa Hnb).
Qed.

(** ** Substitution *)

Lemma sub_go_S fuel total r tpl s :
  sub_go (S fuel) total r tpl s =
  match match_at total r s with
  | Some (rest, caps) =>
      if (length rest <? length s)%nat
      then expand tpl caps ++ sub_go fuel total r tpl rest
      else expand tpl caps
           ++ match s with
              | [] => []
              | c :: s' => c :: sub_go fuel total r tpl s'
              end
  | None => match s with
            | [] => []
            | c :: s' => c :: sub_go fuel total r tpl s'
            end
  end.
Proof. done. Qed.

Lemma match_at_suffix total r s rest caps :
  match_at total r s = Some (rest, caps) -> exists m, s = m ++ rest.
Proof.
  intros H. apply match_at_sound, Matches_suffix in H. done.
Qed.

Lemma suffix_ends_with (pre m rest : str) c :
  pre ++ [c] = m ++ rest -> rest <> [] -> exists pre', rest = pre' ++ [c].
Proof.
  intros Heq Hne. destruct rest as [|x rest] using rev_ind; [done |].
  rewrite app_assoc in Heq. apply app_inj_tail in Heq as [_ ->]. eauto.
Qed.

Lemma sub_go_nil (P : str -> Prop) fuel total r tpl :
  (forall total t st', match_at total r t = Some st' -> P (expand tpl st'.2)) ->
  sub_go fuel total r tpl [] = [] \/ P (sub_go fuel total r tpl []).
Proof.
  intros Hexp. destruct fuel as [|fuel]; [by left |].
  rewrite sub_go_S. destruct (match_at total r []) as [[rest caps]|] eqn:Hm;
    [| by left].
  right. apply Hexp in Hm. simpl in Hm.
  destruct (length rest <? length [])%nat eqn:Hlt.
  - apply Nat.ltb_lt in Hlt. simpl in Hlt. lia.
  - by rewrite app_nil_r.
Qed.

(** A property of the end of a string that every replacement has is kept
    by a substitution on a string whose last character has it. *)
Lemma sub_go_ends_char (P : str -> Prop) r tpl c :
  (forall x y, P y -> P (x ++ y)) ->
  (forall total t st', match_at total r t = Some st' -> P (expand tpl st'.2)) ->
  P [c] ->
  forall fuel total pre, P (sub_go fuel total r tpl (pre ++ [c])).
Proof.
  intros Hclo Hexp Hc.
  assert (Hnil : forall fuel total x, P x -> P (x ++ sub_go fuel total r tpl [])).
  { intros fuel total x Hx.
    destruct (sub_go_nil P fuel total r tpl Hexp) as [-> | Hp].
    - by rewrite app_nil_r.
    - by apply Hclo. }
  induction fuel as [|fuel IH]; intros total pre; [by apply Hclo |].
  rewrite sub_go_S.
  assert (Hcopy : P match pre ++ [c] with
                    | [] => []
                    | c0 :: s' => c0 :: sub_go fuel total r tpl s'
                    end).
  { destruct pre as [|c0 pre]; simpl.
    - apply (Hnil fuel total [c] Hc).
    - apply (Hclo [c0]), IH. }
  destruct (match_at total r (pre ++ [c])) as [[rest caps]|] eqn:Hm; [| done].
  destruct (length rest <? length (pre ++ [c]))%nat; [| by apply Hclo].
  destruct (match_at_suffix _ _ _ _ _ Hm) as [m Hs].
  destruct (decide (rest = [])) as [-> | Hne].
  - apply Hnil. by apply (Hexp _ _ _ Hm).
  - destruct (suffix_ends_with _ _ _ _ Hs Hne) as [pre' ->]. apply Hclo, IH.
Qed.

Lemma sub_ends_char (P : str -> Prop) r tpl c pre :
  (forall x y, P y -> P (x ++ y)) ->
  (forall total t st', match_at total r t = Some st' -> P (expand tpl st'.2)) ->
  P [c] ->
  P (Re.sub r tpl (pre ++ [c])).
Proof. intros H1 H2 H3. unfold Re.sub. by apply sub_go_ends_char. Qed.

Lemma ends_app M x y : ends M y -> ends M (x ++ y).
Proof.
  intros (pre & m & Hm & ->). exists (x ++ pre), m. by rewrite app_assoc.
Qed.

Lemma ends_here M m : m ∈ M -> ends M m.
Proof. intros Hm. by exists [], m. Qed.

Lemma ends_weaken M M' s : M ⊆ M' -> ends M s -> ends M' s.
Proof. intros HM (pre & m & Hm & ->). exists pre, m. split; [by apply HM | done]. Qed.

(** A suffix [m] that no match reaches stays at the end. *)
Lemma sub_go_tail total r tpl m :
  Forall (fun t => match_at total r t = None) (tails m) ->
  forall fuel, sub_go fuel total r tpl m = m.
Proof.
  intros Hno fuel. revert m Hno.
  induction fuel as [|fuel IH]; intros m Hno; [done |].
  rewrite sub_go_S.
  destruct m as [|c m'].
  - apply Forall_cons in Hno as [-> _]. done.
  - simpl in Hno. apply Forall_cons in Hno as [-> Hno]. by rewrite IH.
Qed.

Lemma sub_go_protected total r tpl m :
  (forall t' rest caps, t' <> [] ->
     match_at total r (t' ++ m) = Some (rest, caps) ->
     exists rest', rest = rest' ++ m) ->
  Forall (fun t => match_at total r t = None) (tails m) ->
  forall fuel pre, exists out, sub_go fuel total r tpl (pre ++ m) = out ++ m.
Proof.
  intros Hbefore Hno.
  induction fuel as [|fuel IH]; intros pre; [by exists pre |].
  destruct pre as [|c0 pre].
  { exists []. simpl app. by apply sub_go_tail. }
  rewrite sub_go_S.
  destruct (IH pre) as [out1 H1].
  destruct (match_at total r ((c0 :: pre) ++ m)) as [[rest caps]|] eqn:Hm.
  - destruct (Hbefore (c0 :: pre) rest caps) as [rest' ->]; [done | done |].
    destruct (IH rest') as [out2 H2].
    destruct (_ <? _)%nat.
    + exists (expand tpl caps ++ out2). by rewrite H2, app_assoc.
    + exists (expand tpl caps ++ c0 :: out1). simpl. rewrite H1.
      by rewrite <- app_assoc.
  - exists (c0 :: out1). simpl. by rewrite H1.
Qed.

Lemma sub_protected r tpl m pre :
  (forall total t' rest caps, t' <> [] ->
     match_at total r (t' ++ m) = Some (rest, caps) ->
     exists rest', rest = rest' ++ m) ->
  (forall total, Forall (fun t => match_at total r t = None) (tails m)) ->
  exists out, Re.sub r tpl (pre ++ m) = out ++ m.
Proof.
  intros H1 H2. unfold Re.sub. apply sub_go_protected; [apply H1 | apply H2].
Qed.

(** The last match is the suffix [m] itself. *)
Lemma sub_go_final total r tpl m caps :
  (forall t' rest caps', t' <> [] ->
     match_at total r (t' ++ m) = Some (rest, caps') ->
     exists rest', rest = rest' ++ m) ->
  m <> [] ->
  match_at total r m = Some ([], caps) ->
  match_at total r [] = None ->
  forall fuel pre, (length pre < fuel)%nat ->
    exists out, sub_go fuel total r tpl (pre ++ m) = out ++ expand tpl caps.
Proof.
  intros Hbefore Hne Hm Hnil.
  induction fuel as [|fuel IH]; intros pre Hf; [lia |].
  rewrite sub_go_S. destruct pre as [|c0 pre].
  { simpl app. rewrite Hm.
    assert (Hlt : (length (@nil Z) <? length m)%nat = true).
    { apply Nat.ltb_lt. destruct m; [done | simpl; lia]. }
    rewrite Hlt. exists [].
    destruct fuel as [|fuel]; [by rewrite app_nil_r |].
    rewrite sub_go_S, Hnil. by rewrite app_nil_r. }
  simpl in Hf.
  destruct (IH pre ltac:(lia)) as [out1 H1].
  destruct (match_at total r ((c0 :: pre) ++ m)) as [[rest caps']|] eqn:Hm'.
  - destruct (Hbefore (c0 :: pre) rest caps') as [rest' ->]; [done | done |].
    destruct (match_at_suffix _ _ _ _ _ Hm') as [x Hx].
    assert (Hlen : (length rest' <= length (c0 :: pre))%nat).
    { apply (f_equal length) in Hx. rewrite !length_app in Hx. lia. }
    destruct (_ <? _)%nat eqn:Hlt.
    + apply Nat.ltb_lt in Hlt. rewrite !length_app in Hlt.
      destruct (IH rest' ltac:(simpl in *; lia)) as [out2 H2].
      exists (expand tpl caps' ++ out2). by rewrite H2, app_assoc.
    + exists (expand tpl caps' ++ c0 :: out1). simpl. rewrite H1.
      by rewrite <- app_assoc.
  - exists (c0 :: out1). simpl. by rewrite H1.
Qed.

(** Matches that start before [m] end before [m] when the first character
    of [m] is not one the pattern reads. *)
Lemma split_before (t' m cons rest : str) :
  t' ++ m = cons ++ rest -> (length cons <= length t')%nat ->
  exists rest', rest = rest' ++ m.
Proof.
  intros Heq Hlen. exists (drop (length cons) t').
  apply (f_equal (drop (length cons))) in Heq.
  rewrite drop_app_length in Heq. rewrite <- Heq.
  rewrite drop_app_le by done. done.
Qed.

Lemma before_by_alphabet (Q : Z -> Prop) r c m' :
  leaves_in Q r -> ~ Q c ->
  forall total t' rest caps,
    match_at total r (t' ++ c :: m') = Some (rest, caps) ->
    exists rest', rest = rest' ++ c :: m'.
Proof.
  intros Hleaf Hc total t' rest caps Hm.
  apply match_at_sound in Hm.
  destruct (Matches_alphabet Q _ _ _ _ Hm Hleaf (caps_in_empty Q))
    as (cons & Heq & Hall & _).
  simpl in Heq. apply (split_before _ _ _ _ Heq).
  destruct (decide (length cons <= length t')%nat) as [|Hgt]; [done |].
  exfalso. apply Hc.
  assert (Hk : cons !! length t' = Some c).
  { assert (Hl : (t' ++ c :: m') !! length t' = Some c)
      by (by rewrite list_lookup_middle).
    rewrite Heq, lookup_app_l in Hl by lia. done. }
  by eapply (proj1 (Forall_lookup _ _) Hall).
Qed.

(** ... or when no character of [m] can end a match. *)
Lemma before_by_last (Q : Z -> Prop) r m :
  last_in Q r -> Forall (fun c => ~ Q c) m ->
  forall total t' rest caps,
    match_at total r (t' ++ m) = Some (rest, caps) ->
    exists rest', rest = rest' ++ m.
Proof.
  intros Hlast Hm total t' rest caps Hmatch.
  apply match_at_sound in Hmatch.
  destruct (Matches_last Q _ _ _ _ Hmatch Hlast) as [Heq|(cons & c & Heq & Hc)];
    simpl in Heq.
  { exists t'. done. }
  apply (split_before t' m (cons ++ [c]) rest).
  { by rewrite <- app_assoc. }
  rewrite length_app. simpl.
  destruct (decide (length cons + 1 <= length t')%nat) as [|Hgt]; [done |].
  exfalso.
  assert (Hk : (t' ++ m) !! length cons = Some c)
    by (by rewrite Heq, list_lookup_middle).
  rewrite lookup_app_r in Hk by lia.
  eapply (proj1 (Forall_lookup _ _) Hm); eauto.
Qed.

(** ** How [normalize] ends a string *)

Lemma no_match_tails r m :
  no_bol r ->
  Forall (fun t => match_at 0 r t = None) (tails m) ->
  forall total, Forall (fun t => match_at total r t = None) (tails m).
Proof.
  intros Hnb Hno total. eapply Forall_impl; [exact Hno |].
  intros t Ht. unfold match_at in *. by rewrite (matches_no_bol total 0%nat).
Qed.

(** A string that ends with [m] still does after a substitution whose
    pattern cannot read the first character of [m]. *)
Lemma ends_sub_unread M r tpl c m' x :
  c :: m' ∈ M ->
  no_bol r ->
  leaves_in (fun y => y <> c) r ->
  Forall (fun t => match_at 0 r t = None) (tails (c :: m')) ->
  ends M (Re.sub r tpl (x ++ c :: m')).
Proof.
  intros HM Hnb Hleaf Hno.
  destruct (sub_protected r tpl (c :: m') x) as [out ->].
  - intros total t' rest caps _ Hm.
    eapply (before_by_alphabet (fun y => y <> c)); [done | | done]. by intros H.
  - by apply no_match_tails.
  - by apply ends_app, ends_here.
Qed.

(** ... or whose matches cannot end with a character of [m]. *)
Lemma ends_sub_unended (Q : Z -> Prop) M r tpl m x :
  m ∈ M ->
  no_bol r ->
  last_in Q r ->
  Forall (fun c => ~ Q c) m ->
  Forall (fun t => match_at 0 r t = None) (tails m) ->
  ends M (Re.sub r tpl (x ++ m)).
Proof.
  intros HM Hnb Hlast HQ Hno.
  destruct (sub_protected r tpl m x) as [out ->].
  - intros total t' rest caps _ Hm. by eapply (before_by_last Q).
  - by apply no_match_tails.
  - by apply ends_app, ends_here.
Qed.

(** A string that ends with the character [c] ends, after a substitution,
    with [c] or with the end of a replacement. *)
Lemma ends_sub_char M r tpl c x :
  [c] ∈ M ->
  (forall total t st', match_at total r t = Some st' ->
     ends M (expand tpl st'.2)) ->
  ends M (Re.sub r tpl (x ++ [c])).
Proof.
  intros HM Hexp. apply (sub_ends_char (ends M)); [| done | by apply ends_here].
  intros y z. apply ends_app.
Qed.

(** The same when the replacement is a constant. *)
Lemma ends_sub_const M r u c x :
  [c] ∈ M -> u ∈ M -> ends M (Re.sub r [TLit u] (x ++ [c])).
Proof.
  intros Hc Hu. apply ends_sub_char; [done |].
  intros total t st' _. simpl. rewrite app_nil_r. by apply ends_here.
Qed.

Ltac mem := by repeat constructor.

Lemma ends_case M s (P : Prop) :
  ends M s -> (forall pre m, m ∈ M -> s = pre ++ m -> P) -> P.
Proof. intros (pre & m & Hm & ->) H. eauto. Qed.

(** Line 303. *)
Lemma step_stops x :
  ends [[Ch.kuten]] x -> ends [[Ch.kuten]] (Re.sub Pat.stops [TLit [Ch.kuten]] x).
Proof.
  intros (pre & m & Hm & ->). apply list_elem_of_singleton in Hm as ->.
  apply ends_sub_const; mem.
Qed.

(** Line 305. *)
Lemma step_stops_bang x :
  ends [[Ch.kuten]] x ->
  ends [[Ch.kuten]; [Ch.fbang]] (Re.sub Pat.stops_bang [TLit [Ch.fbang]] x).
Proof.
  intros (pre & m & Hm & ->). apply list_elem_of_singleton in Hm as ->.
  apply ends_sub_const; mem.
Qed.

(** Line 306. *)
Lemma step_stops_quest x :
  ends [[Ch.kuten]; [Ch.fbang]] x ->
  ends [[Ch.kuten]; [Ch.fbang]; [Ch.fquest]]
       (Re.sub Pat.stops_quest [TLit [Ch.fquest]] x).
Proof.
  intros (pre & m & Hm & ->).
  repeat (apply elem_of_cons in Hm as [-> | Hm]);
    [| | by apply elem_of_nil in Hm];
    apply ends_sub_const; mem.
Qed.

(** Line 307. *)
Lemma step_interrobang x :
  ends [[Ch.kuten]; [Ch.fbang]; [Ch.fquest]] x ->
  ends marks (Re.sub Pat.interrobang [TLit [Ch.bang; Ch.quest]] x).
Proof.
  intros (pre & m & Hm & ->). unfold marks.
  repeat (apply elem_of_cons in Hm as [-> | Hm]);
    [| | | by apply elem_of_nil in Hm];
    apply ends_sub_const; mem.
Qed.

Lemma in_chr c y : in_set false [C c] y = true -> y = c.
Proof.
  unfold in_set. simpl. rewrite orb_false_r. apply Z.eqb_eq.
Qed.

Ltac no_match :=
  repeat (apply Forall_cons_2; [by vm_compute |]); apply Forall_nil_2.

Ltac unread_leaves :=
  simpl; repeat split; intros y Hy ->; by vm_compute in Hy.

Ltac keep_unread :=
  apply ends_sub_unread; [mem | by repeat split | unread_leaves | no_match].

(** Line 309. *)
Lemma step_comma_emotion x :
  ends marks x ->
  ends marks (Re.sub Pat.comma_emotion
                [TLit [Ch.sp]; TGroup 1; TLit [Ch.kuten]] x).
Proof.
  intros (pre & m & Hm & ->). unfold marks in Hm.
  assert (Hexp : forall total t (st' : mstate),
            match_at total Pat.comma_emotion t = Some st' ->
            ends marks (expand [TLit [Ch.sp]; TGroup 1; TLit [Ch.kuten]] st'.2)).
  { intros total t st' _. simpl.
    exists (Ch.sp :: default [] (st'.2 !! 1%nat)), [Ch.kuten].
    split; [mem | done]. }
  repeat (apply elem_of_cons in Hm as [-> | Hm]);
    [| | | | by apply elem_of_nil in Hm].
  1-3: apply ends_sub_char; [mem | done].
  keep_unread.
Qed.

(** What group 1 of the pattern of line 310 captures. *)
Lemma Matches_chr total c st st' :
  Matches total (chr c) st st' -> st.1 = c :: st'.1 /\ st'.2 = st.2.
Proof.
  unfold chr. inversion 1; subst. simpl. split; [| done].
  f_equal. by apply in_chr.
Qed.

Lemma mark_emotion_group1 total t st' :
  match_at total Pat.mark_emotion t = Some st' ->
  exists g, st'.2 !! 1%nat = Some g /\ g ∈ marks.
Proof.
  intros Hm. apply match_at_sound in Hm. unfold Pat.mark_emotion in Hm.
  inversion Hm as [| | | |a b st0 st1 st2 H1 H2| | | | | |]; subst.
  assert (Hkeep : st'.2 !! 1%nat = st1.2 !! 1%nat).
  { eapply Matches_keeps_cap; [exact H2 |]. simpl. repeat split; done. }
  rewrite Hkeep. clear Hkeep H2 Hm.
  inversion H1 as [| | | | | | | | |k a st0 sta Ha|]; subst. simpl.
  rewrite lookup_insert_eq. eexists. split; [done |].
  assert (Hg : exists g, g ∈ marks /\ t = g ++ sta.1).
  { unfold marks.
    inversion Ha as [| | | | |? ? ? ? Hl|? ? ? ? Hr| | | |]; subst.
    { apply Matches_chr in Hl as [El _]. simpl in El.
      exists [Ch.kuten]. split; [mem | done]. }
    inversion Hr as [| | | | |? ? ? ? Hl|? ? ? ? Hr2| | | |]; subst.
    { apply Matches_chr in Hl as [El _]. simpl in El.
      exists [Ch.fbang]. split; [mem | done]. }
    inversion Hr2 as [| | | | |? ? ? ? Hl|? ? ? ? Hr3| | | |]; subst.
    { apply Matches_chr in Hl as [El _]. simpl in El.
      exists [Ch.fquest]. split; [mem | done]. }
    simpl in Hr3.
    inversion Hr3 as [| | | |? ? ? stm ? Hb Hq| | | | | |]; subst.
    apply Matches_chr in Hb as [Eb _], Hq as [Eq _]. simpl in Eb.
    exists [Ch.bang; Ch.quest]. split; [mem |]. simpl. by rewrite Eb, Eq. }
  destruct Hg as (g & Hg & ->). by rewrite take_consumed.
Qed.

(** Line 310. *)
Lemma step_mark_emotion x :
  ends marks x ->
  ends marks (Re.sub Pat.mark_emotion [TLit [Ch.sp]; TGroup 2; TGroup 1] x).
Proof.
  intros (pre & m & Hm & ->). unfold marks in Hm.
  assert (Hexp : forall total t (st' : mstate),
            match_at total Pat.mark_emotion t = Some st' ->
            ends marks (expand [TLit [Ch.sp]; TGroup 2; TGroup 1] st'.2)).
  { intros total t st' Hst.
    destruct (mark_emotion_group1 _ _ _ Hst) as (g & Hg & Hin). simpl.
    rewrite Hg. simpl. rewrite app_nil_r.
    exists (Ch.sp :: default [] (st'.2 !! 2%nat)), g. done. }
  repeat (apply elem_of_cons in Hm as [-> | Hm]);
    [| | | | by apply elem_of_nil in Hm].
  1-3: apply ends_sub_char; [mem | done].
  apply (ends_sub_unended (fun c => c = Ch.kuten)).
  - mem.
  - by repeat split.
  - simpl. repeat split. apply in_chr.
  - repeat constructor; done.
  - no_match.
Qed.

(** The last character is replaced when it is the one the pattern looks
    for. *)
Lemma match_at_chr total c s rest caps :
  match_at total (chr c) s = Some (rest, caps) -> s = c :: rest.
Proof.
  intros Hm. apply match_at_sound, Matches_chr in Hm as [Hm _]. done.
Qed.

Lemma ends_sub_chr_final M c u x :
  ends M u -> ends M (Re.sub (chr c) [TLit u] (x ++ [c])).
Proof.
  intros Hu. unfold Re.sub.
  destruct (sub_go_final (length (x ++ [c])) (chr c) [TLit u] [c] ∅)
    with (fuel := S (length (x ++ [c]))) (pre := x) as [out ->].
  - intros t' rest caps Ht Hm. apply match_at_chr in Hm.
    destruct t' as [|y t']; [done |]. injection Hm as _ <-. eauto.
  - done.
  - unfold match_at. simpl. unfold one_char, in_set. simpl.
    by rewrite Z.eqb_refl.
  - done.
  - rewrite length_app. simpl. lia.
  - simpl. rewrite app_nil_r. by apply ends_app.
Qed.

Lemma match_at_lit2 total a b s rest caps :
  match_at total (lit [a; b]) s = Some (rest, caps) -> s = a :: b :: rest.
Proof.
  intros Hm. apply match_at_sound in Hm. simpl in Hm.
  inversion Hm as [| | | |? ? ? stm ? Ha Hb| | | | | |]; subst.
  apply Matches_chr in Ha as [Ea _], Hb as [Eb _]. simpl in *.
  by rewrite Ea, Eb.
Qed.

Lemma ends_sub_lit2_final M a b u x :
  a <> b -> ends M u -> ends M (Re.sub (lit [a; b]) [TLit u] (x ++ [a; b])).
Proof.
  intros Hab Hu. unfold Re.sub.
  destruct (sub_go_final (length (x ++ [a; b])) (lit [a; b]) [TLit u] [a; b] ∅)
    with (fuel := S (length (x ++ [a; b]))) (pre := x) as [out ->].
  - intros t' rest caps Ht Hm. apply match_at_lit2 in Hm.
    destruct t' as [|y [|z t']]; [done | |].
    + simpl in Hm. injection Hm as _ Hm _. done.
    + injection Hm as _ _ <-. eauto.
  - done.
  - unfold match_at. simpl. unfold one_char, in_set. simpl.
    rewrite Z.eqb_refl. simpl. by rewrite Z.eqb_refl.
  - done.
  - rewrite length_app. simpl. lia.
  - simpl. rewrite app_nil_r. by apply ends_app.
Qed.

(** Line 312. *)
Lemma step_touten x :
  ends marks x ->
  ends marks (Re.sub (chr Ch.touten) [TLit [Ch.sp; Ch.touten; Ch.sp]] x).
Proof.
  intros (pre & m & Hm & ->). unfold marks in *.
  repeat (apply elem_of_cons in Hm as [-> | Hm]);
    [| | | | by apply elem_of_nil in Hm]; keep_unread.
Qed.

(** Line 313. *)
Lemma step_kuten x :
  ends marks x ->
  ends [[Ch.kuten; Ch.nl]; [Ch.fbang]; [Ch.fquest]; [Ch.bang; Ch.quest]]
       (Re.sub (chr Ch.kuten) [TLit [Ch.sp; Ch.kuten; Ch.nl]] x).
Proof.
  intros (pre & m & Hm & ->). unfold marks in *.
  repeat (apply elem_of_cons in Hm as [-> | Hm]);
    [| | | | by apply elem_of_nil in Hm]; [| keep_unread ..].
  apply ends_sub_chr_final. exists [Ch.sp], [Ch.kuten; Ch.nl]. split; [mem | done].
Qed.

(** Line 315. *)
Lemma step_dots x :
  ends [[Ch.kuten; Ch.nl]; [Ch.fbang]; [Ch.fquest]; [Ch.bang; Ch.quest]] x ->
  ends [[Ch.kuten; Ch.nl]; [Ch.fbang]; [Ch.fquest]; [Ch.bang; Ch.quest]]
       (Re.sub Pat.dots [TLit [Ch.sp; Ch.dot; Ch.dot; Ch.dot; Ch.sp]] x).
Proof.
  intros (pre & m & Hm & ->).
  repeat (apply elem_of_cons in Hm as [-> | Hm]);
    [| | | | by apply elem_of_nil in Hm]; keep_unread.
Qed.

(** Line 316. *)
Lemma step_fbang x :
  ends [[Ch.kuten; Ch.nl]; [Ch.fbang]; [Ch.fquest]; [Ch.bang; Ch.quest]] x ->
  ends [[Ch.kuten; Ch.nl]; [Ch.fbang; Ch.nl]; [Ch.fquest]; [Ch.bang; Ch.quest]]
       (Re.sub (chr Ch.fbang) [TLit [Ch.sp; Ch.fbang; Ch.nl]] x).
Proof.
  intros (pre & m & Hm & ->).
  repeat (apply elem_of_cons in Hm as [-> | Hm]);
    [| | | | by apply elem_of_nil in Hm]; [keep_unread | | keep_unread ..].
  apply ends_sub_chr_final. exists [Ch.sp], [Ch.fbang; Ch.nl]. split; [mem | done].
Qed.

(** Line 317. *)
Lemma step_fquest x :
  ends [[Ch.kuten; Ch.nl]; [Ch.fbang; Ch.nl]; [Ch.fquest]; [Ch.bang; Ch.quest]] x ->
  ends [[Ch.kuten; Ch.nl]; [Ch.fbang; Ch.nl]; [Ch.fquest; Ch.nl];
        [Ch.bang; Ch.quest]]
       (Re.sub (chr Ch.fquest) [TLit [Ch.sp; Ch.fquest; Ch.nl]] x).
Proof.
  intros (pre & m & Hm & ->).
  repeat (apply elem_of_cons in Hm as [-> | Hm]);
    [| | | | by apply elem_of_nil in Hm];
    [keep_unread | keep_unread | | keep_unread].
  apply ends_sub_chr_final. exists [Ch.sp], [Ch.fquest; Ch.nl]. split; [mem | done].
Qed.

(** Line 318. *)
Lemma step_bang_quest x :
  ends [[Ch.kuten; Ch.nl]; [Ch.fbang; Ch.nl]; [Ch.fquest; Ch.nl];
        [Ch.bang; Ch.quest]] x ->
  ends marked_lines
       (Re.sub (lit [Ch.bang; Ch.quest])
          [TLit [Ch.sp; Ch.bang; Ch.quest; Ch.nl]] x).
Proof.
  intros (pre & m & Hm & ->). unfold marked_lines, marks. simpl map.
  repeat (apply elem_of_cons in Hm as [-> | Hm]);
    [| | | | by apply elem_of_nil in Hm];
    [keep_unread | keep_unread | keep_unread |].
  apply ends_sub_lit2_final; [done |].
  exists [Ch.sp], [Ch.bang; Ch.quest; Ch.nl]. split; [mem | done].
Qed.

(** Lines 302 to 318: whatever the text, once the full stop is appended
    and the marks are merged and set apart, the string ends with a
    sentence-boundary mark and a newline. *)
Lemma normalize_marks_ends (line : str) :
  ends marked_lines (normalize_marks (line ++ [Ch.kuten])).
Proof.
  unfold normalize_marks.
  apply step_bang_quest, step_fquest, step_fbang, step_dots, step_kuten,
    step_touten, step_mark_emotion, step_comma_emotion, step_interrobang,
    step_stops_quest, step_stops_bang, step_stops.
  exists line, [Ch.kuten]. split; [mem | done].
Qed.

(** Line 320. *)
Lemma step_line_head x :
  ends marked_lines x ->
  ends marked_lines (Re.sub Pat.line_head [TLit [Ch.nl]] x).
Proof.
  intros (pre & m & Hm & ->). unfold marked_lines, marks in *. simpl map in *.
  repeat (apply elem_of_cons in Hm as [-> | Hm]);
    [| | | | by apply elem_of_nil in Hm]; keep_unread.
Qed.

(** A pattern that starts with [^] matches at the start of the subject or
    nowhere. *)
Lemma match_at_bol_later total a t :
  length t <> total -> match_at total (Seq Bol a) t = None.
Proof.
  intros Hl. unfold match_at. simpl.
  apply Nat.eqb_neq in Hl. by rewrite Hl.
Qed.

Lemma sub_go_bol_later total a tpl fuel : forall t,
  (length t < total)%nat -> sub_go fuel total (Seq Bol a) tpl t = t.
Proof.
  induction fuel as [|fuel IH]; intros t Hl; [done |].
  rewrite sub_go_S, match_at_bol_later by lia.
  destruct t as [|c t]; [done |]. rewrite IH; [done | simpl in Hl; lia].
Qed.

Lemma sub_bol a tpl s :
  Re.sub (Seq Bol a) tpl s = s
  \/ exists rest caps,
       match_at (length s) (Seq Bol a) s = Some (rest, caps)
       /\ Re.sub (Seq Bol a) tpl s = expand tpl caps ++ rest.
Proof.
  unfold Re.sub. rewrite sub_go_S.
  assert (Hcopy : match s with
                  | [] => []
                  | c :: s' => c :: sub_go (length s) (length s) (Seq Bol a) tpl s'
                  end = s).
  { destruct s as [|c s']; [done |]. rewrite sub_go_bol_later; [done | simpl; lia]. }
  rewrite Hcopy.
  destruct (match_at (length s) (Seq Bol a) s) as [[rest caps]|] eqn:Hm;
    [| by left].
  right. exists rest, caps. split; [done |].
  destruct (match_at_suffix _ _ _ _ _ Hm) as [m Hs].
  destruct (length rest <? length s)%nat eqn:Hlt.
  - apply Nat.ltb_lt in Hlt. by rewrite sub_go_bol_later.
  - apply Nat.ltb_ge in Hlt.
    assert (m = []) as ->.
    { apply (f_equal length) in Hs. rewrite length_app in Hs.
      destruct m; [done | simpl in Hs; lia]. }
    by rewrite Hs.
Qed.

Lemma suffix_of_two (pre : str) c d cons rest :
  pre ++ [c; d] = cons ++ rest ->
  rest = [] \/ rest = [d] \/ exists r, rest = r ++ [c; d].
Proof.
  intros Heq.
  destruct (decide (length cons <= length pre)%nat) as [Hle | Hgt].
  { right. right. by apply (split_before pre [c; d] cons rest). }
  destruct rest as [|z rest] using rev_ind; [by left |]. clear IHrest.
  right. left.
  assert (Hl : length (pre ++ [c; d]) = length (cons ++ rest ++ [z]))
    by (by rewrite Heq).
  rewrite !length_app in Hl. simpl in Hl.
  assert (rest = []) as -> by (destruct rest; [done | simpl in Hl; lia]).
  simpl in *. change [c; d] with ([c] ++ [d]) in Heq.
  rewrite app_assoc in Heq. by apply app_inj_tail in Heq as [_ ->].
Qed.

(** Line 322: what is left is a lone newline, or still ends with the last
    character of a mark and a newline. *)
Lemma step_leading x :
  ends marked_lines x ->
  Re.sub Pat.leading [] x = [Ch.nl]
  \/ exists pre c, c ∈ boundary_chars /\ Re.sub Pat.leading [] x = pre ++ [c; Ch.nl].
Proof.
  intros (pre & m & Hm & ->).
  assert (Hend : exists pre' c, c ∈ boundary_chars /\ pre ++ m = pre' ++ [c; Ch.nl]).
  { unfold marked_lines, marks in Hm. simpl map in Hm.
    repeat (apply elem_of_cons in Hm as [-> | Hm]);
      [| | | | by apply elem_of_nil in Hm].
    - exists pre, Ch.kuten. split; [mem | done].
    - exists pre, Ch.fbang. split; [mem | done].
    - exists pre, Ch.fquest. split; [mem | done].
    - exists (pre ++ [Ch.bang]), Ch.quest. split; [mem |]. by rewrite <- app_assoc. }
  clear Hm. destruct Hend as (pre' & c & Hc & ->).
  unfold Pat.leading.
  destruct (sub_bol (plus (Group 1
      (Seq (star (Set_ false [P is_space; C Ch.nl]))
           (plus (one [Ch.kuten; Ch.touten; Ch.fbang; Ch.fquest; Ch.bang;
                       Ch.quest; Ch.choon; Ch.ftilde]))))) []
      (pre' ++ [c; Ch.nl])) as [-> | (rest & caps & Hm & ->)]; [by eauto |].
  simpl expand. simpl app.
  apply match_at_sound in Hm.
  apply (Matches_last (fun y => y <> Ch.nl)) in Hm.
  2:{ simpl. repeat split; try done; intros z Hz ->; by vm_compute in Hz. }
  destruct Hm as [Heq | (cons & y & Heq & Hy)]; simpl in Heq.
  { rewrite Heq. eauto. }
  assert (Heq' : pre' ++ [c; Ch.nl] = (cons ++ [y]) ++ rest)
    by (by rewrite <- app_assoc).
  destruct (suffix_of_two _ _ _ _ _ Heq') as [-> | [-> | [r ->]]].
  - exfalso. apply Hy. rewrite app_nil_r in Heq'.
    change [c; Ch.nl] with ([c] ++ [Ch.nl]) in Heq'.
    rewrite app_assoc in Heq'. by apply app_inj_tail in Heq' as [_ ->].
  - by left.
  - right. eauto.
Qed.

(** What a back-reference and a repeated back-reference read. *)
Lemma Matches_backref total k r st st' :
  Matches total r st st' ->
  forall u, st.2 !! k = Some u ->
    (r = Backref k -> st'.2 = st.2 /\ st.1 = u ++ st'.1)
    /\ (forall g lo hi, r = Rep g lo hi (Backref k) ->
          st'.2 = st.2
          /\ exists n, (lo <= n)%nat /\ st.1 = copies n u ++ st'.1).
Proof.
  induction 1 as [st|st Hl|c rest caps Hc|neg items c rest caps Hc
                  |a b st st1 st2 H1 IH1 H2 IH2|a b st st' H1 IH1
                  |a b st st' H1 IH1|g hi a st
                  |g lo hi a st st1 st2 Hhi H1 IH1 Hlt H2 IH2
                  |j a st st' H1 IH1|j u' rest caps Hk];
    intros u Hu; (split; [try discriminate | try discriminate]).
  - intros g' lo' hi' [= <- <- <- ->]. split; [done |]. exists 0%nat. done.
  - intros g' lo' hi' [= <- <- <- ->].
    destruct (IH1 u Hu) as [IHa _]. destruct (IHa eq_refl) as [E1 E2].
    rewrite <- E1 in Hu.
    destruct (IH2 u Hu) as [_ IHr].
    destruct (IHr _ _ _ eq_refl) as (E3 & n & Hn & E4).
    split; [congruence |]. exists (S n). split; [lia |].
    simpl. by rewrite E2, E4, <- app_assoc.
  - intros [= ->]. simpl in *. split; [done |]. congruence.
Qed.

Lemma length_copies n u : length (copies n u) = (n * length u)%nat.
Proof. induction n as [|n IH]; simpl; [done |]. rewrite length_app. lia. Qed.

Lemma copies_snoc n u : copies (S n) u = copies n u ++ u.
Proof.
  induction n as [|n IH]; simpl; [by rewrite app_nil_r |].
  simpl in IH. by rewrite IH at 1; rewrite <- app_assoc.
Qed.

(** A match of the pattern of line 323: a unit [u] and three or more
    further copies of it, none with a newline. *)
Lemma repeated_match total t rest caps :
  match_at total Pat.repeated t = Some (rest, caps) ->
  exists u n,
    u <> [] /\ caps !! 1%nat = Some u /\ (3 <= n)%nat
    /\ t = (u ++ copies n u) ++ rest
    /\ Forall (fun c => c <> Ch.nl) (u ++ copies n u).
Proof.
  intros Hm. apply match_at_sound in Hm.
  assert (Hleaf : leaves_in (fun c => c <> Ch.nl) Pat.repeated) by (by simpl).
  pose proof (Matches_alphabet (fun c => c <> Ch.nl) _ _ _ _ Hm Hleaf
                (caps_in_empty _)) as Halpha.
  unfold Pat.repeated in Hm.
  inversion Hm as [| | | |a b st0 st1 st2 H1 H2| | | | | |]; subst.
  inversion H1 as [| | | | | | | | |k a st0 sta Ha|]; subst.
  destruct (Matches_suffix _ _ _ _ Ha) as [u Eu]. simpl in Eu.
  pose proof (Matches_nonnull _ _ _ _ Ha eq_refl) as Hlt. simpl in Hlt.
  assert (Hu : u <> []).
  { intros ->. simpl in Eu. rewrite Eu in Hlt. lia. }
  simpl in H2. rewrite Eu, take_consumed in H2.
  assert (Hk : (<[1%nat := u]> sta.2 : gmap nat str) !! 1%nat = Some u)
    by apply lookup_insert_eq.
  destruct (Matches_backref _ 1%nat _ _ _ H2 u Hk) as [_ Hrep].
  destruct (Hrep _ _ _ eq_refl) as (Ec & n & Hn & En). simpl in Ec, En.
  exists u, n. repeat split; try done.
  - rewrite Ec. apply lookup_insert_eq.
  - by rewrite Eu, En, <- app_assoc.
  - destruct Halpha as (m & Em & Fm & _). simpl in Em.
    assert (m = u ++ copies n u) as <-; [| done].
    rewrite Eu, En, app_assoc in Em. by apply app_inv_tail in Em.
Qed.

Lemma repeated_short total t :
  (length t < 4)%nat -> match_at total Pat.repeated t = None.
Proof.
  intros Hl. destruct (match_at total Pat.repeated t) as [[rest caps]|] eqn:Hm;
    [| done].
  destruct (repeated_match _ _ _ _ Hm) as (u & n & Hu & _ & Hn & Et & _).
  apply (f_equal length) in Et.
  rewrite !length_app, length_copies in Et.
  destruct u as [|c u]; [done |]. simpl in Et. nia.
Qed.

Lemma tails_length (t : str) : Forall (fun t' => (length t' <= length t)%nat) (tails t).
Proof.
  induction t as [|c t IH]; simpl.
  - by repeat constructor.
  - constructor; [done |]. eapply Forall_impl; [exact IH |]. simpl. lia.
Qed.

Lemma sub_go_repeated_short fuel total tpl t :
  (length t < 4)%nat -> sub_go fuel total Pat.repeated tpl t = t.
Proof.
  intros Hl. apply sub_go_tail.
  eapply Forall_impl; [apply tails_length |].
  intros t' Ht'. apply repeated_short. simpl in Ht'. lia.
Qed.

(** Line 323 keeps a last character and the newline after it. *)
Lemma sub_go_repeated_keeps total c :
  forall fuel pre, exists out,
    sub_go fuel total Pat.repeated [TGroup 1; TGroup 1; TGroup 1]
      (pre ++ [c; Ch.nl]) = out ++ [c; Ch.nl].
Proof.
  induction fuel as [|fuel IH]; intros pre; [by exists pre |].
  destruct pre as [|c0 pre].
  { exists []. simpl app. apply sub_go_repeated_short. simpl. lia. }
  rewrite sub_go_S.
  destruct (IH pre) as [out1 H1].
  destruct (match_at total Pat.repeated ((c0 :: pre) ++ [c; Ch.nl]))
    as [[rest caps]|] eqn:Hm.
  2:{ exists (c0 :: out1). simpl. by rewrite H1. }
  destruct (repeated_match _ _ _ _ Hm) as (u & n & Hu & Hcap & Hn & Et & Hnl).
  assert (Hexp : expand [TGroup 1; TGroup 1; TGroup 1] caps = u ++ u ++ u).
  { simpl. rewrite Hcap. simpl. by rewrite app_nil_r. }
  rewrite Hexp.
  assert (Hlt : (length rest <? length ((c0 :: pre) ++ [c; Ch.nl]))%nat = true).
  { apply Nat.ltb_lt. rewrite Et. rewrite !length_app.
    destruct u; [done | simpl; lia]. }
  rewrite Hlt.
  destruct (suffix_of_two _ _ _ _ _ Et) as [-> | [-> | [r ->]]].
  - exfalso. rewrite app_nil_r in Et.
    assert (Hin : Ch.nl ∈ u ++ copies n u).
    { rewrite <- Et. apply elem_of_app. right. mem. }
    by apply (proj1 (Forall_forall _ _) Hnl) in Hin.
  - rewrite sub_go_repeated_short by (simpl; lia).
    change [c; Ch.nl] with ([c] ++ [Ch.nl]) in Et.
    rewrite app_assoc in Et. apply app_inj_tail in Et as [Et _].
    destruct n as [|n]; [lia |]. rewrite copies_snoc in Et.
    destruct u as [|y u] using rev_ind; [done |]. clear IHu.
    rewrite !app_assoc in Et. apply app_inj_tail in Et as [_ <-].
    exists ((u ++ [c]) ++ (u ++ [c]) ++ u).
    by rewrite <- !app_assoc.
  - destruct (IH r) as [out2 H2]. exists ((u ++ u ++ u) ++ out2).
    by rewrite H2, <- !app_assoc.
Qed.

(** Line 323. *)
Lemma step_repeated x :
  x = [Ch.nl] \/ (exists pre c, c ∈ boundary_chars /\ x = pre ++ [c; Ch.nl]) ->
  Re.sub Pat.repeated [TGroup 1; TGroup 1; TGroup 1] x = [Ch.nl]
  \/ exists pre c, c ∈ boundary_chars
       /\ Re.sub Pat.repeated [TGroup 1; TGroup 1; TGroup 1] x
          = pre ++ [c; Ch.nl].
Proof.
  intros [-> | (pre & c & Hc & ->)]; [by left |].
  right. unfold Re.sub.
  destruct (sub_go_repeated_keeps (length (pre ++ [c; Ch.nl])) c
              (S (length (pre ++ [c; Ch.nl]))) pre) as [out ->].
  eauto.
Qed.

(** C9 does not hold as stated.  For the empty text, or a text of one
    emoji (U+1F600), the appended full stop is all the punctuation there
    is; line 322 strips it as a leading mark, and the result is a lone
    newline: it ends with no sentence-boundary mark, with or without the
    newline that follows a mark. *)
Lemma normalize_without_mark :
  normalize [] = [Ch.nl]
  /\ normalize [0x1F600%Z] = [Ch.nl]
  /\ ~ ends marked_lines (normalize [])
  /\ ~ ends marks (normalize []).
Proof.
  assert (Hn : normalize [] = [Ch.nl]) by (by vm_compute).
  split; [done |]. split; [by vm_compute |]. rewrite Hn.
  split; intros (pre & m & Hm & Heq); unfold marked_lines, marks in Hm;
    simpl map in Hm;
    repeat (apply elem_of_cons in Hm as [-> | Hm]);
    try (by apply elem_of_nil in Hm);
    destruct pre as [|? [|? ?]]; discriminate.
Qed.

(** C9, amended: for every text, the result of [normalize] is a lone
    newline (everything up to and including the final mark was stripped as
    leading punctuation), or it ends with the last character of a
    sentence-boundary mark (the full stop, the fullwidth exclamation or
    question mark, or the question mark of the ASCII pair) followed by a
    newline.  In either case it ends with a newline. *)
Theorem normalize_ends (line : str) :
  normalize line = [Ch.nl]
  \/ exists pre c, c ∈ boundary_chars /\ normalize line = pre ++ [c; Ch.nl].
Proof.
  unfold normalize, normalize_tail.
  apply step_repeated, step_leading, step_line_head, normalize_marks_ends.
Qed.
(** ** The list helpers and the filters *)

Lemma imap_pair_filter_length {A} (l : list A) (idxs : list nat) k :
  (length (filter (fun p : nat * A => p.1 ∉ idxs) (imap (fun i => pair (k + i)%nat) l))
   + length (filter (.∈ idxs) (seq k (length l))) = length l)%nat.
Proof.
  revert k. induction l as [|x l IH]; intros k; [done |].
  rewrite imap_cons. cbn [length seq]. rewrite !filter_cons. cbn [fst].
  rewrite Nat.add_0_r.
  specialize (IH (S k)).
  assert (imap ((fun i => pair (k + i)%nat) ∘ S) l
          = imap (fun i => pair (S k + i)%nat) l) as ->.
  { apply imap_ext. intros i y _. simpl. f_equal. lia. }
  destruct (decide (k ∈ idxs)); destruct (decide (k ∉ idxs)); try done;
    cbn [length]; lia.
Qed.

Lemma imap_pair_sublist {A} (l : list A) (idxs : list nat) k :
  sublist (map snd (filter (fun p : nat * A => p.1 ∉ idxs)
                      (imap (fun i => pair (k + i)%nat) l))) l.
Proof.
  revert k. induction l as [|x l IH]; intros k; [done |].
  rewrite imap_cons, filter_cons. cbn [fst].
  assert (imap ((fun i => pair (k + i)%nat) ∘ S) l
          = imap (fun i => pair (S k + i)%nat) l) as ->.
  { apply imap_ext. intros i y _. simpl. f_equal. lia. }
  destruct (decide _); cbn [map snd].
  - apply sublist_skip, IH.
  - apply sublist_cons, IH.
Qed.

(** X1: [dellist items indices] is a subsequence of [items]; it holds
    exactly the items whose position is not listed; and it is shorter than
    [items] by the number of positions of [items] that are listed, so that
    an index listed twice or out of range removes nothing more. *)
Theorem dellist_keeps_unlisted {A} (items : list A) (indices : list nat) :
  sublist (dellist items indices) items
  /\ (forall x, (x ∈ dellist items indices)
                <-> exists i, (i ∉ indices) /\ items !! i = Some x)
  /\ (length (dellist items indices)
      + length (filter (.∈ indices) (seq 0 (length items)))
      = length items)%nat.
Proof.
  split; [| split].
  - apply (imap_pair_sublist items indices 0).
  - intros x. apply elem_of_dellist.
  - unfold dellist. rewrite length_map.
    apply (imap_pair_filter_length items indices 0).
Qed.

Section FilterProps.

Variable cfg : settings.

Lemma str_in_elem_of (a : str) (l : list str) : str_in a l = true <-> a ∈ l.
Proof.
  unfold str_in, str_eqb. rewrite existsb_exists. split.
  - intros (x & Hin & Hx). apply bool_decide_eq_true in Hx as ->.
    by apply list_elem_of_In.
  - intros Hin. exists a. split; [by apply list_elem_of_In |].
    by apply bool_decide_eq_true.
Qed.

Lemma default_false_true (o : option bool) :
  default false o = true <-> o = Some true.
Proof. destruct o as [[]|]; simpl; split; congruence. Qed.

(** X2: [need_check] holds exactly when every part of speech that the
    [need] filter switches on occurs among the parts; parts that are
    absent from the filter or switched off are not required. *)
Theorem need_check_iff (parts : list str) :
  need_check cfg parts = true
  <-> forall part, need cfg !! part = Some true -> part ∈ parts.
Proof.
  unfold need_check. rewrite forallb_forall. split.
  - intros Hall part Hp.
    specialize (Hall (part, true)). simpl in Hall.
    apply str_in_elem_of, Hall, list_elem_of_In.
    by apply elem_of_map_to_list.
  - intros Hall [part b] Hin. simpl.
    apply list_elem_of_In, elem_of_map_to_list in Hin.
    destruct b; simpl; [| done].
    by apply str_in_elem_of, Hall.
Qed.

(** X3: [needless_check] holds exactly when no part of the sentence is
    switched on in the [needless] filter; it therefore holds for the
    concatenation of two sentences exactly when it holds for both. *)
Theorem needless_check_iff (parts parts' : list str) :
  (needless_check cfg parts = true
   <-> forall part, part ∈ parts -> needless cfg !! part <> Some true)
  /\ needless_check cfg (parts ++ parts')
     = needless_check cfg parts && needless_check cfg parts'.
Proof.
  split.
  - unfold needless_check. rewrite forallb_forall. split.
    + intros Hall part Hin Hp.
      specialize (Hall part (proj1 (list_elem_of_In _ _) Hin)).
      rewrite Hp in Hall. done.
    + intros Hall part Hin. apply list_elem_of_In, Hall in Hin.
      destruct (needless cfg !! part) as [[]|]; simpl; congruence.
  - unfold needless_check. apply forallb_app.
Qed.

Lemma dump_filter_cons w p words parts :
  dump_filter cfg (w :: words) (p :: parts)
  = if default false (dump cfg !! p)
    then (w :: (dump_filter cfg words parts).1,
          p :: (dump_filter cfg words parts).2)
    else dump_filter cfg words parts.
Proof.
  cbn [dump_filter]. destruct (dump_filter cfg words parts) as [dw dp].
  by destruct (default false _).
Qed.

Lemma dump_filter_zip (words parts : list str) :
  zip (dump_filter cfg words parts).1 (dump_filter cfg words parts).2
  = filter (fun wp : str * str => dump cfg !! wp.2 = Some true) (zip words parts)
  /\ length (dump_filter cfg words parts).1
     = length (dump_filter cfg words parts).2
  /\ sublist (dump_filter cfg words parts).1 words
  /\ sublist (dump_filter cfg words parts).2 parts
  /\ Forall (fun p => dump cfg !! p = Some true) (dump_filter cfg words parts).2.
Proof.
  revert parts. induction words as [|w words IH]; intros [|p parts];
    try (cbn [dump_filter fst snd zip zip_with length];
         rewrite ?filter_nil; repeat split;
         auto using sublist_nil_l, Forall_nil_2; done).
  rewrite dump_filter_cons. destruct (IH parts) as (Hz & Hl & Hw & Hp & Hd).
  cbn [zip zip_with]. rewrite filter_cons. cbn [snd].
  destruct (default false (dump cfg !! p)) eqn:Hdef.
  - apply default_false_true in Hdef.
    destruct (decide _); [| done]. cbn [fst snd zip zip_with length].
    repeat split; [by f_equal | by f_equal | by apply sublist_skip
                   | by apply sublist_skip | by constructor].
  - destruct (decide _) as [Heq|_].
    { apply default_false_true in Heq. congruence. }
    repeat split; [done | done | by apply sublist_cons | by apply sublist_cons | done].
Qed.

Lemma dump_filter_fixed (words parts : list str) :
  length words = length parts ->
  Forall (fun p => dump cfg !! p = Some true) parts ->
  dump_filter cfg words parts = (words, parts).
Proof.
  revert parts. induction words as [|w words IH]; intros [|p parts] Hl Hall;
    try done.
  rewrite dump_filter_cons. apply Forall_cons in Hall as [Hp Hall].
  rewrite Hp. simpl. rewrite IH by (simpl in Hl; congruence || done). done.
Qed.

(** X4: [dump_filter] keeps, in order, exactly the pairs of a word and its
    part whose part is switched on in the [dump] filter; a word without a
    part (or a part without a word) is dropped; the two lists it returns
    have the same length; and filtering again changes nothing. *)
Theorem dump_filter_keeps_dumped (words parts : list str) :
  let r := dump_filter cfg words parts in
  zip r.1 r.2
  = filter (fun wp : str * str => dump cfg !! wp.2 = Some true) (zip words parts)
  /\ length r.1 = length r.2
  /\ sublist r.1 words /\ sublist r.2 parts
  /\ dump_filter cfg r.1 r.2 = r.
Proof.
  intros r. subst r.
  destruct (dump_filter_zip words parts) as (Hz & Hl & Hw & Hp & Hd).
  repeat split; try done.
  rewrite dump_filter_fixed by done. by destruct (dump_filter cfg words parts).
Qed.

End FilterProps.
(** ** The tagger's nodes *)

Lemma split_on_nonempty sep s : split_on sep s <> [].
Proof.
  induction s as [|c s IH]; [done |]. cbn [split_on].
  destruct (c =? sep)%Z; [done |]. by destruct (split_on sep s).
Qed.

Lemma split_on_no_sep sep s : sep ∉ s -> split_on sep s = [s].
Proof.
  induction s as [|c s IH]; intros Hs; [done |]. cbn [split_on].
  apply not_elem_of_cons in Hs as [Hc Hs].
  destruct (Z.eqb_spec c sep) as [->|_]; [done |]. by rewrite IH.
Qed.

Lemma split_on_single sep s x : split_on sep s = [x] -> x = s.
Proof.
  revert x. induction s as [|c s IH]; intros x; cbn [split_on].
  - congruence.
  - destruct (c =? sep)%Z.
    + intros [= <- Hs]. by destruct (split_on_nonempty sep s).
    + pose proof (split_on_nonempty sep s) as Hne.
      destruct (split_on sep s) as [|h t] eqn:Hsp; [done |].
      intros [= <- ->]. by rewrite (IH h eq_refl).
Qed.

(** The first field of a feature that has no second field is the whole
    feature. *)
Lemma feature_one_field (f : str) :
  split_on Ch.comma f !! 1%nat = None ->
  default [] (split_on Ch.comma f !! 0%nat) = f.
Proof.
  destruct (split_on Ch.comma f) as [|h [|h' t]] eqn:Hsp; try done.
  - by destruct (split_on_nonempty Ch.comma f).
  - intros _. simpl. by apply split_on_single in Hsp.
Qed.

Lemma str_eqb_true a b : str_eqb a b = true -> a = b.
Proof. apply bool_decide_eq_true. Qed.

Lemma str_eqb_refl a : str_eqb a a = true.
Proof. by apply bool_decide_eq_true. Qed.

Ltac tok_in := apply list_elem_of_In; vm_compute; tauto.

(** One node: it is skipped, or gives its surface and a token of the
    vocabulary, or raises because its feature is a bare noun, verb or
    adjective. *)
Lemma parse_node_cases (n : node) :
  match parse_node n with
  | OK None => feature n ∉ bare_features
  | OK (Some (w, t)) =>
      w = surface n /\ t ∈ token_names /\ feature n ∉ bare_features
  | Raise e => e = IndexError InFeature /\ feature n ∈ bare_features
  end.
Proof.
  destruct (decide (feature n ∈ bare_features)) as [Hb|Hb].
  - unfold parse_node.
    unfold bare_features in Hb. rewrite !elem_of_cons in Hb.
    destruct Hb as [Hf|[Hf|[Hf|Hf]]]; [| | | by apply elem_of_nil in Hf];
      rewrite Hf; (split; [reflexivity | tok_in]).
  - unfold parse_node.
    destruct (split_on Ch.comma (feature n) !! 1%nat) as [x|] eqn:H1.
    + repeat case_match; simplify_eq; try done;
        repeat split; try done; tok_in.
    + pose proof (feature_one_field _ H1) as H0. rewrite H0.
      repeat case_match; simplify_eq; try done;
        try (repeat split; try done; tok_in);
        exfalso; apply Hb;
        match goal with
        | H : str_eqb (feature n) _ = true |- _ =>
            apply str_eqb_true in H; rewrite H; tok_in
        end.
Qed.

Lemma parse_nodes_cases (ns : list node) :
  match parse_nodes ns with
  | OK (words, parts) =>
      length words = length parts
      /\ Forall (.∈ token_names) parts
      /\ sublist words (map surface ns)
      /\ Forall (fun n => feature n ∉ bare_features) ns
  | Raise e =>
      e = IndexError InFeature
      /\ Exists (fun n => feature n ∈ bare_features) ns
  end.
Proof.
  induction ns as [|n ns IH]; cbn [parse_nodes].
  { repeat split; auto using sublist_nil_l. }
  pose proof (parse_node_cases n) as Hn.
  destruct (parse_node n) as [[[w t]|]|e].
  - destruct (parse_nodes ns) as [[words parts]|e].
    + destruct Hn as (-> & Ht & Hb), IH as (Hl & Hp & Hs & Hall).
      cbn [length map]. repeat split; [by f_equal | by constructor
        | by apply sublist_skip | by constructor].
    + destruct IH as [-> Hex]. split; [done | by apply Exists_cons_tl].
  - destruct (parse_nodes ns) as [[words parts]|e].
    + destruct IH as (Hl & Hp & Hs & Hall).
      cbn [map]. repeat split; [done | done | by apply sublist_cons
        | by constructor].
    + destruct IH as [-> Hex]. split; [done | by apply Exists_cons_tl].
  - destruct Hn as [-> Hb]. split; [done | by apply Exists_cons_hd].
Qed.

Section ParseProps.

Variable E : collaborators.

(** X5: [parse] raises [IndexError], at [feature[1]], exactly when the
    tagger yields a node whose feature is the bare word for noun, verb or
    adjective, with no second field; for any other output of the tagger it
    returns, and it never changes the listener. *)
Theorem parse_index_error (line : str) (s : state) :
  if decide (Exists (fun n => feature n ∈ bare_features) (parseToNode E line))
  then parse E line s = Exc (IndexError InFeature) s
  else exists wp, parse E line s = Val wp s.
Proof.
  unfold parse. pose proof (parse_nodes_cases (parseToNode E line)) as Hc.
  destruct (decide _) as [Hex|Hex].
  - destruct (parse_nodes (parseToNode E line)) as [[words parts]|e].
    + destruct Hc as (_ & _ & _ & Hall). exfalso.
      apply Exists_exists in Hex as (n & Hin & Hb).
      by apply (proj1 (Forall_forall _ _) Hall n Hin).
    + by destruct Hc as [-> _].
  - destruct (parse_nodes (parseToNode E line)) as [wp|e]; [by eexists |].
    by destruct Hc as [_ Hc].
Qed.

(** X6: when [parse] returns, the words and the parts are aligned (the
    two lists have the same length), every part is one of the nineteen
    tokens, and the words are surfaces of the tagger's nodes in the
    tagger's order. *)
Theorem parse_aligned (line : str) (s s' : state) (words parts : list str) :
  parse E line s = Val (words, parts) s' ->
  s' = s
  /\ length words = length parts
  /\ Forall (.∈ token_names) parts
  /\ sublist words (map surface (parseToNode E line)).
Proof.
  unfold parse. pose proof (parse_nodes_cases (parseToNode E line)) as Hc.
  destruct (parse_nodes (parseToNode E line)) as [[ws ps]|e]; [| done].
  intros [= -> -> ->]. by destruct Hc as (? & ? & ? & _).
Qed.

End ParseProps.

Lemma parse_aligned_witness :
  parse Sample.toy (Sample.hai ++ [Ch.sp; Ch.kuten; Ch.nl]) Sample.new_state
  = Val ([Sample.hai; [Ch.kuten]], [py "impression_verb"; py "phrase_point"])
        Sample.new_state
  /\ length [Sample.hai; [Ch.kuten]]
     = length [py "impression_verb"; py "phrase_point"].
Proof.
  assert (H : parse Sample.toy (Sample.hai ++ [Ch.sp; Ch.kuten; Ch.nl])
                Sample.new_state
              = Val ([Sample.hai; [Ch.kuten]],
                     [py "impression_verb"; py "phrase_point"])
                    Sample.new_state) by (vm_compute; reflexivity).
  split; [exact H |].
  exact (proj1 (proj2 (parse_aligned Sample.toy _ _ _ _ _ H))).
Defined.
(** ** Searching and substituting *)

Lemma search_from_true total r s :
  search_from total r s = true <->
  exists t, t ∈ tails s /\ is_Some (match_at total r t).
Proof.
  induction s as [|c s IH]; cbn [search_from tails].
  - destruct (match_at total r []) eqn:Hm; split.
    + intros _. exists []. split; [by left | by eexists].
    + done.
    + done.
    + intros (t & Ht & Hs). apply list_elem_of_singleton in Ht as ->.
      rewrite Hm in Hs. by destruct Hs.
  - destruct (match_at total r (c :: s)) eqn:Hm; split.
    + intros _. exists (c :: s). split; [by left | by eexists].
    + done.
    + intros Hs. apply IH in Hs as (t & Ht & Hs). exists t.
      split; [by right | done].
    + intros (t & Ht & Hs). apply IH.
      apply elem_of_cons in Ht as [->|Ht].
      * rewrite Hm in Hs. by destruct Hs.
      * by exists t.
Qed.

Lemma tails_suffix (s t : str) : t ∈ tails s -> exists pre, s = pre ++ t.
Proof.
  induction s as [|c s IH]; cbn [tails].
  - intros Ht. apply list_elem_of_singleton in Ht as ->. by exists [].
  - intros Ht. apply elem_of_cons in Ht as [->|Ht]; [by exists [] |].
    destruct (IH Ht) as [pre ->]. by exists (c :: pre).
Qed.

Lemma match_at_set total neg items s :
  match_at total (Set_ neg items) s
  = match s with
    | c :: rest => if in_set neg items c then Some (rest, ∅) else None
    | [] => None
    end.
Proof.
  unfold match_at. cbn [matches]. unfold one_char. cbn [fst snd].
  destruct s as [|c rest]; [done |]. by destruct (in_set neg items c).
Qed.

(** Searching for one character of a class. *)
Lemma search_set neg items s :
  Re.search (Set_ neg items) s = existsb (in_set neg items) s.
Proof.
  unfold Re.search. generalize (length s) as total. intros total.
  induction s as [|c s IH]; cbn [search_from existsb].
  - by rewrite match_at_set.
  - rewrite match_at_set. destruct (in_set neg items c); [done |].
    by rewrite IH.
Qed.

Lemma Matches_seq_inv total a b st st2 :
  Matches total (Seq a b) st st2 ->
  exists st1, Matches total a st st1 /\ Matches total b st1 st2.
Proof. inversion 1; subst; eauto. Qed.

Lemma Matches_alt_inv total a b st st' :
  Matches total (Alt a b) st st' ->
  Matches total a st st' \/ Matches total b st st'.
Proof. inversion 1; subst; eauto. Qed.

Lemma Matches_group_inv total k a st st' :
  Matches total (Group k a) st st' ->
  exists st1, Matches total a st st1 /\ st'.1 = st1.1.
Proof. inversion 1; subst; eauto. Qed.

(** A match of a literal starts with the literal's first character. *)
Lemma Matches_lit_head total c u st st' :
  Matches total (lit (c :: u)) st st' -> exists rest, st.1 = c :: rest.
Proof.
  destruct u as [|c' u]; cbn [lit].
  - intros H. apply Matches_chr in H as [H _]. eauto.
  - intros H. apply Matches_seq_inv in H as (st1 & H1 & _).
    apply Matches_chr in H1 as [H1 _]. eauto.
Qed.

Lemma search_alnum (t : str) : Re.search alnum t = existsb ascii_alnum t.
Proof. exact (search_set false _ t). Qed.

Section CheckProps.

Variable E : collaborators.

(** A URL starts with the scheme, hence with the letter f or h. *)
Lemma url_starts_with_letter total t st' :
  match_at total (url E) t = Some st' ->
  exists c rest, t = c :: rest /\ ascii_alnum c = true.
Proof.
  intros H. apply match_at_sound in H. unfold url, url_scheme in H.
  apply Matches_group_inv in H as (st1 & H & _).
  apply Matches_seq_inv in H as (st2 & H & _).
  apply Matches_group_inv in H as (st3 & H & _).
  assert (exists c rest, t = c :: rest /\ (c = 102 \/ c = 104)%Z)
    as (c & rest & -> & Hc).
  { apply Matches_alt_inv in H as [H|H];
      [| apply Matches_alt_inv in H as [H|H]];
      apply Matches_lit_head in H as [rest H]; simpl in H; eauto. }
  exists c, rest. split; [done |]. by destruct Hc as [-> | ->].
Qed.

Lemma existsb_suffix (f : Z -> bool) (pre t : str) :
  existsb f t = true -> existsb f (pre ++ t) = true.
Proof. intros H. rewrite existsb_app, H. apply orb_true_r. Qed.

Lemma url_needs_alnum (t : str) :
  Re.search (url E) t = true -> existsb ascii_alnum t = true.
Proof.
  unfold Re.search. intros H.
  apply search_from_true in H as (t' & Hin & [st' Hm]).
  apply url_starts_with_letter in Hm as (c & rest & -> & Hc).
  apply tails_suffix in Hin as [pre ->].
  apply existsb_suffix. simpl. by rewrite Hc.
Qed.

(** X7: the URL test of [check] never decides: a text in which the URL
    pattern is found holds an ASCII letter, which the third test rejects
    as well.  [check] accepts a text exactly when no hash tag is found in
    it and it holds no ASCII letter or digit. *)
Theorem check_without_url_test (t : str) :
  (Re.search (url E) t = true -> existsb ascii_alnum t = true)
  /\ check_text E t
     = negb (Re.search hashtag t) && negb (existsb ascii_alnum t).
Proof.
  split; [apply url_needs_alnum |].
  unfold check_text. pose proof (url_needs_alnum t) as Hu.
  rewrite search_alnum.
  destruct (Re.search (url E) t).
  - rewrite Hu by done. by rewrite andb_false_r.
  - destruct (Re.search hashtag t); [done |].
    by destruct (existsb _ t).
Qed.

Lemma Matches_set_inv total neg items st st' :
  Matches total (Set_ neg items) st st' ->
  exists c, st.1 = c :: st'.1 /\ in_set neg items c = true.
Proof. inversion 1; subst; eauto. Qed.

(** A hash tag holds a number sign, of either width. *)
Lemma hashtag_has_sign total t st' :
  match_at total hashtag t = Some st' -> Ch.hash ∈ t \/ Ch.fhash ∈ t.
Proof.
  intros H. apply match_at_sound in H. unfold hashtag in H.
  apply Matches_seq_inv in H as (st1 & H1 & H).
  apply Matches_seq_inv in H as (st2 & H & _).
  apply Matches_suffix in H1 as [m Hm]. simpl in Hm.
  apply Matches_set_inv in H as (c & Hc & Hin).
  assert (c ∈ t) as Hct.
  { rewrite Hm, Hc. apply elem_of_app. right. by left. }
  unfold one, in_set in Hin. simpl in Hin.
  destruct (Z.eqb_spec c Ch.hash) as [->|_]; [by left |].
  destruct (Z.eqb_spec c Ch.fhash) as [->|_]; [by right | done].
Qed.

Lemma hashtag_needs_sign (t : str) :
  Re.search hashtag t = true -> Ch.hash ∈ t \/ Ch.fhash ∈ t.
Proof.
  unfold Re.search. intros H.
  apply search_from_true in H as (t' & Hin & [st' Hm]).
  apply tails_suffix in Hin as [pre ->].
  apply hashtag_has_sign in Hm as [Hm|Hm]; [left | right];
    apply elem_of_app; by right.
Qed.

Lemma existsb_false_Forall (f : Z -> bool) (t : str) :
  existsb f t = false <-> Forall (fun c => f c = false) t.
Proof.
  induction t as [|c t IH]; simpl; [by split |].
  rewrite orb_false_iff, Forall_cons, IH. done.
Qed.

(** X8: a text that [check] accepts holds no ASCII letter or digit; and
    [check] accepts every text that holds none and no number sign of
    either width. *)
Theorem check_accepts_plain_text (t : str) :
  (check_text E t = true -> Forall (fun c => ascii_alnum c = false) t)
  /\ (Forall (fun c => ascii_alnum c = false) t ->
      Ch.hash ∉ t -> Ch.fhash ∉ t -> check_text E t = true).
Proof.
  split.
  - unfold check_text. intros H.
    destruct (Re.search (url E) t); [done |].
    destruct (Re.search hashtag t); [done |].
    destruct (Re.search alnum t) eqn:Ha; [done |].
    rewrite search_alnum in Ha.
    by apply existsb_false_Forall in Ha.
  - intros Hall Hh Hf. apply existsb_false_Forall in Hall.
    unfold check_text.
    destruct (Re.search (url E) t) eqn:Hu.
    { apply url_needs_alnum in Hu. congruence. }
    destruct (Re.search hashtag t) eqn:Ht.
    { apply hashtag_needs_sign in Ht as [?|?]; done. }
    by rewrite search_alnum, Hall.
Qed.

End CheckProps.

Lemma check_accepts_plain_text_witness :
  Forall (fun c => ascii_alnum c = false) Sample.hai
  /\ check_text Sample.toy Sample.hai = true.
Proof.
  assert (H : Forall (fun c => ascii_alnum c = false) Sample.hai)
    by (repeat constructor).
  split; [exact H |].
  apply (proj2 (check_accepts_plain_text Sample.toy Sample.hai) H);
    vm_compute; intros Hin;
    repeat (apply elem_of_cons in Hin as [Hin|Hin]; [discriminate |]);
    by apply elem_of_nil in Hin.
Defined.
(** ** Removing the user names *)

(** A substitution by the empty string only deletes. *)
Lemma sub_go_deletes r fuel : forall total s,
  sublist (sub_go fuel total r [] s) s.
Proof.
  induction fuel as [|fuel IH]; intros total s; [done |].
  rewrite sub_go_S.
  assert (Hcopy : sublist match s with
                          | [] => []
                          | c :: s' => c :: sub_go fuel total r [] s'
                          end s).
  { destruct s as [|c s']; [done |]. apply sublist_skip, IH. }
  destruct (match_at total r s) as [[rest caps]|] eqn:Hm; [| done].
  cbn [expand flat_map app].
  destruct (length rest <? length s)%nat; [| done].
  apply match_at_suffix in Hm as [m ->].
  apply sublist_inserts_l, IH.
Qed.

Lemma sub_go_no_match total r tpl s fuel :
  (forall t, t ∈ tails s -> match_at total r t = None) ->
  sub_go fuel total r tpl s = s.
Proof.
  intros H. apply sub_go_tail. by apply Forall_forall.
Qed.

Section UserNameProps.

Variable E : collaborators.

(** A user name starts with an at sign, of either width. *)
Lemma username_has_at total t st' :
  match_at total (username E) t = Some st' -> Ch.at_ ∈ t \/ Ch.fat ∈ t.
Proof.
  intros H. apply match_at_sound in H. unfold username in H.
  apply Matches_seq_inv in H as (st1 & H1 & H).
  apply Matches_seq_inv in H as (st2 & H & _).
  apply Matches_suffix in H1 as [m Hm]. simpl in Hm.
  apply Matches_group_inv in H as (st3 & H & _).
  assert (exists c, c ∈ t /\ (c = Ch.at_ \/ c = Ch.fat)) as (c & Hin & [->| ->]);
    [| by left | by right].
  apply Matches_alt_inv in H as [H|H]; apply Matches_chr in H as [H _];
    eexists; (split; [rewrite Hm, H; apply elem_of_app; right; by left |]);
    auto.
Qed.

(** X9: [del_username] only deletes: what it returns is a subsequence of
    the text, hence never longer. *)
Theorem del_username_only_deletes (t : str) :
  sublist (del_username E t) t
  /\ (length (del_username E t) <= length t)%nat.
Proof.
  assert (H : sublist (del_username E t) t) by apply sub_go_deletes.
  split; [done | by apply sublist_length].
Qed.

(** X10: a text without an at sign, of either width, names no user:
    [del_username] returns it as it is. *)
Theorem del_username_without_at (t : str) :
  Ch.at_ ∉ t -> Ch.fat ∉ t -> del_username E t = t.
Proof.
  intros Ha Hf. unfold del_username, Re.sub. apply sub_go_no_match.
  intros t' Hin.
  destruct (match_at (length t) (username E) t') as [st'|] eqn:Hm; [| done].
  apply tails_suffix in Hin as [pre ->].
  apply username_has_at in Hm as [Hm|Hm]; exfalso; [apply Ha | apply Hf];
    apply elem_of_app; by right.
Qed.

End UserNameProps.

Lemma del_username_without_at_witness :
  del_username Sample.toy Sample.hai = Sample.hai.
Proof.
  apply del_username_without_at; vm_compute; intros Hin;
    repeat (apply elem_of_cons in Hin as [Hin|Hin]; [discriminate |]);
    by apply elem_of_nil in Hin.
Defined.
(** ** The characters of a normalized text *)

(** What a match leaves to read, and what it captures, is made of
    characters of the subject. *)
Lemma Matches_in (Q : Z -> Prop) total r st st' :
  Matches total r st st' -> Forall Q st.1 -> caps_in Q st.2 ->
  Forall Q st'.1 /\ caps_in Q st'.2.
Proof.
  induction 1 as [st|st _|c rest caps _|neg items c rest caps _
                  |a b st st1 st2 _ IH1 _ IH2|a b st st' _ IH|a b st st' _ IH
                  |greedy hi a st|greedy lo hi a st st1 st2 _ _ IH1 _ _ IH2
                  |k a st st' _ IH|k u rest caps Hk]; intros Hs Hc;
    cbn [fst snd] in *; try done.
  - by apply Forall_cons in Hs as [_ Hs].
  - by apply Forall_cons in Hs as [_ Hs].
  - destruct (IH1 Hs Hc) as [H1 H2]. by apply IH2.
  - by apply IH.
  - by apply IH.
  - destruct (IH1 Hs Hc) as [H1 H2]. by apply IH2.
  - destruct (IH Hs Hc) as [H1 H2]. split; [done |].
    intros j u Hj. destruct (decide (j = k)) as [->|Hne].
    + rewrite lookup_insert_eq in Hj. injection Hj as <-.
      by apply Forall_take.
    + rewrite lookup_insert_ne in Hj by done. by apply (H2 j).
  - apply Forall_app in Hs as [_ Hs]. done.
Qed.

Lemma expand_in (Q : Z -> Prop) tpl caps :
  (forall u, (TLit u ∈ tpl) -> Forall Q u) -> caps_in Q caps ->
  Forall Q (expand tpl caps).
Proof.
  intros Hl Hc. unfold expand. induction tpl as [|t tpl IH]; [done |].
  cbn [flat_map]. apply Forall_app. split.
  - destruct t as [u|k].
    + apply Hl. by left.
    + destruct (caps !! k) as [u|] eqn:Hk; simpl; [by apply (Hc k) | done].
  - apply IH. intros u Hu. apply Hl. by right.
Qed.

(** A substitution whose template is made of characters of [Q] keeps a
    text within [Q]. *)
Lemma sub_go_in (Q : Z -> Prop) r tpl :
  (forall u, (TLit u ∈ tpl) -> Forall Q u) ->
  forall fuel total s, Forall Q s -> Forall Q (sub_go fuel total r tpl s).
Proof.
  intros Hl. induction fuel as [|fuel IH]; intros total s Hs; [done |].
  rewrite sub_go_S.
  assert (Hcopy : Forall Q match s with
                           | [] => []
                           | c :: s' => c :: sub_go fuel total r tpl s'
                           end).
  { destruct s as [|c s']; [done |]. apply Forall_cons in Hs as [Hc Hs].
    constructor; [done | by apply IH]. }
  destruct (match_at total r s) as [[rest caps]|] eqn:Hm; [| done].
  apply match_at_sound in Hm.
  destruct (Matches_in Q _ _ _ _ Hm Hs (caps_in_empty Q)) as [Hrest Hcaps].
  cbn [fst snd] in *.
  destruct (length rest <? length s)%nat; apply Forall_app;
    (split; [by apply expand_in |]); [by apply IH | done].
Qed.

Lemma sub_in (Q : Z -> Prop) r tpl s :
  (forall u, (TLit u ∈ tpl) -> Forall Q u) ->
  Forall Q s -> Forall Q (Re.sub r tpl s).
Proof. intros Hl Hs. by apply sub_go_in. Qed.

(** Replacing every character of a class by a fixed text. *)
Lemma sub_go_set neg items u : forall s fuel total,
  (length s < fuel)%nat ->
  sub_go fuel total (Set_ neg items) [TLit u] s
  = flat_map (fun c => if in_set neg items c then u else [c]) s.
Proof.
  induction s as [|c s IH]; intros fuel total Hf;
    (destruct fuel as [|fuel]; [simpl in Hf; lia |]);
    rewrite sub_go_S, match_at_set; [done |].
  cbn [flat_map length] in *.
  destruct (in_set neg items c).
  - assert ((length s <? S (length s))%nat = true) as -> by (apply Nat.ltb_lt; lia).
    cbn [expand flat_map]. rewrite app_nil_r. f_equal. apply IH. lia.
  - cbn [app]. f_equal. apply IH. lia.
Qed.

Lemma sub_set_in (Q Q' : Z -> Prop) neg items u s :
  Forall Q' u ->
  (forall c, Q c -> in_set neg items c = false -> Q' c) ->
  Forall Q s ->
  Forall Q' (Re.sub (Set_ neg items) [TLit u] s).
Proof.
  intros Hu Himp Hs. unfold Re.sub. rewrite sub_go_set by lia.
  induction Hs as [|c s Hc Hs IH]; [done |]. cbn [flat_map].
  apply Forall_app. split; [| done].
  destruct (in_set neg items c) eqn:Hin; [done |].
  constructor; [by apply Himp | done].
Qed.

Ltac lits :=
  let u := fresh "u" in
  let Hu := fresh "Hu" in
  intros u Hu;
  repeat (apply elem_of_cons in Hu as [Hu|Hu];
          [first [ injection Hu as -> ; by repeat constructor
                 | discriminate Hu ] |]);
  by apply elem_of_nil in Hu.

Ltac ch_consts :=
  unfold Ch.nl, Ch.sp, Ch.bang, Ch.quest, Ch.comma, Ch.dot, Ch.touten,
    Ch.kuten, Ch.noma, Ch.wave, Ch.hira_a, Ch.hira_n, Ch.kata_a, Ch.kata_ke,
    Ch.choon, Ch.kanji_lo, Ch.kanji_hi, Ch.fbang, Ch.fquest, Ch.ftilde in *.

(** A character that line 282 keeps and that is neither the comma nor the
    wave dash is a character of a normalized text. *)
Lemma kept_char_normalized (c : Z) :
  in_set true
    [R Ch.hira_a Ch.hira_n; R Ch.kata_a Ch.kata_ke;
     R Ch.kanji_lo Ch.kanji_hi; C Ch.noma; C Ch.choon; C Ch.ftilde;
     C Ch.wave; C Ch.touten; C Ch.kuten; C Ch.bang; C Ch.quest;
     C Ch.comma; C Ch.dot] c = false ->
  c <> Ch.comma -> c <> Ch.wave -> normalized_char c = true.
Proof.
  unfold normalized_char, in_set. cbn [existsb in_item xorb].
  intros Hc H1 H2. apply negb_false_iff in Hc.
  rewrite ?orb_true_iff, ?andb_true_iff, ?Z.eqb_eq, ?Z.leb_le in *.
  ch_consts. lia.
Qed.

Lemma normalize_head_chars (line : str) :
  Forall (fun c => normalized_char c = true) (normalize_head line).
Proof.
  unfold normalize_head.
  set (l1 := Re.sub Pat.bracket _ line).
  set (l2 := Re.sub Pat.disallowed _ l1).
  set (l3 := Re.sub (chr Ch.comma) _ l2).
  set (l4 := Re.sub (chr Ch.dot) _ l3).
  set (l5 := Re.sub (chr Ch.wave) _ l4).
  set (K := fun c : Z =>
         in_set true
           [R Ch.hira_a Ch.hira_n; R Ch.kata_a Ch.kata_ke;
            R Ch.kanji_lo Ch.kanji_hi; C Ch.noma; C Ch.choon; C Ch.ftilde;
            C Ch.wave; C Ch.touten; C Ch.kuten; C Ch.bang; C Ch.quest;
            C Ch.comma; C Ch.dot] c = false \/ c = Ch.sp \/ c = Ch.touten
         \/ c = Ch.kuten).
  (* line 282: the characters of the class, and the blank *)
  assert (H2 : Forall K l2).
  { apply (sub_set_in (fun _ => True)).
    - apply Forall_singleton. right. by left.
    - intros c _ Hc. by left.
    - by apply Forall_true. }
  (* line 284: no comma is left *)
  assert (H3 : Forall (fun c => K c /\ c <> Ch.comma) l3).
  { apply (sub_set_in K); [| | done].
    - apply Forall_singleton. split; [right; right; by left | done].
    - intros c Hc Hn. split; [done |]. intros ->. by vm_compute in Hn. }
  (* line 285 *)
  assert (H4 : Forall (fun c => K c /\ c <> Ch.comma) l4).
  { apply sub_in; [| done]. intros u Hu.
    apply list_elem_of_singleton in Hu. injection Hu as ->.
    apply Forall_singleton. split; [right; right; by right | done]. }
  (* line 286: no wave dash is left *)
  assert (H5 : Forall (fun c => normalized_char c = true) l5).
  { apply (sub_set_in (fun c => K c /\ c <> Ch.comma)); [| | done].
    - by apply Forall_singleton.
    - intros c [[Hc|[->|[->| ->]]] Hn] Hw; [| done..].
      apply kept_char_normalized; [done | done |].
      intros ->. by vm_compute in Hw. }
  clearbody l5. clear -H5.
  repeat (apply sub_in; [lits |]). done.
Qed.

Lemma normalize_marks_chars (line : str) :
  Forall (fun c => normalized_char c = true) line ->
  Forall (fun c => normalized_char c = true) (normalize_marks line).
Proof.
  intros H. unfold normalize_marks.
  repeat (apply sub_in; [lits |]). done.
Qed.

Lemma normalize_tail_chars (line : str) :
  Forall (fun c => normalized_char c = true) line ->
  Forall (fun c => normalized_char c = true) (normalize_tail line).
Proof.
  intros H. unfold normalize_tail.
  repeat (apply sub_in; [lits |]). done.
Qed.

(** X11: whatever the text, [normalize] returns a text made of kana and
    ideographs, the iteration and prolonged sound marks, the fullwidth
    tilde, the ideographic comma and full stop, exclamation and question
    marks, dots, blanks and newlines: no ASCII letter, digit, comma or
    bracket, no wave dash and no other symbol is left. *)
Theorem normalize_chars (line : str) :
  Forall (fun c => normalized_char c = true) (normalize line)
  /\ Forall (fun c => ascii_alnum c = false) (normalize line).
Proof.
  assert (H : Forall (fun c => normalized_char c = true) (normalize line)).
  { unfold normalize. apply normalize_tail_chars, normalize_marks_chars.
    apply Forall_app. split; [apply normalize_head_chars |].
    by repeat constructor. }
  split; [done |].
  eapply Forall_impl; [exact H |]. intros c Hc. simpl in Hc.
  revert Hc. unfold normalized_char, ascii_alnum, in_set.
  cbn [existsb in_item xorb]. intros Hc.
  apply not_true_is_false. intros Ha.
  rewrite ?orb_true_iff, ?andb_true_iff, ?Z.eqb_eq, ?Z.leb_le in *.
  ch_consts. unfold Ch.la, Ch.lz, Ch.uA, Ch.uZ, Ch.d0, Ch.d9 in *. lia.
Qed.
(** ** What [lookup] does to the queue and to the files *)

Section Structure.

Variable E : collaborators.
Variable cfg : settings.
Variable G : status -> Prop.

Lemma sum_list_append (l1 l2 : list nat) :
  sum_list (l1 ++ l2) = (sum_list l1 + sum_list l2)%nat.
Proof. induction l1 as [|x l1 IH]; simpl; [done | lia]. Qed.

Lemma dumps_of_refl s : dumps_of cfg s s [].
Proof.
  unfold dumps_of. simpl. rewrite !app_nil_r, Z.add_0_r.
  by destruct (output_part cfg).
Qed.

Lemma dumps_of_trans s1 s2 s3 new1 new2 :
  dumps_of cfg s1 s2 new1 -> dumps_of cfg s2 s3 new2 ->
  dumps_of cfg s1 s3 (new1 ++ new2).
Proof.
  intros (A1 & A2 & A3 & A4 & A5 & A6) (B1 & B2 & B3 & B4 & B5 & B6).
  unfold dumps_of. rewrite B1, B2, B3, B4, B5, B6, A1, A2, A3, A4, A5, A6.
  rewrite !map_app, !concat_app, sum_list_append.
  repeat split; rewrite ?app_assoc; try done; [lia |].
  destruct (output_part cfg); by rewrite ?app_assoc.
Qed.

Lemma dumps_of_extended_by idx d e s : dumps_of cfg s (extended_by idx d e s) [].
Proof.
  unfold dumps_of, extended_by. simpl. rewrite !app_nil_r, Z.add_0_r.
  by destruct (output_part cfg).
Qed.

Lemma dumps_of_set_queue f s : dumps_of cfg s (set_queue f s) [].
Proof.
  unfold dumps_of. simpl. rewrite !app_nil_r, Z.add_0_r.
  by destruct (output_part cfg).
Qed.

Lemma dumps_of_enqueue e s : dumps_of cfg s (state_of (enqueue e s)) [].
Proof.
  unfold dumps_of. simpl. rewrite !app_nil_r, Z.add_0_r.
  by destruct (output_part cfg).
Qed.

Lemma dumps_of_dump_state idx d s :
  (1 <= length d)%nat ->
  dumps_of cfg s (dump_state cfg idx d s) [reverse d].
Proof.
  intros Hl. unfold dumps_of, dump_state, dump_data, bind, update, ret.
  cbn [state_of dumped dump_count tweet_txt reply_txt tweet_part_txt
       check_point_txt map concat sum_list].
  unfold pairs, prompt_lines, response_lines, part_lines, spoken.
  unfold line_of, words_of.
  rewrite !app_nil_r, Nat.add_0_r.
  rewrite !length_map, !length_reverse.
  rewrite ?skipn_map, ?firstn_map, !map_map. cbn [fst snd].
  rewrite (take_ge (drop 1 (reverse d)))
    by (rewrite length_drop, length_reverse; lia).
  repeat split; try done. unfold Datatypes.id. lia.
Qed.

(** The dictionary of an answer. *)
Lemma build_dic_ok (replys : list status) :
  Forall G replys -> dic_ok G (build_dic E replys).
Proof.
  unfold build_dic.
  assert (Hgen : forall m, dic_ok G m -> Forall G replys ->
            dic_ok G (foldl (fun m r => <[id_str r := tweet_of E r]> m) m replys)).
  { induction replys as [|r replys IH]; intros m Hm Hall; [done |].
    apply Forall_cons in Hall as [Hr Hall]. simpl. apply IH; [| done].
    intros key tw. destruct (decide (key = id_str r)) as [->|Hne].
    - rewrite lookup_insert_eq. intros [= <-]. exists r. by repeat split.
    - rewrite lookup_insert_ne by done. apply Hm. }
  apply Hgen. intros key tw. by rewrite lookup_empty.
Qed.

Lemma dic_ok_insert dic key tw tw' :
  dic_ok G dic -> dic !! key = Some tw ->
  t_reply_to tw' = t_reply_to tw -> t_user tw' = t_user tw ->
  t_id tw' = t_id tw ->
  dic_ok G (<[key := tw']> dic).
Proof.
  intros Hd Hk H0 H1 H3 k t. destruct (decide (k = key)) as [->|Hne].
  - rewrite lookup_insert_eq. intros [= <-].
    destruct (Hd key tw Hk) as (r & Hr & Hi & Hm0 & Hm1 & Hm3).
    exists r. repeat split; congruence.
  - rewrite lookup_insert_ne by done. apply Hd.
Qed.

(** Lines 187 to 202 once more, with what is appended. *)
Lemma extend_built idx key dic s :
  dic_ok G dic ->
  match extend E cfg idx key dic s with
  | Val r s' =>
      dic_ok G r.1
      /\ ((s' = s /\ r.2 = true)
          \/ exists d e rr,
               queue s !! idx = Some d /\ may_follow d (t_user e.1)
               /\ G rr /\ id_str rr = key /\ built_from cfg rr e
               /\ s' = extended_by idx d e s)
  | Exc e s' => s' = s
  | Hang _ => False
  end.
Proof.
  intros Hdic. unfold extend.
  destruct (dic !! key) as [tweet|] eqn:Hkey; [| split; [done | by left]].
  unfold bind at 1. unfold check.
  destruct (t_body tweet) as [t|ws] eqn:Hbody; simpl; [| done].
  unfold bind at 1.
  destruct (check_text E t).
  2:{ simpl. split; [done | by left]. }
  pose proof (talker_check_spec (t_user tweet) idx s) as Htc.
  destruct (talker_check (t_user tweet) idx s) as [b s1|e s1|s1];
    [| | done].
  2:{ by destruct Htc as [-> _]. }
  destruct Htc as [-> (d & Hd & Hfollow)].
  destruct b; [| split; [done | by left]].
  specialize (Hfollow eq_refl).
  unfold bind at 1. simpl.
  unfold bind at 1. unfold parse, lift.
  pose proof (parse_nodes_cases (parseToNode E (normalize t))) as Hp.
  destruct (parse_nodes _) as [[words parts]|e]; simpl; [| done].
  destruct Hp as (Hlen & Htok & _ & _).
  assert (Hd1 : dic_ok G (<[key := set_body (Words words) tweet]> dic)).
  { by eapply dic_ok_insert. }
  destruct (need_check cfg parts && needless_check cfg parts);
    [| split; [done | by left]].
  destruct (dump_filter_zip cfg words parts) as (_ & Hl & _ & Hsub & Hdump).
  set (dwp := dump_filter cfg words parts) in *.
  assert (Hd2 : dic_ok G (<[key := set_body (Words dwp.1)
                                    (set_body (Words words) tweet)]>
                            (<[key := set_body (Words words) tweet]> dic))).
  { eapply dic_ok_insert; [done | apply lookup_insert_eq | done..]. }
  destruct (length_check cfg dwp.1) eqn:Hlc; [| split; [done | by left]].
  unfold bind, get, index, update, ret. rewrite Hd. simpl.
  split; [done |]. right.
  destruct (Hdic key tweet Hkey) as (rr & Hrr & Hid & Hmeta).
  exists d, (set_body (Words dwp.1) (set_body (Words words) tweet), dwp.2), rr.
  repeat split; try done; try apply Hfollow; try apply Hmeta.
  exists dwp.1. repeat split; try done.
  eapply Forall_forall. intros p Hp.
  apply (proj1 (Forall_forall _ _) Htok).
  by eapply elem_of_sublist.
Qed.

Lemma collect_ids_of (q : list dialog) s :
  match collect_ids q s with
  | Val ids s' => s' = s /\ ids_of q ids
  | Exc e s' => s' = s
  | Hang _ => False
  end.
Proof.
  induction q as [|d q IH]; simpl.
  { split; [done |]. intros i d. by rewrite lookup_nil. }
  unfold bind at 1. unfold index_back, index. rewrite reverse_lookup_0.
  destruct (last d) as [l|] eqn:Hl; simpl; [| done].
  unfold bind at 1.
  destruct (collect_ids q s) as [ids s'|e s'|s']; [| done | done].
  destruct IH as [-> Hids]. simpl. split; [done |].
  intros [|i] d'; simpl.
  - intros [= <-]. eauto.
  - apply Hids.
Qed.

Lemma batch_inv_start s : batch_inv cfg G s 0 [] s.
Proof.
  repeat split; try done.
  - intros i d' _ Hd'. left. by eapply list_elem_of_lookup_2.
  - exists []. split; [apply dumps_of_refl | by apply Forall_nil_2].
Qed.

(** Chain [k] was left as it was, or its parent was appended. *)
Lemma batch_inv_step s0 k dump_idxs s s1 :
  batch_inv cfg G s0 k dump_idxs s ->
  s1 = s \/ (exists d e, queue s !! k = Some d /\ parent_of cfg G d e
                         /\ s1 = extended_by k d e s) ->
  batch_inv cfg G s0 (S k) dump_idxs s1.
Proof.
  intros (H1 & H2 & H3 & H4 & H5 & new & H6 & H7) [->|(d & e & Hd & Hp & ->)].
  - repeat split; try done.
    + intros i Hi. apply H2. lia.
    + eapply Forall_impl; [done |]. simpl. lia.
    + by exists new.
  - assert (Hk : (k < length (queue s))%nat) by (by eapply lookup_lt_Some).
    repeat split.
    + by rewrite queue_extended_by, length_insert.
    + intros i Hi. rewrite queue_extended_by, list_lookup_insert_ne by lia.
      apply H2. lia.
    + intros i d' Hni. rewrite queue_extended_by.
      destruct (decide (i = k)) as [->|Hne].
      * rewrite list_lookup_insert_eq by done. intros [= <-].
        right. exists d, e. repeat split; try apply Hp.
        rewrite H2 in Hd by lia. by eapply list_elem_of_lookup_2.
      * rewrite list_lookup_insert_ne by done. by apply H3.
    + eapply Forall_impl; [done |]. simpl. lia.
    + unfold extended_by. simpl. set_solver.
    + exists new. split; [| done].
      rewrite <- (app_nil_r new).
      eapply dumps_of_trans; [done | apply dumps_of_extended_by].
Qed.

Lemma batch_inv_mark s0 k dump_idxs s :
  batch_inv cfg G s0 (S k) dump_idxs s ->
  batch_inv cfg G s0 (S k) (dump_idxs ++ [k]) s.
Proof.
  intros (H1 & H2 & H3 & H4 & H5 & H6). repeat split; try done.
  - intros i d' Hni. apply H3. intros Hin. apply Hni, elem_of_app. by left.
  - apply Forall_app. split; [done |]. apply Forall_singleton. lia.
Qed.

Lemma batch_inv_dump s0 k dump_idxs s d :
  batch_inv cfg G s0 (S k) dump_idxs s ->
  Forall (fun i => (i < k)%nat) dump_idxs ->
  queue s !! k = Some d -> (2 <= length d)%nat ->
  batch_inv cfg G s0 (S k) (dump_idxs ++ [k]) (dump_state cfg k d s).
Proof.
  intros (H1 & H2 & H3 & H4 & H5 & new & H6 & H7) Hlt Hd Hlen.
  assert (Hk : (k < length (queue s))%nat) by (by eapply lookup_lt_Some).
  repeat split.
  - by rewrite queue_dump_state, length_insert.
  - intros i Hi. rewrite queue_dump_state, list_lookup_insert_ne by lia.
    by apply H2.
  - intros i d' Hni. rewrite queue_dump_state.
    apply not_elem_of_app in Hni as [Hni Hne].
    rewrite list_elem_of_singleton in Hne.
    rewrite list_lookup_insert_ne by done. by apply H3.
  - apply Forall_app. split; [done |]. apply Forall_singleton. lia.
  - by rewrite tweet_ids_dump_state.
  - exists (new ++ [reverse d]). split.
    + eapply dumps_of_trans; [done |]. apply dumps_of_dump_state. lia.
    + apply Forall_app. split; [done |]. apply Forall_singleton.
      rewrite length_reverse. split; [done |]. exists d. split; [done |].
      apply (H3 k); [| done]. intros Hin.
      apply (proj1 (Forall_forall _ _) Hlt) in Hin. lia.
Qed.

Lemma batch_inv_post s0 k dump_idxs s e :
  batch_inv cfg G s0 k dump_idxs s -> lookup_post cfg G s0 (Exc e s).
Proof. intros (H1 & H2 & H3 & H4 & H5 & H6). by repeat split. Qed.

Lemma lookup_loop_batch s0 ids :
  ids_of (queue s0) ids ->
  forall n k dic dump_idxs s,
    dic_ok G dic ->
    batch_inv cfg G s0 k dump_idxs s ->
    lookup_post cfg G s0 (lookup_loop E cfg (seq k n) ids dic dump_idxs s).
Proof.
  intros Hids. induction n as [|n IH]; intros k dic dump_idxs s Hdic Hinv.
  { simpl seq. rewrite lookup_loop_nil.
    destruct Hinv as (H1 & H2 & H3 & H4 & H5 & new & H6 & H7).
    repeat split; try done.
    - exists new. split; [| done]. rewrite <- (app_nil_r new).
      eapply dumps_of_trans; [done | apply dumps_of_set_queue].
    - simpl. apply Forall_forall. intros d' Hd'.
      apply elem_of_dellist in Hd' as (i & Hni & Hi). by apply (H3 i). }
  simpl seq. rewrite lookup_loop_cons.
  destruct (ids !! k) as [i|] eqn:Hi; [| by eapply batch_inv_post].
  pose proof (extend_built k (str_of_id i) dic s Hdic) as Hs.
  destruct (extend E cfg k (str_of_id i) dic s) as [r s1|e s1|s1];
    [| subst; by eapply batch_inv_post | done].
  destruct Hs as [Hdic1 Hs].
  assert (Hinv1 : batch_inv cfg G s0 (S k) dump_idxs s1).
  { eapply batch_inv_step; [done |].
    destruct Hs as [[-> _]|(d & e & rr & Hd & Hf & Hrr & Hkey & Hb & ->)];
      [by left | right].
    exists d, e. repeat split; try done; try apply Hf.
    destruct Hinv as (_ & H2 & _).
    rewrite H2 in Hd by lia. destruct (Hids k d Hd) as (l & Hl & Hk).
    exists l, rr. repeat split; try done; try apply Hb. congruence. }
  assert (Hlt : Forall (fun i => (i < k)%nat) dump_idxs) by apply Hinv.
  destruct r.2.
  - destruct (queue s1 !! k) as [d|] eqn:Hd; [| by eapply batch_inv_post].
    destruct (2 <=? length d)%nat eqn:Hlen; apply IH; try done.
    + apply batch_inv_dump; try done. by apply Nat.leb_le.
    + by apply batch_inv_mark.
  - by apply IH.
Qed.

Lemma lookup_batch (answer : option (list status)) (s : state) :
  answer_in G answer -> lookup_post cfg G s (lookup E cfg answer s).
Proof.
  intros Ha. unfold lookup, bind, get.
  pose proof (collect_ids_of (queue s) s) as Hc.
  assert (Hpost : forall e, lookup_post cfg G s (Exc e s)).
  { intros e. eapply batch_inv_post, batch_inv_start. }
  destruct (collect_ids (queue s) s) as [ids s'|e s'|s']; [| by subst | done].
  destruct Hc as [-> Hids].
  destruct answer as [replys|]; simpl; [| done].
  apply lookup_loop_batch; [done | by apply build_dic_ok |].
  apply batch_inv_start.
Qed.


End Structure.
(** ** Runs, dialogue by dialogue *)

Section Chains.

Variable E : collaborators.
Variable cfg : settings.
Variable G : status -> Prop.
Variable P : dialog -> Prop.

Hypothesis P_first : forall e r,
  built_from cfg r e -> is_Some (in_reply_to_status_id r) -> P [e].
Hypothesis P_parent : forall d e, P d -> parent_of cfg G d e -> P (d ++ [e]).

Lemma P_grown q d' : Forall P q -> grown_from cfg G q d' -> P d'.
Proof using P_parent.
  intros Hq [Hin|(d & e & Hin & -> & Hp)].
  - by apply (proj1 (Forall_forall _ _) Hq).
  - apply P_parent; [| done]. by apply (proj1 (Forall_forall _ _) Hq).
Qed.

Lemma run_post_trans {A B} s0 s1 (o : outcome B) (a : A) :
  run_post cfg P s0 (Val a s1) -> run_post cfg P s1 o -> run_post cfg P s0 o.
Proof.
  intros ((new1 & Hd1 & Hn1) & Ht1 & _) ((new2 & Hd2 & Hn2) & Ht2 & Hq).
  simpl in *. repeat split; [| by etrans | done].
  exists (new1 ++ new2). split; [by eapply dumps_of_trans |].
  by apply Forall_app.
Qed.

Lemma run_post_refl {A} (a : A) s : Forall P (queue s) -> run_post cfg P s (Val a s).
Proof.
  intros Hq. repeat split; [| done | done].
  exists []. split; [apply dumps_of_refl | done].
Qed.

Lemma run_post_exc {A} e s : run_post cfg P s (@Exc A e s).
Proof.
  repeat split; [| done]. exists []. split; [apply dumps_of_refl | done].
Qed.

Lemma run_post_hang {A} s : run_post cfg P s (@Hang A s).
Proof.
  repeat split; [| done]. exists []. split; [apply dumps_of_refl | done].
Qed.

Lemma lookup_run_post answer s :
  answer_in G answer -> Forall P (queue s) ->
  run_post cfg P s (lookup E cfg answer s).
Proof using P_parent.
  intros Ha Hq. destruct (lookup_batch E cfg G answer s Ha)
    as ((new & Hd & Hn) & Ht & Hv).
  repeat split; [| done |].
  - exists new. split; [done |].
    eapply Forall_impl; [exact Hn |]. simpl.
    intros c (Hl & d' & -> & Hg). split; [done |].
    rewrite reverse_involutive. by eapply P_grown.
  - destruct (lookup E cfg answer s) as [b s'|e s'|s']; [| done | done].
    destruct Hv as [_ Hv]. eapply Forall_impl; [exact Hv |]. simpl.
    intros d'. by apply P_grown.
Qed.

Lemma resolve_run_post answers : forall s,
  Forall (answer_in G) answers -> Forall P (queue s) ->
  run_post cfg P s (resolve E cfg answers s).
Proof using P_parent.
  induction answers as [|answer answers IH]; intros s Ha Hq;
    rewrite resolve_unfold; destruct (_ =? _)%nat;
    try (by apply run_post_refl); [by apply run_post_hang |].
  apply Forall_cons in Ha as [Ha Has]. unfold bind.
  pose proof (lookup_run_post answer s Ha Hq) as Hl.
  destruct (lookup E cfg answer s) as [b s1|e s1|s1] eqn:Hlk; [| done | done].
  apply lookup_true in Hlk as ->.
  eapply run_post_trans; [exact Hl |]. apply IH; [done |]. apply Hl.
Qed.

(** The filters of [on_status]: what is enqueued. *)
Lemma accept_built raw s :
  match accept E cfg raw s with
  | Val (Some e) s' =>
      s' = s /\ built_from cfg raw e /\ is_Some (in_reply_to_status_id raw)
  | Val None s' => s' = s
  | Exc _ s' => s' = s
  | Hang _ => False
  end.
Proof.
  unfold accept. destruct (in_reply_to_status_id raw) as [p|] eqn:Hp; [| done].
  unfold bind at 1. unfold check, tweet_of at 1. cbn [t_body]. unfold ret at 1.
  destruct (check_text E _); [| done].
  unfold bind at 1. unfold text_of, tweet_of at 1. cbn [t_body]. unfold ret at 1.
  unfold bind at 1. unfold parse, lift.
  pose proof (parse_nodes_cases
                (parseToNode E (normalize (del_username E (nfkc E (text raw))))))
    as Hpn.
  destruct (parse_nodes _) as [[words parts]|e]; simpl; [| done].
  destruct Hpn as (Hlen & Htok & _ & _).
  destruct (need_check cfg parts && needless_check cfg parts); [| done].
  destruct (dump_filter_zip cfg words parts) as (_ & Hl & _ & Hsub & Hdump).
  destruct (length_check cfg _) eqn:Hlc; [| done].
  unfold ret. repeat split; try done.
  eexists. repeat split; try done.
  eapply Forall_forall. intros p' Hp'.
  apply (proj1 (Forall_forall _ _) Htok). by eapply elem_of_sublist.
Qed.

Lemma on_status_run_post answers raw s :
  Forall (answer_in G) answers -> Forall P (queue s) ->
  run_post cfg P s (on_status E cfg answers raw s).
Proof using P_first P_parent.
  intros Ha Hq. unfold on_status. unfold bind at 1.
  pose proof (accept_built raw s) as Hacc.
  destruct (accept E cfg raw s) as [[e|] s1|e s1|s1]; [| | | done].
  - destruct Hacc as (-> & Hb & Hr).
    unfold bind. destruct (enqueue e s) as [[] s1|x s1|s1] eqn:He; try done.
    assert (Hs1 : s1 = state_of (enqueue e s)) by (by rewrite He).
    eapply (run_post_trans s s1 _ tt).
    + repeat split.
      * exists []. split; [| done]. rewrite Hs1. apply dumps_of_enqueue.
      * rewrite Hs1. simpl. apply union_subseteq_r.
      * rewrite Hs1, queue_enqueue. apply Forall_app. split; [done |].
        apply Forall_singleton. by eapply P_first.
    + apply resolve_run_post; [done |].
      rewrite Hs1, queue_enqueue. apply Forall_app. split; [done |].
      apply Forall_singleton. by eapply P_first.
  - subst. by apply run_post_refl.
  - subst. apply run_post_exc.
Qed.

Lemma run_run_post inputs : forall s,
  answers_in G inputs -> Forall P (queue s) ->
  run_post cfg P s (run E cfg inputs s).
Proof using P_first P_parent.
  induction inputs as [|[raw answers] inputs IH]; intros s Ha Hq.
  { by apply run_post_refl. }
  apply Forall_cons in Ha as [Ha Has]. simpl. unfold bind.
  pose proof (on_status_run_post answers raw s Ha Hq) as H1.
  destruct (on_status E cfg answers raw s) as [b s1|e s1|s1] eqn:Hos;
    [| done | done].
  eapply run_post_trans; [exact H1 |].
  destruct b; [apply IH; [done | apply H1] |].
  apply run_post_refl, H1.
Qed.

End Chains.
(** ** What a run leaves in the files and in the queue *)

Lemma answers_in_True inputs : answers_in (fun _ => True) inputs.
Proof.
  apply Forall_forall. intros p _. apply Forall_forall. intros [replys|] _;
    simpl; [by apply Forall_true | done].
Qed.

Section RunProps.

Variable E : collaborators.
Variable cfg : settings.

(** X13: the files and the counter move together.  Whatever the run and
    however it ends, it dumps a list of dialogues of two turns or more;
    [tweet.txt] grows by the prompts of their pairs, [reply.txt] by the
    responses, [tweet-part.txt] by the parts of the prompts when the part
    output is on, [dump_count] by the number of the pairs, and the
    checkpoint file is not written. *)
Theorem run_dumps_pairs
    (inputs : list (status * list (option (list status)))) (s : state) :
  exists new,
    dumps_of cfg s (state_of (run E cfg inputs s)) new
    /\ Forall (fun c => (2 <= length c)%nat) new.
Proof.
  destruct (run_run_post E cfg (fun _ => True) (fun _ => True)
              (fun _ _ _ _ => I) (fun _ _ _ _ => I) inputs s
              (answers_in_True inputs)) as ((new & Hd & Hn) & _).
  { by apply Forall_true. }
  exists new. split; [done |].
  eapply Forall_impl; [exact Hn |]. by intros c [Hc _].
Qed.


Lemma str_of_int_inj a b : str_of_int a = str_of_int b -> a = b.
Proof.
  intros H. pose proof (int_of_str_of_int a) as Ha.
  rewrite H, int_of_str_of_int in Ha. congruence.
Qed.

Lemma str_of_int_not_None z : str_of_int z <> py "None".
Proof.
  intros H. pose proof (int_of_str_of_int z) as Hz. rewrite H in Hz.
  vm_compute in Hz. discriminate.
Qed.

Lemma reply_chain_cons (e l : entry) (c : dialog) :
  reply_chain (l :: c) -> t_reply_to l.1 = Some (t_id e.1) ->
  reply_chain (e :: l :: c).
Proof.
  intros Hc Hl [|i] a b; simpl.
  - by intros [= <-] [= <-].
  - apply (Hc i a b).
Qed.

(** X15: every dialogue of the corpus is a reply chain.  When the lookup
    service files each status under the decimal string of its id, and the
    chains of the queue at the start are reply chains, then in every
    dialogue that a run dumps each turn is a reply to the turn before it;
    so are the chains of the queue when the run ends normally. *)
Theorem dumped_reply_chains
    (inputs : list (status * list (option (list status)))) (s : state) :
  answers_in id_str_ok inputs ->
  Forall (fun d => reply_chain (reverse d)) (queue s) ->
  (exists new, dumped (state_of (run E cfg inputs s)) = dumped s ++ new
               /\ Forall reply_chain new)
  /\ (forall s', run E cfg inputs s = Val tt s' ->
        Forall (fun d => reply_chain (reverse d)) (queue s')).
Proof.
  intros Ha Hq.
  destruct (run_run_post E cfg id_str_ok (fun d => reply_chain (reverse d)))
    with (inputs := inputs) (s := s) as ((new & Hd & Hn) & _ & Hv);
    [| | done | done |].
  - intros e r _ _ i a b Ha' Hb. change (reverse [e]) with [e] in *.
    by destruct i.
  - intros d e Hd ((Hne & _) & l & r & Hl & Hr & Hkey & (_ & _ & Hid) & _).
    rewrite reverse_app. simpl.
    pose proof (reverse_lookup_0 d) as H0. rewrite Hl in H0.
    destruct (reverse d) as [|l' c] eqn:Hrev; [done |].
    simpl in H0. injection H0 as ->.
    apply reply_chain_cons; [done |].
    unfold id_str_ok in Hr. rewrite Hr in Hkey.
    destruct (t_reply_to l.1) as [z|]; simpl in Hkey.
    + apply str_of_int_inj in Hkey. congruence.
    + by apply str_of_int_not_None in Hkey.
  - split.
    + exists new. split; [apply Hd |].
      eapply Forall_impl; [exact Hn |]. simpl. intros c [_ Hc].
      by rewrite reverse_involutive in Hc.
    + intros s' Hs'. by rewrite Hs' in Hv.
Qed.

End RunProps.
(** ** The seen set *)

Section SeenProps.

Variable E : collaborators.
Variable cfg : settings.

Lemma recorded_mono (T T' : gset Z) (ds : list dialog) :
  T ⊆ T' ->
  Forall (Forall (fun e : entry => t_id e.1 ∈ T)) ds ->
  Forall (Forall (fun e : entry => t_id e.1 ∈ T')) ds.
Proof.
  intros HT H. eapply Forall_impl; [exact H |]. intros d Hd. simpl in Hd.
  eapply Forall_impl; [exact Hd |]. intros e. apply HT.
Qed.

Lemma ids_recorded_kept : kept_by_updates cfg ids_recorded.
Proof.
  split; [| split; [| split]].
  - intros s idx d e [Hq Hd] Hidx _.
    pose proof (proj1 (Forall_lookup _ _) Hq _ _ Hidx) as Hdd.
    split.
    + rewrite queue_extended_by. apply Forall_insert.
      * eapply recorded_mono; [| exact Hq]. apply union_subseteq_r.
      * apply Forall_app. split.
        -- eapply Forall_impl; [exact Hdd |].
           intros x Hx. simpl. by apply elem_of_union_r.
        -- apply Forall_singleton. simpl. apply elem_of_union_l.
           by apply elem_of_singleton.
    + simpl. eapply recorded_mono; [| exact Hd]. apply union_subseteq_r.
  - intros s idx d [Hq Hd] Hidx.
    pose proof (proj1 (Forall_lookup _ _) Hq _ _ Hidx) as Hdd.
    split.
    + rewrite queue_dump_state, tweet_ids_dump_state.
      apply Forall_insert; [done | by apply Forall_reverse].
    + rewrite dumped_dump_state, tweet_ids_dump_state. apply Forall_app.
      split; [done |]. by apply Forall_singleton, Forall_reverse.
  - intros s idxs [Hq Hd]. split; [| done].
    simpl. apply Forall_forall. intros d Hin.
    apply elem_of_dellist in Hin as (i & _ & Hi).
    apply (proj1 (Forall_lookup _ _) Hq _ _ Hi).
  - intros s e [Hq Hd]. split.
    + simpl. apply Forall_app. split.
      * eapply recorded_mono; [| exact Hq]. apply union_subseteq_r.
      * apply Forall_singleton, Forall_singleton. simpl.
        apply elem_of_union_l. by apply elem_of_singleton.
    + simpl. eapply recorded_mono; [| exact Hd]. apply union_subseteq_r.
Qed.

(** X16: the seen set covers the corpus and the queue, and only grows.
    When the ids of all tweets of the queue and of the dumped dialogues
    are in [tweet_ids] at the start of a run, they are at its end,
    however it ends; and no id is ever removed from [tweet_ids]. *)
Theorem seen_ids_cover
    (inputs : list (status * list (option (list status)))) (s : state) :
  ids_recorded s ->
  ids_recorded (state_of (run E cfg inputs s))
  /\ tweet_ids s ⊆ tweet_ids (state_of (run E cfg inputs s)).
Proof.
  intros Hs. split.
  - apply run_invariant; [apply ids_recorded_kept | done].
  - apply (run_invariant E cfg (fun s' => tweet_ids s ⊆ tweet_ids s'));
      [| done].
    repeat split.
    + intros s1 idx d e H1 _ _. simpl. etrans; [done |].
      apply union_subseteq_r.
    + intros s1 idx d H1 _. by rewrite tweet_ids_dump_state.
    + done.
    + intros s1 e H1. simpl. etrans; [done |]. apply union_subseteq_r.
Qed.

End SeenProps.
(** ** The samples once more *)


(** On the short run: the second status fills the batch of two, and the
    lookup dumps the dialogue of tweets 6 and 11; the prompt file and the
    response file get one line each, "hai .", the part file the two parts
    of the prompt, and the counter goes to 1. *)
Lemma run_dumps_pairs_witness :
  let s' := state_of (run Sample.toy Sample.cfg2 Sample.short_run
                        Sample.new_state) in
  dumped s' = [[Sample.said 6 2 None; Sample.said 11 1 (Some 6%Z)]]
  /\ tweet_txt s' = [0x306F; 0x3044; 32; 0x3002; 10]%Z
  /\ reply_txt s' = [0x306F; 0x3044; 32; 0x3002; 10]%Z
  /\ tweet_part_txt s' = py "impression_verb phrase_point" ++ [10%Z]
  /\ dump_count s' = 1%Z
  /\ check_point_txt s' = None.
Proof.
  destruct (run_dumps_pairs Sample.toy Sample.cfg2 Sample.short_run
              Sample.new_state)
    as (new & (Hd & Hc & Ht & Hr & Hp & Hk) & _).
  assert (Hnew : new = [[Sample.said 6 2 None; Sample.said 11 1 (Some 6%Z)]]).
  { vm_compute in Hd. symmetry. exact Hd. }
  rewrite Hnew in Hd, Hc, Ht, Hr, Hp. cbv zeta.
  exact (conj Hd (conj Ht (conj Hr (conj Hp (conj Hc Hk))))).
Defined.


Lemma dumped_reply_chains_witness :
  answers_in id_str_ok Sample.short_run
  /\ exists new,
       dumped (state_of (run Sample.toy Sample.cfg2 Sample.short_run
                           Sample.new_state))
       = dumped Sample.new_state ++ new
       /\ Forall reply_chain new.
Proof.
  assert (Ha : answers_in id_str_ok Sample.short_run)
    by (repeat constructor).
  assert (Hq : Forall (fun d => reply_chain (reverse d))
                 (queue Sample.new_state)) by (simpl; constructor).
  split; [exact Ha |].
  exact (proj1 (dumped_reply_chains Sample.toy Sample.cfg2
                  Sample.short_run Sample.new_state Ha Hq)).
Defined.

Lemma seen_ids_cover_witness :
  ids_recorded Sample.new_state
  /\ ids_recorded (state_of (run Sample.toy Sample.cfg2 Sample.short_run
                               Sample.new_state)).
Proof.
  assert (H : ids_recorded Sample.new_state)
    by (split; simpl; constructor).
  split; [exact H |].
  exact (proj1 (seen_ids_cover Sample.toy Sample.cfg2 Sample.short_run
                  Sample.new_state H)).
Defined.
(** ** Checkpoints, events and restarts *)

Section RestartProps.

Variable E : collaborators.

(** Loading what was saved. *)
Lemma load_saved (s : state) :
  check_point_txt s = Some (check_point_of E s) ->
  open_read E = true ->
  faithful_iteration E ->
  resumable E s.
Proof.
  intros Hc Hr Hiter s0 Hs0.
  destruct (load_written E (dump_count s) (tweet_ids s) s0 Hr Hiter)
    as (s1 & Hl & Hn & HT & _); [by rewrite Hs0, Hc |].
  by exists s1.
Qed.

Lemma save_check_point_spec (s : state) :
  exists s', save_check_point E s = Val tt s'
    /\ same_listener s s'
    /\ (open_write E = true -> check_point_txt s' = Some (check_point_of E s'))
    /\ (open_write E = false -> s' = s).
Proof.
  unfold save_check_point. destruct (open_write E).
  - eexists. split; [reflexivity |]. by repeat split.
  - exists s. by repeat split.
Qed.

(** What a call of a handler that saves comes to when nothing is raised
    before the save. *)
Lemma saved_after (r : option bool) (s : state) :
  exists s', (save_check_point E ;;; ret r) s = Val r s'
    /\ same_listener s s'
    /\ (open_write E = true ->
        check_point_txt s'
        = Some (str_of_int (dump_count s) ++ [Ch.nl]
                ++ join [Ch.sp]
                     (map str_of_int (iter_ids E (tweet_ids s))))
        /\ (open_read E = true -> faithful_iteration E -> resumable E s'))
    /\ (open_write E = false -> s' = s).
Proof.
  destruct (save_check_point_spec s) as (s' & Hs & Hsame & Hw & Hnw).
  exists s'. unfold bind. rewrite Hs. split; [done |]. split; [done |].
  split; [| done]. intros Hopen. split.
  - rewrite (Hw Hopen). unfold check_point_of.
    destruct Hsame as (-> & _ & -> & _). done.
  - intros Hr Hi. apply load_saved; auto.
Qed.

(** X17: the handlers and the checkpoint.  [on_error], [on_limit],
    [on_exception] and [on_timeout] never raise, not even when the
    checkpoint file cannot be opened; [on_disconnect] and [on_warning]
    raise [AttributeError], with nothing saved, exactly when the notice
    has no attribute [code], or [message], as a [str] has none, and are
    like the others when it has.  A handler that returns has changed
    nothing of the listener or of the corpus files; when the file can be
    written it holds the counter in decimal on line 1 and the ids on line
    2, and when it can be read as well, every listener that finds the
    file, whatever it holds itself, loads the seen set and the counter of
    this moment; when the file cannot be written nothing changes at all.
    [on_error] and [on_timeout] return [True], the others and
    [on_connect] return nothing, and [on_connect] does not save. *)
Theorem handlers_save_check_point (msg : str) (n : notice) (s : state) :
  Forall (fun h : M (option bool) =>
            match h s with
            | Val _ s' =>
              same_listener s s'
              /\ (open_write E = true ->
                  check_point_txt s'
                  = Some (str_of_int (dump_count s) ++ [Ch.nl]
                          ++ join [Ch.sp]
                               (map str_of_int (iter_ids E (tweet_ids s))))
                  /\ (open_read E = true -> faithful_iteration E ->
                      resumable E s'))
              /\ (open_write E = false -> s' = s)
            | Exc e s' => e = AttributeError /\ s' = s
            | Hang _ => False
            end)
         (saving_handlers E msg n)
  /\ (exists s', on_error E msg s = Val (Some true) s')
  /\ (exists s', on_timeout E s = Val (Some true) s')
  /\ (exists s', on_limit E msg s = Val None s')
  /\ (exists s', on_exception E msg s = Val None s')
  /\ match notice_code n with
     | Some _ => exists s', on_disconnect E n s = Val None s'
     | None => on_disconnect E n s = Exc AttributeError s
     end
  /\ match notice_message n with
     | Some _ => exists s', on_warning E n s = Val None s'
     | None => on_warning E n s = Exc AttributeError s
     end
  /\ on_connect s = Val None s.
Proof.
  assert (Hsave : forall r : option bool,
            match (save_check_point E ;;; ret r) s with
            | Val _ s' =>
              same_listener s s'
              /\ (open_write E = true ->
                  check_point_txt s'
                  = Some (str_of_int (dump_count s) ++ [Ch.nl]
                          ++ join [Ch.sp]
                               (map str_of_int (iter_ids E (tweet_ids s))))
                  /\ (open_read E = true -> faithful_iteration E ->
                      resumable E s'))
              /\ (open_write E = false -> s' = s)
            | Exc e s' => e = AttributeError /\ s' = s
            | Hang _ => False
            end).
  { intros r. destruct (saved_after r s) as (s' & -> & H1 & H2 & H3). done. }
  assert (Hret : forall r : option bool,
            exists s', (save_check_point E ;;; ret r) s = Val r s').
  { intros r. destruct (saved_after r s) as (s' & -> & _). by exists s'. }
  split.
  - unfold saving_handlers.
    repeat (apply Forall_cons_2; [| ]); try apply Forall_nil_2;
      try apply Hsave.
    + unfold on_disconnect. destruct (notice_code n); [apply Hsave | done].
    + unfold on_warning. destruct (notice_message n); [apply Hsave | done].
  - repeat split; try apply Hret.
    + unfold on_disconnect. destruct (notice_code n); [apply Hret | done].
    + unfold on_warning. destruct (notice_message n); [apply Hret | done].
Qed.

(** What a load gives depends on the checkpoint file only. *)
Lemma load_check_point_from_disk (s1 s2 : state) :
  check_point_txt s1 = check_point_txt s2 ->
  tweet_ids (state_of (load_check_point E s1))
  = tweet_ids (state_of (load_check_point E s2))
  /\ dump_count (state_of (load_check_point E s1))
     = dump_count (state_of (load_check_point E s2))
  /\ raised (load_check_point E s1) = raised (load_check_point E s2)
  /\ queue (state_of (load_check_point E s1)) = queue s1
  /\ match load_check_point E s1 with
     | Val _ _ => exists s', load_check_point E s2 = Val tt s'
     | Exc e _ => e = ValueError
     | Hang _ => False
     end
  /\ (check_point_txt s1 = None ->
      tweet_ids (state_of (load_check_point E s1)) = ∅
      /\ dump_count (state_of (load_check_point E s1)) = 0%Z
      /\ raised (load_check_point E s1) = None).
Proof.
  intros Heq. unfold load_check_point, bind, update, get, ret. simpl.
  rewrite <- Heq. destruct (check_point_txt s1) as [content|];
    [| repeat split; eauto; done].
  destruct (open_read E); [| repeat split; eauto; done].
  destruct (readline content) as [line1 rest].
  destruct (int_of_str (strip line1)) as [n|e] eqn:Hn; simpl.
  2:{ unfold int_of_str in Hn. repeat case_match; simplify_eq; done. }
  destruct (readline rest) as [line2 rest2].
  destruct (ints_of (split_ws (strip line2))) as [zs|e] eqn:Hz; simpl.
  - repeat split; eauto; done.
  - repeat split; try done.
    revert Hz. generalize (split_ws (strip line2)). intros ts. revert e.
    induction ts as [|t ts IH]; intros e; simpl; [done |].
    destruct (int_of_str t) as [z|e'] eqn:Ht.
    + destruct (ints_of ts); [done |]. intros [= <-]. by apply IH.
    + intros [= <-]. unfold int_of_str in Ht.
      repeat case_match; simplify_eq; done.
Qed.

Lemma init_good (H : host) (c : config) (s : state) :
  config_yml H = Some (OK c) ->
  auth_ok H = true ->
  init E H s
  = match load_check_point E
            (set_dump_count 0 (set_queue (fun _ => [])
               (set_tweet_ids (fun _ => ∅) s))) with
    | Val _ s' => Val {| conf := c; BATCH_SIZE := 100 |} s'
    | Exc e s' => Exc e s'
    | Hang s' => Hang s'
    end.
Proof.
  intros Hc Ha. unfold init. rewrite Hc, Ha. unfold bind, update. simpl.
  by destruct (load_check_point E _).
Qed.

(** X18: a new listener knows what the disk knows.  When the
    configuration and the API objects are good, the seen set and the
    counter with which [__init__] ends, and whether it raises, depend on
    the checkpoint file only, not on any listener before it: the queue
    is empty, [BATCH_SIZE] is 100, an exception can only be the
    [ValueError] of a damaged checkpoint, and without a checkpoint file
    the listener starts from nothing. *)
Theorem new_listener_from_disk (H : host) (c : config) (s1 s2 : state) :
  config_yml H = Some (OK c) ->
  auth_ok H = true ->
  check_point_txt s1 = check_point_txt s2 ->
  tweet_ids (state_of (init E H s1)) = tweet_ids (state_of (init E H s2))
  /\ dump_count (state_of (init E H s1)) = dump_count (state_of (init E H s2))
  /\ raised (init E H s1) = raised (init E H s2)
  /\ queue (state_of (init E H s1)) = []
  /\ match init E H s1 with
     | Val cfg _ => conf cfg = c /\ BATCH_SIZE cfg = 100%nat
     | Exc e _ => e = ValueError
     | Hang _ => False
     end
  /\ (check_point_txt s1 = None ->
      exists cfg s', init E H s1 = Val cfg s'
        /\ tweet_ids s' = ∅ /\ dump_count s' = 0%Z).
Proof.
  intros Hc Ha Heq. rewrite !(init_good H c) by done.
  set (r1 := set_dump_count 0 (set_queue (fun _ => [])
               (set_tweet_ids (fun _ => ∅) s1))).
  set (r2 := set_dump_count 0 (set_queue (fun _ => [])
               (set_tweet_ids (fun _ => ∅) s2))).
  destruct (load_check_point_from_disk r1 r2 Heq)
    as (H1 & H2 & H3 & H4 & H5 & H6).
  change (check_point_txt r1) with (check_point_txt s1) in H6.
  destruct (load_check_point E r1) as [[] t1|e1 t1|t1] eqn:Hl1;
    destruct (load_check_point E r2) as [[] t2|e2 t2|t2] eqn:Hl2;
    simpl in *; try done; try (by destruct H5).
  - repeat split; try done. intros Hn. destruct (H6 Hn) as (? & ? & ?).
    by eexists _, t1.
  - repeat split; try done. intros Hn. by destruct (H6 Hn) as (? & ? & ?).
Qed.

(** X19: the pause before a reconnection.  Started with a pause between
    a quarter of a second and sixteen seconds, [twitter] never lets
    [tcpip_delay] leave that range or decrease (a session that ends
    without an exception does not reset it), and each pass of the loop
    adds a quarter of a second at most. *)
Theorem reconnect_delay_bounded (H : host) (fuel k : nat) (d : Z) (s : state) :
  (1 <= d <= 64)%Z ->
  match twitter E H fuel k d s with
  | Looping d' _ => (d <= d' <= 64)%Z /\ (d' <= d + Z.of_nat fuel)%Z
  | Exited _ _ => True
  end.
Proof.
  revert k d s. induction fuel as [|fuel IH]; intros k d s Hd.
  { simpl. lia. }
  cbn [twitter].
  destruct ((listener <- init E H;; stream_filter H k listener) s)
    as [[] s'|e s'|s'].
  - specialize (IH (S k) d s' Hd).
    destruct (twitter E H fuel (S k) d s'); [done | lia].
  - assert (Hnext : match twitter E H fuel (S k) (Z.min (d + 1) 64) s' with
                    | Looping d' _ => (d <= d' <= 64)%Z
                                      /\ (d' <= d + Z.of_nat (S fuel))%Z
                    | Exited _ _ => True
                    end).
    { specialize (IH (S k) (Z.min (d + 1) 64) s' ltac:(lia)).
      destruct (twitter E H fuel (S k) (Z.min (d + 1) 64) s'); [done | lia]. }
    by destruct e.
  - lia.
Qed.

(** X20: leaving saves.  When [twitter] returns, with exit code 0,
    [save_check_point] was the last thing it did: if the checkpoint file
    can be written, it holds the counter of the listener at that moment
    in decimal on line 1 and its seen ids, separated by one blank, on
    line 2; and on a machine that can read the file, every listener that
    finds it, whatever it holds in memory itself, loads this counter and
    this seen set. *)
Theorem interrupt_saves_check_point
    (H : host) (fuel k : nat) (d c : Z) (s s' : state) :
  twitter E H fuel k d s = Exited c s' ->
  c = 0%Z
  /\ (open_write E = true ->
      check_point_txt s'
      = Some (str_of_int (dump_count s') ++ [Ch.nl]
              ++ join [Ch.sp] (map str_of_int (iter_ids E (tweet_ids s'))))
      /\ (open_read E = true -> faithful_iteration E ->
          forall s0 : state, check_point_txt s0 = check_point_txt s' ->
            exists s1, load_check_point E s0 = Val tt s1
              /\ tweet_ids s1 = tweet_ids s'
              /\ dump_count s1 = dump_count s')).
Proof.
  revert k d s. induction fuel as [|fuel IH]; intros k d s; [done |].
  cbn [twitter].
  destruct ((listener <- init E H;; stream_filter H k listener) s)
    as [[] s1|e s1|s1]; [apply IH | | done].
  destruct e; try apply IH.
  intros [= <- <-]. split; [done |]. intros Hw.
  destruct (save_check_point_spec s1) as (s2 & Hs & _ & Hc & _).
  rewrite Hs. simpl. split; [by apply Hc |].
  intros Hr Hi. apply load_saved; auto.
Qed.

End RestartProps.

Lemma new_listener_from_disk_witness :
  check_point_txt Sample.new_state = check_point_txt Sample.seen_10
  /\ tweet_ids (state_of (init Sample.toy Sample.interrupted Sample.seen_10))
     = tweet_ids (state_of (init Sample.toy Sample.interrupted Sample.new_state)).
Proof.
  assert (H : check_point_txt Sample.seen_10 = check_point_txt Sample.new_state)
    by reflexivity.
  split; [by symmetry |].
  exact (proj1 (new_listener_from_disk Sample.toy Sample.interrupted
                  Sample.conf0 Sample.seen_10 Sample.new_state
                  eq_refl eq_refl H)).
Defined.

Lemma reconnect_delay_bounded_witness :
  (1 <= 1 <= 64)%Z
  /\ match twitter Sample.toy (Sample.no_config (fun _ _ => ret tt)) 100 0 1
             Sample.new_state with
     | Looping d' _ => (1 <= d' <= 64)%Z /\ (d' <= 1 + Z.of_nat 100)%Z
     | Exited _ _ => True
     end.
Proof.
  assert (H : (1 <= 1 <= 64)%Z) by lia.
  split; [exact H |].
  exact (reconnect_delay_bounded Sample.toy
           (Sample.no_config (fun _ _ => ret tt)) 100 0 1 Sample.new_state H).
Defined.

(** On the samples: a session that takes the two statuses of the short
    run and is interrupted leaves the counter 0 and the ids 11 and 10 in
    the checkpoint file, and a new listener that finds the file loads
    them. *)
Lemma interrupt_saves_check_point_witness :
  exists s',
    twitter Sample.toy Sample.two_statuses 1 0 1 Sample.new_state
    = Exited 0 s'
    /\ check_point_txt s' = Some [48; 10; 49; 49; 32; 49; 48]%Z
    /\ exists s1,
         load_check_point Sample.toy
           (Sample.forgotten [48; 10; 49; 49; 32; 49; 48]%Z) = Val tt s1
         /\ tweet_ids s1 = {[10%Z; 11%Z]}
         /\ dump_count s1 = 0%Z.
Proof.
  eexists. split; [vm_compute; reflexivity |].
  match goal with
  | |- check_point_txt ?s = _ /\ _ =>
    destruct (interrupt_saves_check_point Sample.toy Sample.two_statuses
                1 0 1 0 Sample.new_state s ltac:(vm_compute; reflexivity))
      as (_ & Hsaved)
  end.
  destruct (Hsaved eq_refl) as (Hfile & Hload).
  split; [etrans; [exact Hfile | vm_compute; reflexivity] |].
  destruct (Hload eq_refl (fun X x => elem_of_elements X x)
              (Sample.forgotten [48; 10; 49; 49; 32; 49; 48]%Z))
    as (s1 & Hl & HT & Hn).
  { symmetry. etrans; [exact Hfile | vm_compute; reflexivity]. }
  exists s1. split; [exact Hl |]. split.
  - etrans; [exact HT |]. vm_compute. reflexivity.
  - etrans; [exact Hn |]. vm_compute. reflexivity.
Defined.

(** On the samples: [on_timeout] on the listener with 5 dumped pairs and
    the ids 1, 2, 3 writes the seven characters of its checkpoint, from
    which a new listener loads both; [on_disconnect] with a notice that
    has no [code] raises and writes nothing. *)
Lemma handlers_save_check_point_witness :
  (exists s',
     on_timeout Sample.toy Sample.count_5 = Val (Some true) s'
     /\ check_point_txt s' = Some [53; 10; 51; 32; 50; 32; 49]%Z
     /\ exists s1,
          load_check_point Sample.toy
            (Sample.forgotten [53; 10; 51; 32; 50; 32; 49]%Z) = Val tt s1
          /\ tweet_ids s1 = {[1%Z; 2%Z; 3%Z]}
          /\ dump_count s1 = 5%Z)
  /\ on_disconnect Sample.toy
       {| notice_code := None; notice_message := None |} Sample.count_5
     = Exc AttributeError Sample.count_5.
Proof.
  destruct (handlers_save_check_point Sample.toy [] 
              {| notice_code := None; notice_message := None |}
              Sample.count_5)
    as (Hall & _ & _ & _ & _ & Hdis & _).
  split; [| exact Hdis].
  apply Forall_cons in Hall as [_ Hall]. apply Forall_cons in Hall as [_ Hall].
  apply Forall_cons in Hall as [_ Hall]. apply Forall_cons in Hall as [_ Hall].
  apply Forall_cons in Hall as [Htime _].
  destruct (on_timeout Sample.toy Sample.count_5) as [r s'|e s'|s'] eqn:Hon;
    [| discriminate Hon | discriminate Hon].
  destruct Htime as (Hsame & Hw & _). destruct (Hw eq_refl) as (Hfile & Hres).
  exists s'. split; [vm_compute in Hon; injection Hon as <- <- ; reflexivity |].
  split; [etrans; [exact Hfile | vm_compute; reflexivity] |].
  destruct (Hres eq_refl (fun X x => elem_of_elements X x)
              (Sample.forgotten [53; 10; 51; 32; 50; 32; 49]%Z))
    as (s1 & Hl & HT & Hn).
  { symmetry. etrans; [exact Hfile | vm_compute; reflexivity]. }
  destruct Hsame as (HsT & _ & Hsn & _).
  exists s1. split; [exact Hl |]. split.
  - etrans; [exact HT |]. etrans; [exact HsT |]. reflexivity.
  - etrans; [exact Hn |]. etrans; [exact Hsn |]. reflexivity.
Defined.
(** ** The edges of [lookup] and [on_status] *)

Section EdgeProps.

Variable E : collaborators.
Variable cfg : settings.

Lemma lookup_loop_short ids : forall idxs dic dump_idxs s,
  Exists (fun i => (length ids <= i)%nat) idxs ->
  exists e s', lookup_loop E cfg idxs ids dic dump_idxs s = Exc e s'.
Proof.
  induction idxs as [|idx idxs IH]; intros dic dump_idxs s Hex.
  { by apply Exists_nil in Hex. }
  rewrite lookup_loop_cons.
  destruct (ids !! idx) as [i|] eqn:Hi; [| by eauto].
  assert (Hex' : Exists (fun i => (length ids <= i)%nat) idxs).
  { apply Exists_cons in Hex as [Hbad|Hex]; [| done].
    apply lookup_lt_Some in Hi. lia. }
  pose proof (extend_spec E cfg idx (str_of_id i) dic s) as Hs.
  destruct (extend E cfg idx (str_of_id i) dic s) as [r s1|e s1|s1];
    [| by eauto | done].
  destruct r.2; [| by apply IH].
  destruct (queue s1 !! idx) as [d|]; [| by eauto].
  destruct (2 <=? length d)%nat; by apply IH.
Qed.

(** X21: [lookup] is for a full queue only.  Called with fewer than
    [BATCH_SIZE] chains in the queue it never returns: whatever the
    service answers, it leaves by an exception (the [IndexError] of
    [ids[idx]] at the latest). *)
Theorem lookup_below_batch_size_raises
    (answer : option (list status)) (s : state) :
  (length (queue s) < BATCH_SIZE cfg)%nat ->
  exists e s', lookup E cfg answer s = Exc e s'.
Proof.
  intros Hlen. unfold lookup, bind, get.
  pose proof (collect_ids_spec (queue s) s) as Hc.
  destruct (collect_ids (queue s) s) as [ids s1|e s1|s1]; [| by eauto | done].
  destruct Hc as [-> Hl].
  destruct answer as [replys|]; simpl; [| by eauto].
  apply lookup_loop_short. apply Exists_exists.
  exists (length (queue s)). split; [| lia].
  apply elem_of_seq. lia.
Qed.

Lemma resolve_true answers : forall s b s',
  resolve E cfg answers s = Val b s' -> b = true.
Proof.
  induction answers as [|answer answers IH]; intros s b s';
    rewrite resolve_unfold; destruct (_ =? _)%nat; try done;
    try (by intros [= <- _]).
  unfold bind.
  destruct (lookup E cfg answer s) as [b1 s1|e s1|s1] eqn:Hl; try done.
  apply lookup_true in Hl as ->. apply IH.
Qed.

(** X22: the [return False] of lines 167 and 209 are never taken:
    [dump_data] always returns [True], and so do [lookup] and
    [on_status] whenever they return. *)
Theorem no_false_returns (idx : nat) (d : dialog)
    (answer : option (list status)) (answers : list (option (list status)))
    (raw : status) (s : state) :
  (exists s', dump_data cfg idx d s = Val true s')
  /\ match lookup E cfg answer s with
     | Val b _ => b = true
     | _ => True
     end
  /\ match on_status E cfg answers raw s with
     | Val b _ => b = true
     | _ => True
     end.
Proof.
  split; [| split].
  - eexists. apply dump_data_val.
  - destruct (lookup E cfg answer s) as [b s'|e s'|s'] eqn:Hl; [| done..].
    by apply lookup_true in Hl.
  - destruct (on_status E cfg answers raw s) as [b s'|e s'|s'] eqn:Ho;
      [| done..].
    revert Ho. unfold on_status. unfold bind at 1.
    destruct (accept E cfg raw s) as [[e|] s1|e s1|s1]; try done.
    + unfold bind. destruct (enqueue e s1) as [[] s2|x s2|s2]; try done.
      apply resolve_true.
    + by intros [= <- _].
Qed.

(** X23: the lookup service is consulted only when the queue becomes
    exactly [BATCH_SIZE] long.  When the append does not make it so
    (the queue stays shorter, or was too long already), [on_status] ends
    without a lookup: a status that the filters drop changes nothing, an
    accepted one adds a chain of one entry at the end of the queue and
    its id to [tweet_ids], and [True] is returned. *)
Theorem on_status_without_lookup
    (answers : list (option (list status))) (raw : status) (s : state) :
  S (length (queue s)) <> BATCH_SIZE cfg ->
  match accept E cfg raw s with
  | Val (Some e) _ =>
      on_status E cfg answers raw s
      = Val true (set_tweet_ids (fun ids => {[t_id e.1]} ∪ ids)
                    (set_queue (fun q => q ++ [[e]]) s))
  | Val None _ => on_status E cfg answers raw s = Val true s
  | Exc x _ => on_status E cfg answers raw s = Exc x s
  | Hang _ => False
  end.
Proof.
  intros Hlen. pose proof (accept_spec E cfg raw s) as Ha.
  unfold on_status, bind.
  destruct (accept E cfg raw s) as [[e|] s1|e s1|s1]; subst;
    [| reflexivity | reflexivity | done].
  unfold enqueue, bind, update. simpl.
  rewrite resolve_unfold. simpl. rewrite length_app. simpl.
  destruct (Nat.eqb_spec (length (queue s) + 1) (BATCH_SIZE cfg)); [lia |].
  done.
Qed.

Lemma dellist_all {A} (l : list A) : dellist l (seq 0 (length l)) = [].
Proof.
  destruct (dellist l (seq 0 (length l))) as [|x l'] eqn:Hd; [done |].
  assert (Hx : x ∈ dellist l (seq 0 (length l))) by (rewrite Hd; by left).
  apply elem_of_dellist in Hx as (i & Hni & Hi).
  exfalso. apply Hni, elem_of_seq. apply lookup_lt_Some in Hi. lia.
Qed.

Lemma extend_not_found idx key dic s :
  dic !! key = None -> extend E cfg idx key dic s = Val (dic, true) s.
Proof. intros H. unfold extend. by rewrite H. Qed.

Lemma collect_ids_val (q : list dialog) s :
  Forall (fun d => d <> []) q ->
  exists ids, collect_ids q s = Val ids s /\ ids_of q ids.
Proof.
  intros Hq. pose proof (collect_ids_of q s) as Hc.
  assert (Hne : forall e s', collect_ids q s <> Exc e s').
  { clear Hc. induction Hq as [|d q Hd Hq IH]; [done |].
    intros e s'. simpl. unfold bind at 1. unfold index_back, index.
    rewrite reverse_lookup_0.
    destruct (last d) as [l|] eqn:Hl; [| by apply last_None in Hl].
    simpl. unfold bind at 1.
    destruct (collect_ids q s) as [ids s1|e1 s1|s1] eqn:Hc; try done. }
  destruct (collect_ids q s) as [ids s'|e s'|s']; [| | done].
  - destruct Hc as [-> Hc]. by exists ids.
  - by destruct (Hne e s').
Qed.

Lemma lookup_loop_nothing (q0 : list dialog) ids dic :
  ids_of q0 ids ->
  (forall d l, d ∈ q0 -> last d = Some l ->
     dic !! str_of_id (t_reply_to l.1) = None) ->
  forall n k s,
    (k + n = length q0)%nat ->
    length (queue s) = length q0 ->
    (forall i, (k <= i)%nat -> queue s !! i = q0 !! i) ->
    exists s',
      lookup_loop E cfg (seq k n) ids dic (seq 0 k) s = Val true s'
      /\ queue s' = [] /\ tweet_ids s' = tweet_ids s
      /\ dumped s'
         = dumped s
           ++ map reverse (filter (fun d => (2 <= length d)%nat)
                             (take n (drop k q0))).
Proof.
  intros Hids Hdic. induction n as [|n IH]; intros k s Hk Hlen Hq.
  { simpl seq. rewrite lookup_loop_nil. eexists. split; [done |]. simpl.
    assert (k = length (queue s)) as -> by lia.
    rewrite dellist_all, app_nil_r. done. }
  simpl seq. rewrite lookup_loop_cons.
  destruct (lookup_lt_is_Some_2 q0 k) as [d Hd]; [lia |].
  destruct (Hids k d Hd) as (l & Hl & Hi). rewrite Hi.
  rewrite extend_not_found
    by (eapply Hdic; [by eapply list_elem_of_lookup_2 | done]).
  cbn [snd fst].
  rewrite (Hq k) by lia. rewrite Hd.
  rewrite (drop_S _ _ _ Hd). cbn [take]. rewrite filter_cons.
  change (seq 0 k ++ [k]) with (seq 0 k ++ seq (0 + k) 1).
  rewrite <- seq_app, Nat.add_1_r.
  destruct (Nat.leb_spec 2 (length d)) as [H2|H2].
  - destruct (IH (S k) (dump_state cfg k d s)) as (s' & Hs' & Hq' & Ht & Hdump).
    + lia.
    + by rewrite queue_dump_state, length_insert.
    + intros i Hi'. rewrite queue_dump_state, list_lookup_insert_ne by lia.
      apply Hq. lia.
    + exists s'. split; [done |]. split; [done |].
      rewrite Ht, Hdump, tweet_ids_dump_state, dumped_dump_state.
      split; [done |]. destruct (decide _); [| lia].
      cbn [map]. by rewrite <- app_assoc.
  - destruct (IH (S k) s) as (s' & Hs' & Hq' & Ht & Hdump).
    + lia.
    + done.
    + intros i Hi'. apply Hq. lia.
    + exists s'. split; [done |]. split; [done |]. split; [done |].
      rewrite Hdump. destruct (decide _); [lia | done].
Qed.

(** X24: when the lookup service returns none of the requested parents,
    [lookup] closes the whole batch: it returns [True], the queue is
    empty afterwards, the chains of two tweets or more have been dumped in
    the order of the queue, each in chronological order, and [tweet_ids]
    is left as it was. *)
Theorem lookup_nothing_found (replys : list status) (s : state) :
  length (queue s) = BATCH_SIZE cfg ->
  Forall (fun d => d <> []) (queue s) ->
  (forall r d l, r ∈ replys -> d ∈ queue s -> last d = Some l ->
     id_str r <> str_of_id (t_reply_to l.1)) ->
  exists s',
    lookup E cfg (Some replys) s = Val true s'
    /\ queue s' = []
    /\ tweet_ids s' = tweet_ids s
    /\ dumped s'
       = dumped s
         ++ map reverse (filter (fun d => (2 <= length d)%nat) (queue s)).
Proof.
  intros Hlen Hne Hnone. unfold lookup, bind, get.
  destruct (collect_ids_val (queue s) s Hne) as (ids & -> & Hids).
  simpl.
  destruct (lookup_loop_nothing (queue s) ids (build_dic E replys) Hids)
    with (n := BATCH_SIZE cfg) (k := 0%nat) (s := s)
    as (s' & Hs' & Hq & Ht & Hd); try done.
  - intros d l Hin Hl.
    destruct (build_dic E replys !! str_of_id (t_reply_to l.1)) as [tw|] eqn:Hk;
      [| done].
    exfalso.
    assert (Hok : dic_ok (fun r => r ∈ replys) (build_dic E replys)).
    { apply build_dic_ok. by apply Forall_forall. }
    destruct (Hok _ _ Hk) as (r & Hr & Hkey & _).
    by apply (Hnone r d l).
  - exists s'. split; [done |]. split; [done |]. split; [done |].
    rewrite Hd, drop_0, take_ge by lia. done.
Qed.

End EdgeProps.

Lemma lookup_below_batch_size_raises_witness :
  (length (queue Sample.new_state) < BATCH_SIZE Sample.cfg)%nat
  /\ exists e s',
       lookup Sample.toy Sample.cfg Sample.answer_5 Sample.new_state = Exc e s'.
Proof.
  assert (H : (length (queue Sample.new_state) < BATCH_SIZE Sample.cfg)%nat)
    by (simpl; lia).
  split; [exact H |].
  exact (lookup_below_batch_size_raises Sample.toy Sample.cfg Sample.answer_5
           Sample.new_state H).
Defined.

Lemma on_status_without_lookup_witness :
  S (length (queue Sample.new_state)) <> BATCH_SIZE Sample.cfg
  /\ match accept Sample.toy Sample.cfg (Sample.says 10 1 (Some 5%Z))
             Sample.new_state with
     | Val (Some e) _ =>
         on_status Sample.toy Sample.cfg [] (Sample.says 10 1 (Some 5%Z))
           Sample.new_state
         = Val true (set_tweet_ids (fun ids => {[t_id e.1]} ∪ ids)
                       (set_queue (fun q => q ++ [[e]]) Sample.new_state))
     | Val None _ =>
         on_status Sample.toy Sample.cfg [] (Sample.says 10 1 (Some 5%Z))
           Sample.new_state = Val true Sample.new_state
     | Exc x _ =>
         on_status Sample.toy Sample.cfg [] (Sample.says 10 1 (Some 5%Z))
           Sample.new_state = Exc x Sample.new_state
     | Hang _ => False
     end.
Proof.
  assert (H : S (length (queue Sample.new_state)) <> BATCH_SIZE Sample.cfg)
    by (simpl; lia).
  split; [exact H |].
  exact (on_status_without_lookup Sample.toy Sample.cfg []
           (Sample.says 10 1 (Some 5%Z)) Sample.new_state H).
Defined.
(** ** The speakers, and a dump of less than a pair *)

Section TalkerProps.

Variable cfg : settings.

(** X25: [talker_check] never changes the listener.  For a chain that
    exists and is not empty it returns [True] exactly when the speaker may
    follow: the speaker is not the author of the last tweet of the chain
    and, when the chain has two tweets or more, is the author of the one
    before the last.  For an index outside the queue, and for an empty
    chain, it raises [IndexError]. *)
Theorem talker_check_iff (talker : Z) (idx : nat) (s : state) :
  match talker_check talker idx s with
  | Val b s' =>
      s' = s
      /\ exists d, queue s !! idx = Some d /\ d <> []
           /\ (b = true <-> may_follow d talker)
  | Exc e s' =>
      s' = s
      /\ (e = IndexError InQueue /\ queue s !! idx = None
          \/ e = IndexError InDialog /\ queue s !! idx = Some [])
  | Hang _ => False
  end.
Proof.
  unfold talker_check, bind, get, index_back, index, ret, raise.
  destruct (queue s !! idx) as [d|] eqn:Hd; simpl; [| by auto].
  rewrite reverse_lookup_0.
  destruct (last d) as [e1|] eqn:Hl1; simpl.
  2:{ apply last_None in Hl1. subst. auto. }
  assert (Hne : d <> []) by (intros ->; done).
  case_bool_decide as Hu; simpl.
  { split; [done |]. exists d. split; [done |]. split; [done |].
    split; [done |]. intros (_ & Hlast & _). by destruct (Hlast e1 Hl1). }
  destruct (length d =? 1)%nat eqn:Hlen; simpl.
  { apply Nat.eqb_eq in Hlen. split; [done |]. exists d. split; [done |].
    split; [done |]. split; [| done].
    intros _. split; [done |]. split.
    - intros e He. congruence.
    - intros i e Hi. lia. }
  apply Nat.eqb_neq in Hlen.
  assert (Hlen2 : (2 <= length d)%nat).
  { destruct d as [|x [|y d']]; simpl in *; [done | lia | lia]. }
  assert (Hi : (S (S (length d - 2)) = length d)%nat) by lia.
  rewrite (reverse_lookup_1 _ _ Hi).
  destruct (d !! (length d - 2)%nat) as [e2|] eqn:H2; simpl.
  2:{ apply lookup_ge_None in H2. lia. }
  split; [done |]. eexists. split; [done |]. split; [done |]. split.
  - intros Hb. apply bool_decide_eq_true in Hb.
    split; [done |]. split.
    + intros e He. congruence.
    + intros i e Hi' He.
      assert (i = (length d - 2)%nat) by lia. subst i. congruence.
  - intros (_ & _ & Hprev). apply bool_decide_eq_true.
    by apply (Hprev (length d - 2)%nat e2).
Qed.

(** X26: a dump of less than a pair.  Called with a dialogue of one
    tweet, [dump_data] writes nothing and leaves [dump_count] as it is;
    called with an empty dialogue it writes nothing either and takes one
    from [dump_count].  ([lookup] calls it with two tweets or more.) *)
Theorem dump_data_short (idx : nat) (d : dialog) (s : state) :
  (length d <= 1)%nat ->
  exists s',
    dump_data cfg idx d s = Val true s'
    /\ tweet_txt s' = tweet_txt s
    /\ reply_txt s' = reply_txt s
    /\ tweet_part_txt s' = tweet_part_txt s
    /\ dump_count s' = (dump_count s + Z.of_nat (length d) - 1)%Z
    /\ tweet_ids s' = tweet_ids s.
Proof.
  intros Hl. eexists. split; [apply dump_data_val |].
  unfold dump_state, dump_data, bind, update, ret.
  cbn [state_of dump_count tweet_txt reply_txt tweet_part_txt tweet_ids].
  rewrite !length_map, !length_reverse.
  replace (length d - 1)%nat with 0%nat by lia.
  cbn [take map concat]. rewrite !app_nil_r.
  repeat split; try done; [by destruct (output_part cfg) | lia].
Qed.

End TalkerProps.

Lemma dump_data_short_witness :
  (length (@nil entry) <= 1)%nat
  /\ exists s',
       dump_data Sample.cfg 0 [] Sample.new_state = Val true s'
       /\ dump_count s' = (-1)%Z.
Proof.
  assert (H : (length (@nil entry) <= 1)%nat) by (simpl; lia).
  split; [exact H |].
  destruct (dump_data_short Sample.cfg 0 [] Sample.new_state H)
    as (s' & Hs & _ & _ & _ & Hc & _).
  exists s'. split; [exact Hs |]. exact Hc.
Defined.

Lemma lookup_nothing_found_witness :
  length (queue (Sample.full_state (fun i => 2000 + Z.of_nat i)%Z []))
  = BATCH_SIZE Sample.cfg
  /\ exists s',
       lookup Sample.toy Sample.cfg (Some [])
         (Sample.full_state (fun i => 2000 + Z.of_nat i)%Z []) = Val true s'
       /\ queue s' = [].
Proof.
  assert (Hl : length (queue (Sample.full_state
                                (fun i => 2000 + Z.of_nat i)%Z []))
               = BATCH_SIZE Sample.cfg) by reflexivity.
  assert (Hne : Forall (fun d : dialog => d <> [])
                  (queue (Sample.full_state
                            (fun i => 2000 + Z.of_nat i)%Z []))).
  { simpl. unfold Sample.full_queue. apply Forall_forall. intros d Hd.
    apply list_elem_of_fmap in Hd as (i & -> & _). done. }
  split; [exact Hl |].
  destruct (lookup_nothing_found Sample.toy Sample.cfg []
              (Sample.full_state (fun i => 2000 + Z.of_nat i)%Z []) Hl Hne)
    as (s' & Hs & Hq & _).
  { intros r d l Hr. by apply elem_of_nil in Hr. }
  exists s'. split; [exact Hs | exact Hq].
Defined.
(** ** The lines of a normalized text *)

Lemma follows_cons B (p : Prop) c s :
  follows B p (c :: s) <-> follows B (c ∈ B) s.
Proof.
  unfold follows. destruct s as [|c' s']; [done |].
  rewrite last_cons_cons.
  destruct (last (c' :: s')) eqn:Hl; [reflexivity | by apply last_None in Hl].
Qed.

Lemma lines_weaken B B' (p p' : Prop) s :
  (forall c, c ∈ B -> c ∈ B') -> (p -> p') -> lines B p s -> lines B' p' s.
Proof.
  intros HB. revert p p'. induction s as [|c s IH]; intros p p' Hp; [done |].
  simpl. intros [H1 H2]. split; [tauto |].
  eapply IH; [| exact H2]. apply HB.
Qed.

Lemma lines_app B p s1 s2 :
  lines B p (s1 ++ s2) <-> lines B p s1 /\ lines B (follows B p s1) s2.
Proof.
  revert p. induction s1 as [|c s1 IH]; intros p.
  { cbn [app lines]. unfold follows. simpl. tauto. }
  cbn [app lines]. rewrite IH.
  assert (Hiff : forall (q q' : Prop), (q <-> q') ->
            lines B q s2 <-> lines B q' s2).
  { intros q q' Hq. split; apply lines_weaken; tauto. }
  rewrite (Hiff _ _ (follows_cons B p c s1)). tauto.
Qed.

Lemma lines_no_newline B p s : Ch.nl ∉ s -> lines B p s.
Proof.
  revert p. induction s as [|c s IH]; intros p Hn; [done |].
  apply not_elem_of_cons in Hn as [Hc Hn]. simpl. split; [done |].
  by apply IH.
Qed.

(** The lines by position. *)
Lemma lines_lookup B p s i :
  lines B p s -> s !! S i = Some Ch.nl ->
  exists c, s !! i = Some c /\ c ∈ B.
Proof.
  revert p i. induction s as [|c s IH]; intros p i; [done |].
  simpl. intros [_ Hl] Hi. destruct i as [|i].
  - exists c. split; [done |].
    destruct s as [|c' s']; [done |]. simpl in *. injection Hi as ->.
    by apply Hl.
  - simpl. by eapply IH.
Qed.

(** A substitution keeps the lines. *)
Lemma sub_go_lines r tpl B B' :
  (forall c, c ∈ B -> c ∈ B') ->
  keeps_lines r tpl B B' ->
  forall fuel total s (p p' : Prop),
    lines B p s -> (p -> p') -> lines B' p' (sub_go fuel total r tpl s).
Proof.
  intros HB HM. induction fuel as [|fuel IH]; intros total s p p' Hs Hp.
  { simpl. by eapply lines_weaken. }
  rewrite sub_go_S.
  assert (Hcopy : forall q q' : Prop, lines B q s -> (q -> q') ->
            lines B' q' match s with
                        | [] => []
                        | c :: s' => c :: sub_go fuel total r tpl s'
                        end).
  { intros q q' Hq Hqq. destruct s as [|c s']; [done |].
    simpl in *. destruct Hq as [H1 H2]. split; [tauto |].
    eapply IH; [exact H2 | apply HB]. }
  destruct (match_at total r s) as [[rest caps]|] eqn:Hm; [| by eapply Hcopy].
  destruct (match_at_suffix _ _ _ _ _ Hm) as [m ->].
  destruct (HM total m rest caps p p' Hm Hs Hp) as [He Hf].
  apply lines_app in Hs as Hs'. destruct Hs' as [Hs1 Hs2].
  destruct (length rest <? length (m ++ rest))%nat eqn:Hlen.
  - apply lines_app. split; [done |]. by eapply IH.
  - assert (m = []) as ->.
    { apply Nat.ltb_ge in Hlen. rewrite length_app in Hlen.
      destruct m; [done | simpl in Hlen; lia]. }
    apply lines_app. split; [done |]. eapply Hcopy; [exact Hs |].
    exact Hf.
Qed.

Lemma sub_lines r tpl B B' (p p' : Prop) s :
  (forall c, c ∈ B -> c ∈ B') ->
  keeps_lines r tpl B B' ->
  lines B p s -> (p -> p') -> lines B' p' (Re.sub r tpl s).
Proof. intros HB HM. by apply sub_go_lines. Qed.

(** A pattern that reads no character of [B], replaced by a fixed text. *)
Lemma keeps_lines_lit (Q : Z -> Prop) r u B B' :
  leaves_in Q r -> nonnull r = true ->
  (forall c, Q c -> c ∉ B) ->
  lines B' False u ->
  keeps_lines r [TLit u] B B'.
Proof.
  intros Hleaves Hnn HQ Hu total m rest caps p p' Hm Hs Hp.
  cbn [expand flat_map]. rewrite app_nil_r. split.
  { eapply lines_weaken; [| | exact Hu]; tauto. }
  apply match_at_sound in Hm.
  destruct (Matches_alphabet Q _ _ _ _ Hm Hleaves (caps_in_empty Q))
    as (m' & Heq & Hall & _).
  apply Matches_nonnull in Hm; [| done]. simpl in *.
  apply app_inv_tail in Heq as <-.
  assert (m <> []) as Hne.
  { intros ->. simpl in Hm. lia. }
  unfold follows at 1.
  destruct (last m) as [c|] eqn:Hl.
  2:{ apply last_None in Hl. by destruct Hne. }
  intros Hc. exfalso. apply (HQ c); [| done].
  apply last_Some in Hl as [l' ->].
  apply Forall_app in Hall as [_ Hall].
  exact (proj1 (Forall_singleton _ _) Hall).
Qed.

Ltac no_nl_lits :=
  let u := fresh "u" in
  let Hu := fresh "Hu" in
  intros u Hu;
  repeat (apply elem_of_cons in Hu as [Hu|Hu];
          [first [ injection Hu as -> ;
                   repeat (apply Forall_cons_2; [discriminate |]);
                   apply Forall_nil_2
                 | discriminate Hu ] |]);
  by apply elem_of_nil in Hu.

(** Up to line 312 the text has no newline. *)
Lemma normalize_head_no_newline (line : str) :
  Forall (fun c => c <> Ch.nl) (normalize_head line).
Proof.
  unfold normalize_head.
  set (l1 := Re.sub Pat.bracket _ line).
  set (l2 := Re.sub Pat.disallowed _ l1).
  assert (H2 : Forall (fun c => c <> Ch.nl) l2).
  { apply (sub_set_in (fun _ => True)).
    - apply Forall_singleton. discriminate.
    - intros c _ Hc ->. by vm_compute in Hc.
    - by apply Forall_true. }
  clearbody l2. clear -H2.
  repeat (apply sub_in; [no_nl_lits |]). done.
Qed.

Lemma Forall_not_elem_of (s : str) c : Forall (fun x => x <> c) s -> c ∉ s.
Proof.
  intros H Hin. by apply (proj1 (Forall_forall _ _) H c Hin).
Qed.

Lemma in_one cs c : in_set false (map C cs) c = true -> c ∈ cs.
Proof.
  unfold in_set. simpl. induction cs as [|x cs IH]; simpl; [done |].
  intros H. apply orb_prop in H as [H|H].
  - apply Z.eqb_eq in H as ->. by left.
  - right. by apply IH.
Qed.

Ltac incl_list :=
  let c := fresh "c" in
  let Hc := fresh "Hc" in
  intros c Hc;
  repeat (apply elem_of_cons in Hc as [->|Hc]; [mem |]);
  by apply elem_of_nil in Hc.

Ltac not_in_list :=
  let H := fresh in
  intros H;
  repeat (apply elem_of_cons in H as [H|H]; [by vm_compute in H |]);
  by apply elem_of_nil in H.

(** Line 320. *)
Lemma keeps_lines_line_head :
  keeps_lines Pat.line_head [TLit [Ch.nl]] boundary_chars boundary_chars.
Proof.
  intros total m rest caps p p' Hm Hs Hp.
  cbn [expand flat_map]. rewrite app_nil_r.
  apply match_at_sound in Hm.
  assert (Hlast : last_in (fun c => c = Ch.ftilde \/ c = Ch.choon) Pat.line_head).
  { simpl. repeat split; try done.
    intros c Hc. apply (in_one [Ch.ftilde; Ch.choon]) in Hc.
    apply elem_of_cons in Hc as [->|Hc]; [by left |].
    apply list_elem_of_singleton in Hc as ->. by right. }
  pose proof (Matches_nonnull _ _ _ _ Hm eq_refl) as Hnn.
  destruct (Matches_last _ _ _ _ _ Hm Hlast) as [Heq|(m0 & c & Heq & Hc)];
    simpl in *.
  { rewrite <- Heq in Hnn. lia. }
  assert (m = m0 ++ [c]) as Hmc.
  { apply (app_inv_tail rest). by rewrite <- app_assoc. }
  unfold Pat.line_head in Hm.
  apply Matches_seq_inv in Hm as (st1 & H1 & _).
  apply Matches_chr in H1 as [H1 _]. simpl in H1.
  split.
  - simpl. split; [| done]. intros _. apply Hp.
    rewrite H1 in Hs. simpl in Hs. by apply Hs.
  - unfold follows at 1. rewrite Hmc, last_snoc.
    intros Hin. exfalso. revert Hin.
    destruct Hc as [-> | ->]; not_in_list.
Qed.

(** Line 322: what is left is the end of the text. *)
Lemma step_leading_lines s (p : Prop) :
  lines boundary_chars p s ->
  lines boundary_chars True (Re.sub Pat.leading [] s).
Proof.
  intros Hs. unfold Pat.leading.
  match goal with
  | |- context [Re.sub (Seq Bol ?a) _ _] =>
      destruct (sub_bol a [] s) as [->|(rest & caps & Hm & ->)]
  end.
  - eapply lines_weaken; [| | exact Hs]; tauto.
  - apply match_at_suffix in Hm as [m ->].
    apply lines_app in Hs as [_ Hs]. cbn [expand flat_map app].
    eapply lines_weaken; [| | exact Hs]; tauto.
Qed.

Lemma last_copies n u : u <> [] -> last (u ++ copies n u) = last u.
Proof.
  intros Hu. destruct n as [|n].
  - simpl. by rewrite app_nil_r.
  - rewrite copies_snoc, app_assoc, last_app.
    destruct (last u) eqn:Hl; [done | by apply last_None in Hl].
Qed.

(** Line 323. *)
Lemma keeps_lines_repeated :
  keeps_lines Pat.repeated [TGroup 1; TGroup 1; TGroup 1]
    boundary_chars boundary_chars.
Proof.
  intros total m rest caps p p' Hm Hs Hp.
  destruct (repeated_match _ _ _ _ Hm) as (u & n & Hu & Hcap & Hn & Heq & Hnl).
  apply app_inv_tail in Heq as ->.
  cbn [expand flat_map]. rewrite Hcap. simpl. rewrite app_nil_r.
  apply Forall_app in Hnl as [Hnl _].
  split.
  - apply lines_no_newline, Forall_not_elem_of.
    by repeat (apply Forall_app; split).
  - unfold follows. rewrite last_copies by done.
    rewrite !last_app.
    destruct (last u) eqn:Hl; [done | by apply last_None in Hl].
Qed.

Lemma normalize_tail_lines s :
  lines boundary_chars False s ->
  lines boundary_chars True (normalize_tail s).
Proof.
  intros Hs. unfold normalize_tail.
  eapply sub_lines; [done | apply keeps_lines_repeated | | done].
  eapply step_leading_lines.
  eapply sub_lines; [done | apply keeps_lines_line_head | exact Hs | done].
Qed.

Lemma normalize_marks_lines s :
  Forall (fun c => c <> Ch.nl) s ->
  lines boundary_chars False (normalize_marks s).
Proof.
  intros Hs. unfold normalize_marks.
  set (l7 := Re.sub (chr Ch.touten) _ _).
  assert (H7 : Forall (fun c => c <> Ch.nl) l7).
  { unfold l7. repeat (apply sub_in; [no_nl_lits |]). done. }
  clearbody l7.
  (* line 318 *)
  eapply (sub_lines _ _ [Ch.kuten; Ch.fbang; Ch.fquest]);
    [unfold boundary_chars; incl_list
    | apply (keeps_lines_lit (fun c => c = Ch.bang \/ c = Ch.quest));
      [ simpl; split; intros c Hc; apply in_chr in Hc; tauto
      | done
      | intros c [-> | ->]; not_in_list
      | simpl; repeat split; try discriminate; intros _;
        unfold boundary_chars; mem ]
    | | done].
  (* line 317 *)
  eapply (sub_lines _ _ [Ch.kuten; Ch.fbang]);
    [incl_list
    | apply (keeps_lines_lit (fun c => c = Ch.fquest));
      [ intros c Hc; by apply in_chr in Hc
      | done
      | intros c ->; not_in_list
      | simpl; repeat split; try discriminate; intros _; mem ]
    | | done].
  (* line 316 *)
  eapply (sub_lines _ _ [Ch.kuten]);
    [incl_list
    | apply (keeps_lines_lit (fun c => c = Ch.fbang));
      [ intros c Hc; by apply in_chr in Hc
      | done
      | intros c ->; not_in_list
      | simpl; repeat split; try discriminate; intros _; mem ]
    | | done].
  (* line 315 *)
  eapply (sub_lines _ _ [Ch.kuten]);
    [done
    | apply (keeps_lines_lit (fun c => c = Ch.dot \/ is_space c = true));
      [ simpl; split; intros c Hc;
        [ apply in_chr in Hc; tauto
        | right; unfold in_set in Hc; simpl in Hc;
          by rewrite orb_false_r in Hc ]
      | done
      | intros c [-> | Hc]; [not_in_list |];
        intros Hin; apply list_elem_of_singleton in Hin as ->;
        by vm_compute in Hc
      | simpl; repeat split; discriminate ]
    | | done].
  (* line 313 *)
  eapply (sub_lines _ _ []);
    [intros c Hc; by apply elem_of_nil in Hc
    | apply (keeps_lines_lit (fun c => c = Ch.kuten));
      [ intros c Hc; by apply in_chr in Hc
      | done
      | intros c _; apply not_elem_of_nil
      | simpl; repeat split; try discriminate; intros _; mem ]
    | | done].
  by apply lines_no_newline, Forall_not_elem_of.
Qed.

(** X27: the lines of a normalized text.  Whatever the text, every
    newline of what [normalize] returns, the first character set aside,
    stands directly after a sentence-boundary character (the full stop,
    the fullwidth exclamation or question mark, or the question mark of
    the interrobang): the result is a sequence of lines that each end
    with a mark, after at most one empty line. *)
Theorem normalize_lines (line : str) (i : nat) :
  normalize line !! S i = Some Ch.nl ->
  exists c, normalize line !! i = Some c /\ c ∈ boundary_chars.
Proof.
  apply (lines_lookup boundary_chars True).
  unfold normalize. apply normalize_tail_lines, normalize_marks_lines.
  apply Forall_app. split; [apply normalize_head_no_newline |].
  apply Forall_singleton. discriminate.
Qed.

Lemma normalize_lines_witness :
  normalize Sample.hai !! 4%nat = Some Ch.nl
  /\ exists c, normalize Sample.hai !! 3%nat = Some c /\ c ∈ boundary_chars.
Proof.
  assert (H : normalize Sample.hai !! 4%nat = Some Ch.nl)
    by (vm_compute; reflexivity).
  split; [exact H |].
  exact (normalize_lines Sample.hai 3 H).
Defined.
(** ** A batch that goes through *)

Section Returns.

Variable E : collaborators.
Variable cfg : settings.

Hypothesis tagger_ok : no_bare E.

Lemma parse_returns line s : exists wp, parse E line s = Val wp s.
Proof using tagger_ok.
  unfold parse. pose proof (parse_nodes_cases (parseToNode E line)) as Hc.
  destruct (parse_nodes (parseToNode E line)) as [wp|e]; [by eexists |].
  destruct Hc as [_ Hex]. exfalso.
  apply Exists_exists in Hex as (n & Hin & Hb).
  by apply (proj1 (Forall_forall _ _) (tagger_ok line) n Hin).
Qed.

(** Lines 187 to 202 for a parent whose slot 2 is still the text. *)
Lemma extend_returns idx key dic s d :
  (forall tw, dic !! key = Some tw -> exists t, t_body tw = Text t) ->
  queue s !! idx = Some d -> d <> [] ->
  exists r s1,
    extend E cfg idx key dic s = Val r s1
    /\ (forall k2, k2 <> key -> r.1 !! k2 = dic !! k2)
    /\ (s1 = s \/ exists e, s1 = extended_by idx d e s).
Proof using tagger_ok.
  intros Htext Hd Hne. unfold extend.
  destruct (dic !! key) as [tweet|] eqn:Hkey.
  2:{ eexists _, _. split; [reflexivity |]. split; [done | by left]. }
  destruct (Htext tweet eq_refl) as [t Ht].
  unfold bind at 1. unfold check. rewrite Ht. unfold ret at 1.
  unfold bind at 1.
  destruct (check_text E t).
  2:{ unfold ret. eexists _, _. split; [reflexivity |]. split; [done | by left]. }
  pose proof (talker_check_spec (t_user tweet) idx s) as Htc.
  destruct (talker_check (t_user tweet) idx s) as [b s1|e s1|s1];
    [| | done].
  2:{ destruct Htc as [_ [[_ Hq]|[_ Hq]]]; congruence. }
  destruct Htc as [-> _].
  destruct b.
  2:{ unfold ret. eexists _, _. split; [reflexivity |]. split; [done | by left]. }
  unfold bind at 1. unfold text_of. rewrite ?Ht. unfold ret at 1.
  unfold bind at 1.
  destruct (parse_returns (normalize t) s) as [wp ->].
  destruct (need_check cfg wp.2 && needless_check cfg wp.2).
  2:{ unfold ret. eexists _, _. split; [reflexivity |]. split; [| by left].
      intros k2 Hk2. simpl. by rewrite lookup_insert_ne. }
  destruct (length_check cfg _).
  2:{ unfold ret. eexists _, _. split; [reflexivity |]. split; [| by left].
      intros k2 Hk2. simpl. by rewrite !lookup_insert_ne. }
  unfold bind, get, index, update, ret. rewrite Hd. simpl.
  eexists _, _. split; [reflexivity |]. split.
  - intros k2 Hk2. simpl. by rewrite !lookup_insert_ne.
  - right.
    exists (set_body (Words (dump_filter cfg wp.1 wp.2).1)
              (set_body (Words wp.1) tweet),
            (dump_filter cfg wp.1 wp.2).2).
    reflexivity.
Qed.

Lemma lookup_loop_returns ids : forall idxs dic dump_idxs s,
  NoDup idxs ->
  Forall (fun i => exists o, ids !! i = Some o) idxs ->
  Forall (fun i => (i < length (queue s))%nat) idxs ->
  Forall (fun d => d <> []) (queue s) ->
  (forall i j oi oj, i ∈ idxs -> j ∈ idxs -> i <> j ->
     ids !! i = Some oi -> ids !! j = Some oj ->
     str_of_id oi <> str_of_id oj) ->
  (forall i o tw, i ∈ idxs -> ids !! i = Some o ->
     dic !! str_of_id o = Some tw -> exists t, t_body tw = Text t) ->
  exists s2, lookup_loop E cfg idxs ids dic dump_idxs s = Val true s2.
Proof using tagger_ok.
  induction idxs as [|idx idxs IH];
    intros dic dump_idxs s Hnd Hids Hlen Hne Hkeys Htext.
  { rewrite lookup_loop_nil. by eexists. }
  rewrite lookup_loop_cons.
  apply NoDup_cons in Hnd as [Hni Hnd].
  apply Forall_cons in Hids as [[o Ho] Hids].
  apply Forall_cons in Hlen as [Hidx Hlen].
  rewrite Ho.
  destruct (lookup_lt_is_Some_2 _ _ Hidx) as [d Hd].
  assert (Hdne : d <> []).
  { apply (proj1 (Forall_lookup _ _) Hne _ _ Hd). }
  destruct (extend_returns idx (str_of_id o) dic s d) as (r & s1 & -> & Hr & Hs1);
    [| done | done |].
  { intros tw. apply (Htext idx o tw); [by left | done]. }
  assert (Hlen1 : length (queue s1) = length (queue s)).
  { destruct Hs1 as [->|[e ->]]; [done |].
    by rewrite queue_extended_by, length_insert. }
  assert (Hne1 : Forall (fun d => d <> []) (queue s1)).
  { destruct Hs1 as [->|[e ->]]; [done |].
    rewrite queue_extended_by. apply Forall_insert; [done |].
    by destruct d. }
  assert (Hkeys2 : forall i j oi oj, i ∈ idxs -> j ∈ idxs -> i <> j ->
            ids !! i = Some oi -> ids !! j = Some oj ->
            str_of_id oi <> str_of_id oj).
  { intros i j oi oj Hi Hj. apply Hkeys; by right. }
  assert (Htext2 : forall i o2 tw, i ∈ idxs -> ids !! i = Some o2 ->
            r.1 !! str_of_id o2 = Some tw -> exists t, t_body tw = Text t).
  { intros i o2 tw Hi Ho2 Htw. rewrite Hr in Htw.
    - apply (Htext i o2 tw); [by right | done | done].
    - apply (Hkeys i idx o2 o); [by right | by left | | done | done].
      intros ->. done. }
  assert (Hgo : forall dump s2, length (queue s2) = length (queue s1) ->
            Forall (fun d => d <> []) (queue s2) ->
            exists s3, lookup_loop E cfg idxs ids r.1 dump s2 = Val true s3).
  { intros dump s2 Hl2 Hn2. apply IH; try done.
    eapply Forall_impl; [exact Hlen |]. simpl. lia. }
  destruct r.2; [| by apply Hgo].
  destruct (queue s1 !! idx) as [d1|] eqn:Hd1.
  2:{ apply lookup_ge_None in Hd1. lia. }
  destruct (2 <=? length d1)%nat; [| by apply Hgo].
  apply Hgo.
  - by rewrite queue_dump_state, length_insert.
  - rewrite queue_dump_state. apply Forall_insert; [done |].
    pose proof (proj1 (Forall_lookup _ _) Hne1 _ _ Hd1) as Hd1ne.
    intros Hrev. apply Hd1ne. apply (f_equal reverse) in Hrev.
    by rewrite reverse_involutive in Hrev.
Qed.

Lemma build_dic_texts (replys : list status) key tw :
  build_dic E replys !! key = Some tw -> exists t, t_body tw = Text t.
Proof.
  unfold build_dic.
  assert (Hgen : forall m : gmap str tweet,
            (forall k t2, m !! k = Some t2 -> exists t, t_body t2 = Text t) ->
            forall k t2,
              foldl (fun m r => <[id_str r := tweet_of E r]> m) m replys !! k
              = Some t2 ->
              exists t, t_body t2 = Text t).
  { induction replys as [|r replys IH]; intros m Hm; [done |].
    simpl. apply IH. intros k t2.
    destruct (decide (k = id_str r)) as [->|Hne].
    - rewrite lookup_insert_eq. intros [= <-]. by eexists.
    - rewrite lookup_insert_ne by done. apply Hm. }
  apply Hgen. intros k t2. by rewrite lookup_empty.
Qed.


End Returns.

Lemma toy_no_bare : no_bare Sample.toy.
Proof.
  intros line. unfold Sample.toy, Sample.tagger. cbn [parseToNode].
  assert (Hn : forall f : str, f ∉ bare_features ->
            forall w, feature {| surface := w; feature := f |} ∉ bare_features)
    by done.
  destruct (str_eqb line _);
    repeat (apply Forall_cons_2; [apply Hn; not_in_list |]);
    apply Forall_nil_2.
Qed.

